(** * A shallow embedding of the video transcoder pipeline

    The development follows the C++ sources of the transcoder:
    - [include/queue.h]            the thread-safe queue template,
    - [src/Transcoder.cpp]         the driver ([main]) and the video processor,
    - [src/demuxer.cpp]            stream probing and packet dispatch,
    - the video and audio decoder thread functions,
    - the audio processor (ring buffer, SoundTouch repacketizer),
    - the video and audio encoder thread functions and the encoders
      behind [IAudioEncoder],
    - [src/muxer.cpp]              the interleaving writer and the
                                   single-stream writers.

    Each stage thread is modelled sequentially: a stage sees its input
    queue as the sequence of units its producer delivers, and external
    library calls (FFmpeg, SoundTouch, OpenGL) are taken as parameters or
    as scripted outcomes.  C++ [int]/[int64_t] values are modelled as [Z];
    the counters involved stay far below the word size, so no wrap-around
    occurs in the modelled runs.  [double] values are IEEE-754 binary64
    primitive floats. *)

From Stdlib Require Import ZArith Bool Lia.
From Stdlib Require Import Floats.PrimFloat Floats.FloatOps.
From Stdlib Require Import Numbers.Cyclic.Int63.Uint63.
From stdpp Require Import base list gmap.

Set Warnings "-inexact-float".

(* ===================================================================== *)
(** * Definitions                                                         *)
(* ===================================================================== *)

(** ** [ThreadSafeQueue<T>] (include/queue.h) *)

Module ThreadSafeQueue.

Section Queue.
Context {T : Type}.

(** The protected members [queue_] and [finished_].  The mutex and the
    condition variable only serialise the operations below. *)
Record t := mk { queue_ : list T; finished_ : bool }.

(** [ThreadSafeQueue() : finished_(false) {}] -- the constructor takes no
    capacity. *)
Definition new : t := {| queue_ := []; finished_ := false |}.

(** [void push(T value)] *)
Definition push (value : T) (q : t) : t :=
  if negb (finished_ q)
  then {| queue_ := queue_ q ++ [value]; finished_ := finished_ q |}
  else q.

(** [bool pop(T& value)]: waits until [!queue_.empty() || finished_].
    [WouldBlock] is the state in which the wait predicate is false: the
    caller stays suspended until another thread pushes or finishes. *)
Inductive pop_result :=
| Popped (value : T) (q' : t)
| Closed
| WouldBlock.

Definition pop (q : t) : pop_result :=
  match queue_ q with
  | [] => if finished_ q then Closed else WouldBlock
  | value :: rest => Popped value {| queue_ := rest; finished_ := finished_ q |}
  end.

(** [void finish()] *)
Definition finish (q : t) : t :=
  {| queue_ := queue_ q; finished_ := true |}.

(** [bool empty() const], [size_t size() const], [bool is_finished() const] *)
Definition empty (q : t) : bool :=
  match queue_ q with [] => true | _ => false end.

Definition size (q : t) : nat := length (queue_ q).

Definition is_finished (q : t) : bool := finished_ q.

(** The operations a producer or consumer can apply to a queue. *)
Inductive op := Push (value : T) | Pop | Finish.

Definition apply_op (q : t) (o : op) : t :=
  match o with
  | Push value => push value q
  | Pop => match pop q with Popped _ q' => q' | _ => q end
  | Finish => finish q
  end.

(** The queue that a sequence of operations builds from a new queue. *)
Definition run_ops (ops : list op) : t := foldl apply_op new ops.

(** A producer pushing the values [values] one after the other. *)
Definition push_all (values : list T) (q : t) : t :=
  foldl (λ q value, push value q) q values.

(** The consumer loop [while (queue->pop(value)) { ... }] of the stage
    threads, for at most [fuel] calls of [pop]: the values obtained, and
    the queue and the result of the call that ended the loop.  [None] as
    result means that [fuel] calls all returned a value. *)
Fixpoint consume (fuel : nat) (q : t) : list T * t * option pop_result :=
  match fuel with
  | O => ([], q, None)
  | S fuel' =>
      match pop q with
      | Popped value q' =>
          let '(values, q'', last) := consume fuel' q' in (value :: values, q'', last)
      | last => ([], q, Some last)
      end
  end.
End Queue.

Arguments t : clear implicits.
Arguments pop_result : clear implicits.
Arguments op : clear implicits.

End ThreadSafeQueue.

(** ** Argument validation in [main] (src/Transcoder.cpp) *)

Module Transcoder.

(** The command line as [main] reads it: [argc] and the numeric values of
    the arguments it converts, [std::atof(argv[3])] as binary64 and
    [argv[8]], [argv[9]] after the conversion to the C++ [float] variables
    [brightness] and [contrast] (every binary32 value is a binary64 value,
    and comparisons agree). *)
Record Args := mkArgs {
  argc : Z;
  argv3 : float;
  argv8 : float;
  argv9 : float
}.

(** The defaults [1.1f] and [1.2f]. *)
Definition default_brightness : float := 0x1.19999ap+0.
Definition default_contrast : float := 0x1.333334p+0.

(** [if (speed_factor <= 0.1 || speed_factor > 5.0)] *)
Definition speed_factor_out_of_range (speed_factor : float) : bool :=
  (speed_factor <=? 0.1)%float || (5.0 <? speed_factor)%float.

(** The checks of [main] that precede the construction of the queues and
    threads.  [Some code] is the exit status returned before any stage
    thread is created; [None] means the driver goes on to probe the
    input and to start the stages. *)
Definition main_validation (a : Args) : option Z :=
  if (argc a <? 3)%Z then Some (-1)%Z else
  let speed_factor := if (3 <? argc a)%Z then argv3 a else 1%float in
  let brightness := if (8 <? argc a)%Z then argv8 a else default_brightness in
  let contrast := if (9 <? argc a)%Z then argv9 a else default_contrast in
  if speed_factor_out_of_range speed_factor then Some (-1)%Z
  else if (brightness <? 0)%float || (2 <? brightness)%float then Some (-1)%Z
  else if (contrast <? 0)%float || (2 <? contrast)%float then Some (-1)%Z
  else None.

(** The command line [transcoder <input> <output> <speed>]. *)
Definition args_with_speed (speed : float) : Args :=
  {| argc := 4; argv3 := speed; argv8 := 0; argv9 := 0 |}.

End Transcoder.

(** ** Conversions between [double] and [int] *)

Module Numeric.

(** [static_cast<int>(x)] for a [double] [x]: truncation toward zero.  The
    mantissa and exponent are read off the binary64 value, so the result is
    exact for every finite [x]; for NaN and the infinities (undefined in
    C++) the result is 0. *)
Definition double_to_int (x : float) : Z :=
  let '(m, e) := frshiftexp x in
  let mantissa := Uint63.to_Z (normfr_mantissa m) in
  let exponent := (Uint63.to_Z e - FloatOps.shift - 53)%Z in
  let magnitude :=
    if (0 <=? exponent)%Z then Z.shiftl mantissa exponent
    else Z.shiftr mantissa (- exponent) in
  if (x <? 0)%float then (- magnitude)%Z else magnitude.

(** Rounding to the nearest integer, halves away from zero ([std::round]):
    not used by the code, it is the reading of the word "round" against
    which the frame-dropping rule is compared. *)
Definition round_half_away (x : float) : Z :=
  if (x <? 0)%float then double_to_int (x - 0.5)%float
  else double_to_int (x + 0.5)%float.

End Numeric.

(** ** Scripted outcomes of external calls *)

Module Script.

(** A stage consults the outside world (allocator, codec library, GPU) at
    fixed points; a script lists, in call order, whether each such call
    succeeds.  An exhausted script means success. *)
Definition t := list bool.

Definition next (s : t) : bool * t :=
  match s with
  | [] => (true, [])
  | ok :: rest => (ok, rest)
  end.

End Script.

(** ** Stage threads *)

Module Stage.

(** How a stage thread ends: it returns, or it stays suspended in [pop] on
    an input queue that is empty and was never finished. *)
Inductive thread_exit := Returned | BlockedInPop.

End Stage.

(** ** Frames and buffers in memory *)

Module Mem.

Definition AV_PIX_FMT_NONE : Z := -1.
Definition AV_PIX_FMT_YUV420P : Z := 0.
Definition AV_NOPTS_VALUE : Z := - 2 ^ 63.

(** The fields of [AVFrame] the processor reads or writes.  [data] holds the
    plane pointers, as identifiers of reference-counted buffers. *)
Record AVFrame := mkFrame {
  data : list nat;
  linesize : list Z;
  width : Z;
  height : Z;
  format : Z;
  pts : Z;
  pkt_dts : Z;
  duration : Z;
  best_effort_timestamp : Z
}.

(** What [av_frame_alloc] and [av_frame_unref] leave in a frame. *)
Definition blank_frame : AVFrame :=
  {| data := []; linesize := []; width := 0; height := 0;
     format := AV_PIX_FMT_NONE; pts := AV_NOPTS_VALUE;
     pkt_dts := AV_NOPTS_VALUE; duration := 0;
     best_effort_timestamp := AV_NOPTS_VALUE |}.

Record AVBuffer := mkBuffer { refcount : nat; bytes : list Z }.

(** The heap of frames and pixel buffers, keyed by address, together with
    the script of external outcomes still to come. *)
Record World := mkWorld {
  frames : gmap nat AVFrame;
  buffers : gmap nat AVBuffer;
  script : Script.t
}.

Definition with_frames (fs : gmap nat AVFrame) (w : World) : World :=
  {| frames := fs; buffers := buffers w; script := script w |}.

Definition with_buffers (bs : gmap nat AVBuffer) (w : World) : World :=
  {| frames := frames w; buffers := bs; script := script w |}.

(** The outcome of the next external call. *)
Definition call (w : World) : bool * World :=
  let '(ok, s) := Script.next (script w) in
  (ok, {| frames := frames w; buffers := buffers w; script := s |}).

(** Reading and writing through a frame pointer.  Access through a pointer
    that is not live is undefined in C++; here a read yields the blank
    frame and a write is dropped. *)
Definition frame_at (w : World) (a : nat) : AVFrame :=
  default blank_frame (frames w !! a).

Definition update_frame (a : nat) (g : AVFrame → AVFrame) (w : World) : World :=
  with_frames (alter g a (frames w)) w.

Definition plane_bytes (w : World) (id : nat) : list Z :=
  default [] (bytes <$> buffers w !! id).

Definition planes (w : World) (f : AVFrame) : list (list Z) :=
  plane_bytes w <$> data f.

Definition update_bytes (id : nat) (g : list Z → list Z) (w : World) : World :=
  with_buffers
    (alter (λ b, {| refcount := refcount b; bytes := g (bytes b) |}) id (buffers w)) w.

(** Storing [new] at the start of a buffer never writes past its end. *)
Definition overwrite (new old : list Z) : list Z :=
  take (length old) new ++ drop (length new) old.

Fixpoint write_planes (ids : list nat) (contents : list (list Z)) (w : World) : World :=
  match ids, contents with
  | id :: ids', c :: contents' =>
      write_planes ids' contents' (update_bytes id (overwrite c) w)
  | _, _ => w
  end.

(** [av_frame_alloc]: a fresh blank frame, or [nullptr]. *)
Definition av_frame_alloc (w : World) : option nat * World :=
  let '(ok, w) := call w in
  if ok then
    let a := fresh (dom (frames w)) in
    (Some a, with_frames (<[a := blank_frame]> (frames w)) w)
  else (None, w).

(** Dropping one reference to a buffer frees it with the last reference. *)
Definition release_buffer (id : nat) (bs : gmap nat AVBuffer) : gmap nat AVBuffer :=
  match bs !! id with
  | Some b =>
      if (refcount b <=? 1)%nat then delete id bs
      else <[id := {| refcount := pred (refcount b); bytes := bytes b |}]> bs
  | None => bs
  end.

(** [av_frame_unref] *)
Definition av_frame_unref (a : nat) (w : World) : World :=
  let f := frame_at w a in
  update_frame a (λ _, blank_frame)
    (with_buffers (foldr release_buffer (buffers w) (data f)) w).

(** [av_frame_free] *)
Definition av_frame_free (a : nat) (w : World) : World :=
  let w := av_frame_unref a w in
  with_frames (delete a (frames w)) w.

Definition retain_buffer (id : nat) (bs : gmap nat AVBuffer) : gmap nat AVBuffer :=
  alter (λ b, {| refcount := S (refcount b); bytes := bytes b |}) id bs.

(** [av_frame_ref(dst, src)]: [dst] takes new references to the buffers of
    [src] and a copy of its properties; [false] stands for a negative
    return value, which leaves [dst] as it was. *)
Definition av_frame_ref (dst src : nat) (w : World) : bool * World :=
  let '(ok, w) := call w in
  if ok then
    let f := frame_at w src in
    (true, update_frame dst (λ _, f)
             (with_buffers (foldr retain_buffer (buffers w) (data f)) w))
  else (false, w).

Fixpoint alloc_buffers (sizes : list nat) (bs : gmap nat AVBuffer)
  : list nat * gmap nat AVBuffer :=
  match sizes with
  | [] => ([], bs)
  | n :: rest =>
      let id := fresh (dom bs) in
      let '(ids, bs') :=
        alloc_buffers rest (<[id := {| refcount := 1; bytes := replicate n 0%Z |}]> bs) in
      (id :: ids, bs')
  end.

(** [av_frame_get_buffer(frame, align)]: fresh buffers for the planes of the
    frame's format and size.  [layout] is the list of (linesize, byte size)
    the library chooses for the planes. *)
Definition av_frame_get_buffer (a : nat) (layout : list (Z * nat)) (w : World)
  : bool * World :=
  let '(ok, w) := call w in
  if ok then
    let '(ids, bs) := alloc_buffers (layout.*2) (buffers w) in
    (true, update_frame a
             (λ f, {| data := ids; linesize := layout.*1;
                      width := width f; height := height f; format := format f;
                      pts := pts f; pkt_dts := pkt_dts f; duration := duration f;
                      best_effort_timestamp := best_effort_timestamp f |})
             (with_buffers bs w))
  else (false, w).

(** *** Footprints *)

(** The buffers [ids] are live and the frame at [target] holds none of them. *)
Definition protects (target : nat) (ids : list nat) (w : World) : Prop :=
  (∀ id, id ∈ ids → is_Some (buffers w !! id))
  ∧ (∀ id, id ∈ data (frame_at w target) → id ∉ ids).

(** From [w] to [w'] no frame other than the one at [target] has changed,
    no frame was created or freed, and the buffers [ids] are as they were. *)
Definition modifies_only (target : nat) (ids : list nat) (w w' : World) : Prop :=
  (∀ a, a ≠ target → frames w' !! a = frames w !! a)
  ∧ (is_Some (frames w' !! target) ↔ is_Some (frames w !! target))
  ∧ (∀ id, id ∈ ids → buffers w' !! id = buffers w !! id).

(** The footprint of a step together with the protection afterwards. *)
Definition keeps (target : nat) (ids : list nat) (w w' : World) : Prop :=
  modifies_only target ids w w' ∧ protects target ids w'.

(** What a caller can observe of the frame at [a]: the frame structure and
    the buffers (reference counts and bytes) behind its plane pointers. *)
Definition frame_view (a : nat) (w : World) : option AVFrame * list (option AVBuffer) :=
  (frames w !! a, (λ id, buffers w !! id) <$> data (frame_at w a)).

End Mem.

(** ** The video processor (src/Transcoder.cpp, include/video_processor.h) *)

Module VideoProcessor.
Import Mem Stage.
Local Open Scope Z_scope.

(** [struct VideoProcessParams] *)
Record VideoProcessParams := mkParams {
  rotation_angle : float;
  enable_blur : bool;
  enable_sharpen : bool;
  enable_grayscale : bool;
  brightness : float;
  contrast : float;
  output_width : Z;
  output_height : Z;
  enable_speed_change : bool;
  speed_factor : float
}.

(** The data members of [class VideoProcessor] that drive its control flow.
    The scaler contexts, the GL handles and the scratch buffers are private
    to the processor and are represented by [initialized_] and
    [opengl_initialized_]. *)
Record t := mk {
  params_ : VideoProcessParams;
  input_width_ : Z;
  input_height_ : Z;
  input_format_ : Z;
  output_width_ : Z;
  output_height_ : Z;
  output_format_ : Z;
  initialized_ : bool;
  opengl_initialized_ : bool;
  speed_processing_enabled_ : bool;
  frame_counter_ : Z;
  total_output_frames_ : Z
}.

Definition default_params : VideoProcessParams :=
  {| rotation_angle := 0; enable_blur := false; enable_sharpen := false;
     enable_grayscale := false; brightness := 1; contrast := 1;
     output_width := 0; output_height := 0;
     enable_speed_change := false; speed_factor := 1 |}.

(** [VideoProcessor::VideoProcessor()] *)
Definition new : t :=
  {| params_ := default_params;
     input_width_ := 0; input_height_ := 0; input_format_ := AV_PIX_FMT_NONE;
     output_width_ := 0; output_height_ := 0; output_format_ := AV_PIX_FMT_YUV420P;
     initialized_ := false; opengl_initialized_ := false;
     speed_processing_enabled_ := false;
     frame_counter_ := 0; total_output_frames_ := 0 |}.

Definition set_counters (frame_counter total_output_frames : Z) (p : t) : t :=
  {| params_ := params_ p;
     input_width_ := input_width_ p; input_height_ := input_height_ p;
     input_format_ := input_format_ p;
     output_width_ := output_width_ p; output_height_ := output_height_ p;
     output_format_ := output_format_ p;
     initialized_ := initialized_ p; opengl_initialized_ := opengl_initialized_ p;
     speed_processing_enabled_ := speed_processing_enabled_ p;
     frame_counter_ := frame_counter; total_output_frames_ := total_output_frames |}.

(** [VideoProcessor::initialize].  The scripted calls are, in order:
    [sws_getContext], [av_malloc] of the temporary buffer and, when a
    rotation is requested, [av_malloc] of the RGB buffer, the second
    [sws_getContext] and [init_opengl_context] (whose failure is only a
    warning). *)
Definition initialize (input_width input_height input_format : Z)
    (params : VideoProcessParams) (p : t) (w : World) : bool * t * World :=
  let sized := 
    if (0 <? output_width params) && (0 <? output_height params)
    then (output_width params, output_height params)
    else (input_width, input_height) in
  let configured (initialized opengl speed : bool) : t :=
    {| params_ := params;
       input_width_ := input_width; input_height_ := input_height;
       input_format_ := input_format;
       output_width_ := sized.1; output_height_ := sized.2;
       output_format_ := output_format_ p;
       initialized_ := initialized; opengl_initialized_ := opengl;
       speed_processing_enabled_ := speed;
       frame_counter_ := frame_counter_ p;
       total_output_frames_ := total_output_frames_ p |} in
  let unchanged := configured (initialized_ p) (opengl_initialized_ p)
                              (speed_processing_enabled_ p) in
  let '(sws_ok, w) := call w in
  if negb sws_ok then (false, unchanged, w) else
  let '(temp_ok, w) := call w in
  if negb temp_ok then (false, unchanged, w) else
  let rotation := negb (rotation_angle params =? 0)%float in
  let '(rgb_ok, w) := if rotation then call w else (true, w) in
  if negb rgb_ok then (false, unchanged, w) else
  let '(yuv_to_rgb_ok, w) := if rotation then call w else (true, w) in
  if negb yuv_to_rgb_ok then (false, unchanged, w) else
  let '(gl_ok, w) := if rotation then call w else (false, w) in
  let opengl := if rotation then gl_ok else opengl_initialized_ p in
  let speed :=
    if enable_speed_change params && negb (speed_factor params =? 1)%float
    then true else speed_processing_enabled_ p in
  (true, configured true opengl speed, w).

(** [VideoProcessor::should_process_frame].  The argument [frame_pts] is
    not used by the function. *)
Definition should_process_frame (frame_pts : Z) (p : t) : bool * t :=
  if negb (speed_processing_enabled_ p) then (true, p) else
  let p := set_counters (frame_counter_ p + 1) (total_output_frames_ p) p in
  let speed := speed_factor (params_ p) in
  if (1 <? speed)%float then
    if (speed =? 1.5)%float then (negb (Z.rem (frame_counter_ p) 3 =? 0), p)
    else if (speed =? 2)%float then (Z.rem (frame_counter_ p) 2 =? 1, p)
    else
      let keep_frames := Numeric.double_to_int (100 / speed)%float in
      (Z.rem (frame_counter_ p) 100 <? keep_frames, p)
  else if (speed <? 1)%float then (true, p)
  else (true, p).

(** [VideoProcessor::get_next_frame_pts]: [return total_output_frames_++;] *)
Definition get_next_frame_pts (p : t) : Z * t :=
  (total_output_frames_ p,
   set_counters (frame_counter_ p) (total_output_frames_ p + 1) p).

(** The answers of the speed gate to [n] successive calls. *)
Fixpoint gate_decisions (n : nat) (p : t) : list bool :=
  match n with
  | O => []
  | S n' =>
      let '(keep, p') := should_process_frame 0 p in
      keep :: gate_decisions n' p'
  end.

(** The frame-dropping rule for input frame [k] (counted from 1), with the
    number of frames kept out of every hundred left open. *)
Definition keep_rule (keep_frames : float → Z) (speed : float) (k : Z) : bool :=
  if (speed =? 1.5)%float then negb (k mod 3 =? 0)
  else if (speed =? 2)%float then Z.odd k
  else k mod 100 <? keep_frames speed.

(** The rule in the words of the specification: [round(100 / speed)]. *)
Definition keep_rule_rounding : float → Z → bool :=
  keep_rule (λ speed, Numeric.round_half_away (100 / speed)%float).

(** The rule with the truncating conversion of the code. *)
Definition keep_rule_truncating : float → Z → bool :=
  keep_rule (λ speed, Numeric.double_to_int (100 / speed)%float).

(** *** Pixel filters on the planes of a frame *)

(** [memset(ptr, value, n)] on a buffer. *)
Definition memset (value n : Z) (old : list Z) : list Z :=
  overwrite (replicate (Z.to_nat n) value) old.

Definition plane_ptr (f : AVFrame) (i : nat) : option nat := data f !! i.
Definition plane_linesize (f : AVFrame) (i : nat) : Z := default 0 (linesize f !! i).

Definition on_plane (f : AVFrame) (i : nat) (g : list Z → list Z) (w : World) : World :=
  match plane_ptr f i with
  | Some id => update_bytes id g w
  | None => w
  end.

(** [VideoProcessor::apply_grayscale] *)
Definition apply_grayscale (frame : nat) (w : World) : World :=
  let f := frame_at w frame in
  if negb (format f =? AV_PIX_FMT_YUV420P) then w else
  let uv_size := Z.quot (plane_linesize f 1 * height f) 2 in
  on_plane f 2 (memset 128 uv_size) (on_plane f 1 (memset 128 uv_size) w).

(** Pixel [i] of a byte buffer. *)
Definition px (buf : list Z) (i : Z) : Z := default 0 (buf !! Z.to_nat i).

Definition clamp_byte (v : Z) : Z := Z.max 0 (Z.min 255 v).

(** The loop nest [for y in [1, height-1), for x in [1, width-1)] storing
    [kernel temp x y] at [y * linesize + x]. *)
Definition convolve (kernel : list Z → Z → Z → Z) (width height linesize : Z)
    (y_data : list Z) : list Z :=
  let temp_data := y_data in
  foldl (λ rows y,
           foldl (λ row x,
                    <[Z.to_nat (y * linesize + x) := kernel temp_data x y]> row)
                 rows (seqZ 1 (width - 2)))
        y_data (seqZ 1 (height - 2)).

Definition blur_kernel (linesize : Z) (temp_data : list Z) (x y : Z) : Z :=
  Z.quot
    (foldl (λ sum dy,
              foldl (λ sum dx, sum + px temp_data ((y + dy) * linesize + (x + dx)))
                    sum [-1; 0; 1])
           0 [-1; 0; 1])
    9.

Definition sharpen_kernel (linesize : Z) (temp_data : list Z) (x y : Z) : Z :=
  clamp_byte
    (5 * px temp_data (y * linesize + x)
     - px temp_data ((y - 1) * linesize + x)
     - px temp_data ((y + 1) * linesize + x)
     - px temp_data (y * linesize + (x - 1))
     - px temp_data (y * linesize + (x + 1))).

(** [VideoProcessor::apply_blur] and [apply_sharpen]: the scripted call is
    the [av_malloc] of the temporary copy. *)
Definition apply_kernel (kernel : Z → list Z → Z → Z → Z) (frame : nat) (w : World)
  : World :=
  let f := frame_at w frame in
  if negb (format f =? AV_PIX_FMT_YUV420P) then w else
  let '(temp_ok, w) := call w in
  if negb temp_ok then w else
  let linesize0 := plane_linesize f 0 in
  on_plane f 0 (convolve (kernel linesize0) (width f) (height f) linesize0) w.

Definition apply_blur : nat → World → World := apply_kernel blur_kernel.
Definition apply_sharpen : nat → World → World := apply_kernel sharpen_kernel.

Section ExternalPixels.

(** The pixel arithmetic that is not the processor's own:
    - [plane_layout format width height]: the (linesize, size) of each plane
      that [av_frame_get_buffer] allocates;
    - [sws_scale_pixels]: the planes [sws_scale] computes from the input planes;
    - [gl_rotate_pixels angle]: the planes that the RGB round trip through the
      offscreen framebuffer computes from the input planes;
    - [adjust_pixel contrast brightness y]: the binary32 expression
      [max(0, min(255, (int)(((y - 128) * contrast + 128) * brightness)))]. *)
Variable plane_layout : Z → Z → Z → list (Z * nat).
Variable sws_scale_pixels : list (list Z) → list (list Z).
Variable gl_rotate_pixels : float → list (list Z) → list (list Z).
Variable adjust_pixel : float → float → Z → Z.

(** [VideoProcessor::apply_brightness_contrast] *)
Definition apply_brightness_contrast (p : t) (frame : nat) (w : World) : World :=
  let f := frame_at w frame in
  if negb (format f =? AV_PIX_FMT_YUV420P) then w else
  let y_size := Z.to_nat (plane_linesize f 0 * height f) in
  let adjust := adjust_pixel (contrast (params_ p)) (brightness (params_ p)) in
  on_plane f 0 (λ y_data, (adjust <$> take y_size y_data) ++ drop y_size y_data) w.

(** [VideoProcessor::allocate_output_frame] *)
Definition allocate_output_frame (frame : nat) (width height format : Z) (w : World)
  : bool * World :=
  let w := av_frame_unref frame w in
  let w := update_frame frame
             (λ f, {| data := data f; linesize := linesize f;
                      width := width; height := height; format := format;
                      pts := pts f; pkt_dts := pkt_dts f; duration := duration f;
                      best_effort_timestamp := best_effort_timestamp f |}) w in
  av_frame_get_buffer frame (plane_layout format width height) w.

(** [sws_scale(sws_ctx_, input->data, ..., output->data, ...)]; [false]
    stands for a negative return value. *)
Definition sws_scale (input_frame output_frame : nat) (w : World) : bool * World :=
  let '(ok, w) := call w in
  if ok then
    (true, write_planes (data (frame_at w output_frame))
             (sws_scale_pixels (planes w (frame_at w input_frame))) w)
  else (false, w).

(** [VideoProcessor::rotate_frame_opengl]: one scripted outcome stands for
    the GL and scaler calls of the function, any of which makes it return
    [false]. *)
Definition rotate_frame_opengl (p : t) (input_frame output_frame : nat) (w : World)
  : bool * World :=
  if negb (opengl_initialized_ p) then (false, w) else
  let '(ok, w) := call w in
  if ok then
    (true, write_planes (data (frame_at w output_frame))
             (gl_rotate_pixels (rotation_angle (params_ p))
                               (planes w (frame_at w input_frame))) w)
  else (false, w).

(** The time stamps and geometry written at the end of [process_frame]. *)
Definition stamp (p : t) (f : AVFrame) : AVFrame :=
  {| data := data f; linesize := linesize f;
     width := output_width_ p; height := output_height_ p;
     format := output_format_ p;
     pts := total_output_frames_ p; pkt_dts := total_output_frames_ p;
     duration := 1; best_effort_timestamp := AV_NOPTS_VALUE |}.

(** [VideoProcessor::process_frame]; a pointer is [None] when null. *)
Definition process_frame (input_frame output_frame : option nat) (p : t) (w : World)
  : bool * t * World :=
  match input_frame, output_frame with
  | Some input, Some output =>
      if negb (initialized_ p) then (false, p, w) else
      let '(keep, p) :=
        if speed_processing_enabled_ p
        then should_process_frame (pts (frame_at w input)) p
        else (true, p) in
      if negb keep then (false, p, w) else
      let '(allocated, w) :=
        allocate_output_frame output (output_width_ p) (output_height_ p)
                              (output_format_ p) w in
      if negb allocated then (false, p, w) else
      let '(converted, w) :=
        if negb (rotation_angle (params_ p) =? 0)%float then
          let '(rotated, w) := rotate_frame_opengl p input output w in
          if rotated then (true, w) else sws_scale input output w
        else sws_scale input output w in
      if negb converted then (false, p, w) else
      let w := if enable_grayscale (params_ p) then apply_grayscale output w else w in
      let w :=
        if negb (brightness (params_ p) =? 1)%float
           || negb (contrast (params_ p) =? 1)%float
        then apply_brightness_contrast p output w else w in
      let w := if enable_blur (params_ p) then apply_blur output w else w in
      let w := if enable_sharpen (params_ p) then apply_sharpen output w else w in
      let w := update_frame output (stamp p) w in
      (true, set_counters (frame_counter_ p) (total_output_frames_ p + 1) p, w)
  | _, _ => (false, p, w)
  end.

(** The duplication loop of [video_process_thread_func], for the remaining
    [count] iterations. *)
Fixpoint duplicate_frames (count : nat) (output_frame : nat) (p : t)
    (output_queue : ThreadSafeQueue.t (option nat)) (w : World)
  : t * ThreadSafeQueue.t (option nat) * World :=
  match count with
  | O => (p, output_queue, w)
  | S count' =>
      let '(duplicated_frame, w) := av_frame_alloc w in
      match duplicated_frame with
      | Some dup =>
          let '(referenced, w) := av_frame_ref dup output_frame w in
          if referenced then
            let '(next_pts, p) := get_next_frame_pts p in
            let w := update_frame dup
                       (λ f, {| data := data f; linesize := linesize f;
                                width := width f; height := height f;
                                format := format f;
                                pts := next_pts; pkt_dts := next_pts; duration := 1;
                                best_effort_timestamp := best_effort_timestamp f |}) w in
            duplicate_frames count' output_frame p
              (ThreadSafeQueue.push (Some dup) output_queue) w
          else (p, output_queue, av_frame_free dup w)
      | None => (p, output_queue, w)
      end
  end.

Record ThreadResult := mkResult {
  exit_ : Stage.thread_exit;
  processor : t;
  output_queue_ : ThreadSafeQueue.t (option nat);
  world_ : World
}.

(** The [while (input_queue->pop(input_frame))] loop of
    [video_process_thread_func], over the units [pending] still to be
    popped; [input_finished] is the [finished_] flag of the input queue. *)
Fixpoint process_loop (params : VideoProcessParams) (pending : list (option nat))
    (input_finished : bool) (p : t) (output_queue : ThreadSafeQueue.t (option nat))
    (w : World) : ThreadResult :=
  match pending with
  | [] =>
      if input_finished
      then mkResult Returned p (ThreadSafeQueue.finish output_queue) w
      else mkResult BlockedInPop p output_queue w
  | None :: _ => mkResult Returned p (ThreadSafeQueue.finish output_queue) w
  | Some input :: rest =>
      let '(output_frame, w) := av_frame_alloc w in
      match output_frame with
      | None =>
          process_loop params rest input_finished p output_queue (av_frame_free input w)
      | Some output =>
          let '(processed, p, w) := process_frame (Some input) (Some output) p w in
          let '(p, output_queue, w) :=
            if processed then
              let output_queue := ThreadSafeQueue.push (Some output) output_queue in
              if enable_speed_change params && (speed_factor params <? 1)%float then
                let duplicate_factor := (1 / speed_factor params)%float in
                let duplicate_count := Numeric.double_to_int duplicate_factor - 1 in
                duplicate_frames (Z.to_nat duplicate_count) output p output_queue w
              else (p, output_queue, w)
            else (p, output_queue, av_frame_free output w) in
          process_loop params rest input_finished p output_queue (av_frame_free input w)
      end
  end.

(** [video_process_thread_func] *)
Definition video_process_thread_func (input_queue output_queue : ThreadSafeQueue.t (option nat))
    (params : VideoProcessParams) (input_width input_height input_format : Z)
    (w : World) : ThreadResult :=
  let '(initialized, p, w) :=
    initialize input_width input_height input_format params new w in
  if negb initialized then mkResult Returned p output_queue w
  else process_loop params (ThreadSafeQueue.queue_ input_queue)
         (ThreadSafeQueue.finished_ input_queue) p output_queue w.

End ExternalPixels.

(** *** Invariant of the processing loop *)

(** Every unit of the queue points to a live frame whose pts and dts are
    its index in the queue and whose duration is 1. *)
Definition stamped_queue (units : list (option nat)) (w : World) : Prop :=
  ∀ (k : nat) unit, units !! k = Some unit →
    ∃ a f, unit = Some a ∧ frames w !! a = Some f
           ∧ pts f = Z.of_nat k ∧ pkt_dts f = Z.of_nat k ∧ duration f = 1.

(** The output queue is stamped and live, the output counter is its
    length, and the frames at [inputs] (still to be consumed) are live and
    not in the output queue. *)
Definition loop_invariant (inputs : list nat) (p : t)
    (output_queue : ThreadSafeQueue.t (option nat)) (w : World) : Prop :=
  stamped_queue (ThreadSafeQueue.queue_ output_queue) w
  ∧ total_output_frames_ p = Z.of_nat (length (ThreadSafeQueue.queue_ output_queue))
  ∧ ThreadSafeQueue.finished_ output_queue = false
  ∧ ∀ a, a ∈ inputs →
      is_Some (frames w !! a) ∧ Some a ∉ ThreadSafeQueue.queue_ output_queue.

(** The frames of [w] and [w'] agree everywhere but at address [a]. *)
Definition frames_agree_except (a : nat) (w w' : World) : Prop :=
  ∀ b, b ≠ a → frames w' !! b = frames w !! b.

(** The number of output frames per processed input frame: the frame
    itself and, in slow motion, the
    [static_cast<int>(1.0 / speed_factor) - 1] duplicates of the thread
    function. *)
Definition copies_per_frame (params : VideoProcessParams) : nat :=
  if enable_speed_change params && (speed_factor params <? 1)%float
  then S (Z.to_nat (Numeric.double_to_int (1 / speed_factor params) - 1))
  else 1%nat.

(** The frames that are live, less the frames that the queue owns and the
    input frames still to be consumed: what the thread itself holds or
    has lost track of. *)
Definition unaccounted (inputs : list nat) (output_queue : ThreadSafeQueue.t (option nat))
    (w : World) : Z :=
  Z.of_nat (size (frames w))
  - Z.of_nat (length (ThreadSafeQueue.queue_ output_queue))
  - Z.of_nat (length inputs).

(** *** The filter loops as one pass over the interior pixels *)

(** A loop that stores [val a] at index [idx a] for every [a] of a list. *)
Definition store_all {A : Type} (idx : A → nat) (val : A → Z) (row : list Z) (l : list A)
  : list Z :=
  foldl (λ row a, <[idx a := val a]> row) row l.

(** The pixels [(x, y)] that the two nested loops of a filter visit, in
    the order of the visits. *)
Definition interior (width height : Z) : list (Z * Z) :=
  y ← seqZ 1 (height - 2); (λ x, (x, y)) <$> seqZ 1 (width - 2).

(** A value that fits in a [uint8_t]. *)
Definition is_byte (v : Z) : Prop := 0 ≤ v ≤ 255.

#[global] Instance is_byte_dec (v : Z) : Decision (is_byte v).
Proof. unfold is_byte. apply _. Defined.

End VideoProcessor.

(** ** The demuxer (src/demuxer.cpp) *)

Module Demuxer.
Import Stage.
Local Open Scope Z_scope.

Inductive AVMediaType :=
| AVMEDIA_TYPE_VIDEO
| AVMEDIA_TYPE_AUDIO
| AVMEDIA_TYPE_OTHER.

#[global] Instance AVMediaType_eq_dec : EqDecision AVMediaType.
Proof. solve_decision. Defined.

(** [AVStream] with the [codecpar] fields that probing reads. *)
Record AVStream := mkStream {
  codec_type : AVMediaType;
  width : Z;
  height : Z;
  format : Z;
  r_frame_rate : Z * Z;
  sample_rate : Z;
  nb_channels : Z
}.

Record AVPacket := mkPacket { stream_index : Z; pts : Z }.

(** What the format library reports for an input file name: whether
    [avformat_open_input] and [avformat_find_stream_info] succeed, the
    stream list, and the packets [av_read_frame] returns before its first
    negative result. *)
Record Input := mkInput {
  opens : bool;
  has_stream_info : bool;
  streams : list AVStream;
  packets : list AVPacket
}.

(** [struct DemuxerParams] *)
Record DemuxerParams := mkParams {
  input_filename : Input;
  max_frames : Z;
  enable_audio : bool;
  enable_video : bool
}.

(** [struct StreamInfo]; the codec parameters are a copy of the stream's. *)
Record StreamInfo := mkInfo {
  video_stream_index : Z;
  audio_stream_index : Z;
  video_width : Z;
  video_height : Z;
  video_fps : Z;
  video_pixel_format : Z;
  audio_sample_rate : Z;
  audio_channels : Z;
  audio_sample_format : Z;
  video_codec_params : option AVStream;
  audio_codec_params : option AVStream
}.

Definition AV_SAMPLE_FMT_FLTP : Z := 8.

Definition default_info : StreamInfo :=
  {| video_stream_index := -1; audio_stream_index := -1;
     video_width := 0; video_height := 0; video_fps := 25;
     video_pixel_format := Mem.AV_PIX_FMT_YUV420P;
     audio_sample_rate := 48000; audio_channels := 2;
     audio_sample_format := AV_SAMPLE_FMT_FLTP;
     video_codec_params := None; audio_codec_params := None |}.

(** The body of the stream loop of [get_stream_info] for stream [i]. *)
Definition probe_stream (info : StreamInfo) (i : Z) (stream : AVStream) : StreamInfo :=
  if bool_decide (codec_type stream = AVMEDIA_TYPE_VIDEO)
     && (video_stream_index info =? -1) then
    {| video_stream_index := i;
       audio_stream_index := audio_stream_index info;
       video_width := width stream; video_height := height stream;
       video_fps :=
         if (0 <? (r_frame_rate stream).1) && (0 <? (r_frame_rate stream).2)
         then Z.quot (r_frame_rate stream).1 (r_frame_rate stream).2
         else video_fps info;
       video_pixel_format := format stream;
       audio_sample_rate := audio_sample_rate info;
       audio_channels := audio_channels info;
       audio_sample_format := audio_sample_format info;
       video_codec_params := Some stream;
       audio_codec_params := audio_codec_params info |}
  else if bool_decide (codec_type stream = AVMEDIA_TYPE_AUDIO)
          && (audio_stream_index info =? -1) then
    {| video_stream_index := video_stream_index info;
       audio_stream_index := i;
       video_width := video_width info; video_height := video_height info;
       video_fps := video_fps info;
       video_pixel_format := video_pixel_format info;
       audio_sample_rate := sample_rate stream;
       audio_channels := nb_channels stream;
       audio_sample_format := format stream;
       video_codec_params := video_codec_params info;
       audio_codec_params := Some stream |}
  else info.

(** A loop [for (i = start; i < nb_streams; ++i)] over the stream list. *)
Fixpoint stream_loop {A : Type} (body : A → Z → AVStream → A) (acc : A) (i : Z)
    (ss : list AVStream) : A :=
  match ss with
  | [] => acc
  | stream :: rest => stream_loop body (body acc i stream) (i + 1) rest
  end.

(** [get_stream_info] *)
Definition get_stream_info (input : Input) (info : StreamInfo) : bool * StreamInfo :=
  if negb (opens input) then (false, info)
  else if negb (has_stream_info input) then (false, info)
  else
    let info := stream_loop probe_stream info 0 (streams input) in
    ((0 <=? video_stream_index info) || (0 <=? audio_stream_index info), info).

(** The body of the index loop of [demux_thread_func_with_params]; the pair
    is ([video_stream_index], [audio_stream_index]). *)
Definition select_stream (params : DemuxerParams) (indices : Z * Z) (i : Z)
    (stream : AVStream) : Z * Z :=
  if bool_decide (codec_type stream = AVMEDIA_TYPE_VIDEO) && enable_video params
  then (i, indices.2)
  else if bool_decide (codec_type stream = AVMEDIA_TYPE_AUDIO) && enable_audio params
  then (indices.1, i)
  else indices.

Definition packet_queue := option (ThreadSafeQueue.t (option AVPacket)).

Definition push_to (packet : AVPacket) (q : packet_queue) : packet_queue :=
  ThreadSafeQueue.push (Some packet) <$> q.

Record DemuxResult := mkResult {
  video_packet_queue_ : packet_queue;
  audio_packet_queue_ : packet_queue;
  video_frame_count : Z;
  audio_frame_count : Z
}.

(** The [while (av_read_frame(...) >= 0)] loop. *)
Fixpoint read_loop (params : DemuxerParams) (indices : Z * Z)
    (pending : list AVPacket) (r : DemuxResult) : DemuxResult :=
  match pending with
  | [] => r
  | packet :: rest =>
      let r :=
        if (stream_index packet =? indices.1) && bool_decide (is_Some (video_packet_queue_ r))
        then mkResult (push_to packet (video_packet_queue_ r)) (audio_packet_queue_ r)
                      (video_frame_count r + 1) (audio_frame_count r)
        else if (stream_index packet =? indices.2)
                && bool_decide (is_Some (audio_packet_queue_ r))
        then mkResult (video_packet_queue_ r) (push_to packet (audio_packet_queue_ r))
                      (video_frame_count r) (audio_frame_count r + 1)
        else r in
      if (0 <? max_frames params) && (max_frames params <=? video_frame_count r)
      then r
      else read_loop params indices rest r
  end.

(** [demux_thread_func_with_params] *)
Definition demux_thread_func_with_params (params : DemuxerParams)
    (video_packet_queue audio_packet_queue : packet_queue) : DemuxResult :=
  let untouched := mkResult video_packet_queue audio_packet_queue 0 0 in
  let input := input_filename params in
  if negb (opens input) then untouched
  else if negb (has_stream_info input) then untouched
  else
    let indices := stream_loop (select_stream params) (-1, -1) 0 (streams input) in
    if (indices.1 =? -1) && (indices.2 =? -1) then untouched
    else
      let r := read_loop params indices (packets input) untouched in
      mkResult (ThreadSafeQueue.finish <$> video_packet_queue_ r)
               (ThreadSafeQueue.finish <$> audio_packet_queue_ r)
               (video_frame_count r) (audio_frame_count r).

(** [demux_thread_func]: default parameters with the given file name. *)
Definition demux_thread_func (input_filename : Input)
    (video_packet_queue audio_packet_queue : packet_queue) : DemuxResult :=
  demux_thread_func_with_params (mkParams input_filename 0 true true)
    video_packet_queue audio_packet_queue.

(** *** Streams and packets by position *)

(** The first stream of a media type in a stream list, with its index. *)
Definition first_stream (type : AVMediaType) (ss : list AVStream)
  : option (nat * AVStream) :=
  list_find (λ stream, codec_type stream = type) ss.

(** What a [StreamInfo] says about the video stream and about the audio
    stream: index, codec parameters and the fields derived from them. *)
Definition video_summary (info : StreamInfo) : Z * option AVStream * Z * Z * Z * Z :=
  (video_stream_index info, video_codec_params info,
   video_width info, video_height info, video_fps info, video_pixel_format info).

Definition audio_summary (info : StreamInfo) : Z * option AVStream * Z * Z * Z :=
  (audio_stream_index info, audio_codec_params info,
   audio_sample_rate info, audio_channels info, audio_sample_format info).

(** The same for stream [i] of a container; the frame rate is the integer
    quotient of [r_frame_rate] when both of its terms are positive, and
    [fps] otherwise. *)
Definition video_summary_of (i : Z) (stream : AVStream) (fps : Z)
  : Z * option AVStream * Z * Z * Z * Z :=
  (i, Some stream, width stream, height stream,
   (if (0 <? (r_frame_rate stream).1) && (0 <? (r_frame_rate stream).2)
    then Z.quot (r_frame_rate stream).1 (r_frame_rate stream).2 else fps),
   format stream).

Definition audio_summary_of (i : Z) (stream : AVStream) : Z * option AVStream * Z * Z * Z :=
  (i, Some stream, sample_rate stream, nb_channels stream, format stream).

(** The index of the last stream of a media type, or -1 without one. *)
Definition last_stream_index (type : AVMediaType) (ss : list AVStream) : Z :=
  match list_find (λ stream, codec_type stream = type) (reverse ss) with
  | Some (k, _) => Z.of_nat (length ss) - 1 - Z.of_nat k
  | None => -1
  end.

(** The packets of a file that carry the stream index [index], in file order. *)
Definition packets_on (index : Z) (packets : list AVPacket) : list AVPacket :=
  filter (λ packet, stream_index packet = index) packets.

End Demuxer.

(** ** The decoder threads (video_decoder.cpp, audio_decoder.cpp) *)

Module Decoder.
Import Stage.
Local Open Scope Z_scope.

(** Decoded frames are carried by value here: only their identity matters
    to the decoder threads. *)
Record AVPacket := mkPacket { pkt_pts : Z }.
Record AVFrame := mkFrame { frame_pts : Z }.

(** The results of [avcodec_receive_frame]: a frame (return value 0),
    [AVERROR(EAGAIN)], [AVERROR_EOF], or another negative value. *)
Inductive receive_result :=
| Frame (f : AVFrame)
| EAGAIN
| AVERROR_EOF
| AVERROR_OTHER.

(** The codec library behind [AVCodecContext]: [avcodec_send_packet] with a
    packet or with [nullptr] (the flush request), returning its [int], and
    [avcodec_receive_frame]. *)
Class Codec (C : Type) := {
  avcodec_send_packet : option AVPacket → C → Z * C;
  avcodec_receive_frame : C → receive_result * C
}.

Record DecodeResult (C : Type) := mkResult {
  exit_ : thread_exit;
  codec_context : C;
  frame_queue_ : ThreadSafeQueue.t (option AVFrame);
  script_ : Script.t;
  frame_count : Z
}.
Arguments mkResult {C}.
Arguments exit_ {C}.
Arguments codec_context {C}.
Arguments frame_queue_ {C}.
Arguments script_ {C}.
Arguments frame_count {C}.

Section Threads.
Context {C : Type} `{Codec C}.

(** The five set-up calls of both thread functions ([avcodec_find_decoder],
    [avcodec_alloc_context3], [avcodec_parameters_to_context],
    [avcodec_open2], [av_frame_alloc]); each failure is an immediate
    [return]. *)
Fixpoint setup (calls : nat) (script : Script.t) : bool * Script.t :=
  match calls with
  | O => (true, script)
  | S calls' =>
      let '(ok, script) := Script.next script in
      if ok then setup calls' script else (false, script)
  end.

(** The inner [while (ret >= 0)] loop of [video_decode_to_frames_thread_func].
    The scripted call is [av_frame_ref]; [None] when [fuel] receive calls
    did not reach the end of the loop. *)
Fixpoint video_receive_loop (fuel : nat) (r : DecodeResult C) : option (DecodeResult C) :=
  match fuel with
  | O => None
  | S fuel' =>
      let '(received, ctx) := avcodec_receive_frame (codec_context r) in
      match received with
      | Frame f =>
          let '(referenced, script) := Script.next (script_ r) in
          if referenced then
            video_receive_loop fuel'
              (mkResult (exit_ r) ctx (ThreadSafeQueue.push (Some f) (frame_queue_ r))
                        script (frame_count r + 1))
          else
            video_receive_loop fuel'
              (mkResult (exit_ r) ctx (frame_queue_ r) script (frame_count r))
      | EAGAIN | AVERROR_EOF | AVERROR_OTHER =>
          Some (mkResult (exit_ r) ctx (frame_queue_ r) (script_ r) (frame_count r))
      end
  end.

(** The outer [while (true)] loop of [video_decode_to_frames_thread_func],
    followed by [video_frame_queue->finish()]. *)
Fixpoint video_decode_loop (fuel : nat) (pending : list (option AVPacket))
    (input_finished : bool) (r : DecodeResult C) : option (DecodeResult C) :=
  let finished r :=
    mkResult Returned (codec_context r) (ThreadSafeQueue.finish (frame_queue_ r))
             (script_ r) (frame_count r) in
  match pending with
  | [] =>
      if input_finished then Some (finished r)
      else Some (mkResult BlockedInPop (codec_context r) (frame_queue_ r)
                          (script_ r) (frame_count r))
  | None :: _ => Some (finished r)
  | Some packet :: rest =>
      let '(ret, ctx) := avcodec_send_packet (Some packet) (codec_context r) in
      let r := mkResult (exit_ r) ctx (frame_queue_ r) (script_ r) (frame_count r) in
      if ret <? 0 then video_decode_loop fuel rest input_finished r
      else
        match video_receive_loop fuel r with
        | Some r => video_decode_loop fuel rest input_finished r
        | None => None
        end
  end.

(** [video_decode_to_frames_thread_func] *)
Definition video_decode_to_frames_thread_func (fuel : nat)
    (video_packet_queue : ThreadSafeQueue.t (option AVPacket))
    (video_frame_queue : ThreadSafeQueue.t (option AVFrame))
    (ctx : C) (script : Script.t) : option (DecodeResult C) :=
  let '(ready, script) := setup 5 script in
  if negb ready then Some (mkResult Returned ctx video_frame_queue script 0)
  else video_decode_loop fuel (ThreadSafeQueue.queue_ video_packet_queue)
         (ThreadSafeQueue.finished_ video_packet_queue)
         (mkResult Returned ctx video_frame_queue script 0).

(** The inner [while (ret >= 0)] loop of [audio_decode_to_frames_thread_func];
    the boolean is the new value of [done]. *)
Fixpoint audio_receive_loop (fuel : nat) (done : bool) (r : DecodeResult C)
  : option (bool * DecodeResult C) :=
  match fuel with
  | O => None
  | S fuel' =>
      let '(received, ctx) := avcodec_receive_frame (codec_context r) in
      let r' := mkResult (exit_ r) ctx (frame_queue_ r) (script_ r) (frame_count r) in
      match received with
      | EAGAIN => Some (done, r')
      | AVERROR_EOF => Some (true, r')
      | AVERROR_OTHER => Some (true, r')
      | Frame f =>
          let '(referenced, script) := Script.next (script_ r) in
          if referenced then
            audio_receive_loop fuel' done
              (mkResult (exit_ r) ctx (ThreadSafeQueue.push (Some f) (frame_queue_ r))
                        script (frame_count r + 1))
          else
            audio_receive_loop fuel' done
              (mkResult (exit_ r) ctx (frame_queue_ r) script (frame_count r))
      end
  end.

(** The outer [while (!done)] loop of [audio_decode_to_frames_thread_func],
    followed by [audio_frame_queue->finish()].  A failed [pop] (queue
    finished and empty) and a null unit both make [packet] null. *)
Fixpoint audio_decode_loop (fuel : nat) (pending : list (option AVPacket))
    (input_finished : bool) (r : DecodeResult C) : option (DecodeResult C) :=
  match fuel with
  | O => None
  | S fuel' =>
      match pending, input_finished with
      | [], false =>
          Some (mkResult BlockedInPop (codec_context r) (frame_queue_ r)
                         (script_ r) (frame_count r))
      | _, _ =>
          let packet := mjoin (head pending) in
          let '(ret, ctx) := avcodec_send_packet packet (codec_context r) in
          let done := ret <? 0 in
          let r := mkResult (exit_ r) ctx (frame_queue_ r) (script_ r) (frame_count r) in
          match (if ret <? 0 then Some (done, r) else audio_receive_loop fuel done r) with
          | None => None
          | Some (true, r) =>
              Some (mkResult Returned (codec_context r)
                             (ThreadSafeQueue.finish (frame_queue_ r))
                             (script_ r) (frame_count r))
          | Some (false, r) => audio_decode_loop fuel' (tail pending) input_finished r
          end
      end
  end.

(** [audio_decode_to_frames_thread_func] *)
Definition audio_decode_to_frames_thread_func (fuel : nat)
    (audio_packet_queue : ThreadSafeQueue.t (option AVPacket))
    (audio_frame_queue : ThreadSafeQueue.t (option AVFrame))
    (ctx : C) (script : Script.t) : option (DecodeResult C) :=
  let '(ready, script) := setup 5 script in
  if negb ready then Some (mkResult Returned ctx audio_frame_queue script 0)
  else audio_decode_loop fuel (ThreadSafeQueue.queue_ audio_packet_queue)
         (ThreadSafeQueue.finished_ audio_packet_queue)
         (mkResult Returned ctx audio_frame_queue script 0).

End Threads.

(** A codec that holds back the last [delay] frames until it is flushed, as
    decoders with frame reordering or frame threading do. *)
Record DelayCodec := mkDelay {
  delay : nat;
  held : list AVFrame;
  ready : list AVFrame;
  draining : bool
}.

Definition AVERROR_EOF_code : Z := -541478725.

#[global] Instance delay_codec : Codec DelayCodec := {
  avcodec_send_packet packet c :=
    if draining c then (AVERROR_EOF_code, c) else
    match packet with
    | Some p =>
        let held' := held c ++ [mkFrame (pkt_pts p)] in
        let released := (length held' - delay c)%nat in
        (0, mkDelay (delay c) (drop released held') (ready c ++ take released held') false)
    | None => (0, mkDelay (delay c) [] (ready c ++ held c) true)
    end;
  avcodec_receive_frame c :=
    match ready c with
    | f :: rest => (Frame f, mkDelay (delay c) (held c) rest (draining c))
    | [] => (if draining c then AVERROR_EOF else EAGAIN, c)
    end
}.

(** The frame that this codec decodes from a packet. *)
Definition decoded (packet : AVPacket) : AVFrame := mkFrame (pkt_pts packet).

End Decoder.

(** ** The muxer (src/muxer.cpp) *)

Module Muxer.
Import Stage.
Local Open Scope Z_scope.

Record AVRational := mkQ { num : Z; den : Z }.

(** FFmpeg's [av_rescale_q(a, bq, cq)]: [a * bq / cq] rounded to the
    nearest integer, halves away from zero. *)
Definition av_rescale_q (a : Z) (bq cq : AVRational) : Z :=
  let b := num bq * den cq in
  let c := num cq * den bq in
  Z.sgn a * Z.quot (Z.abs a * b + Z.quot c 2) c.

Record AVPacket := mkPacket {
  stream_index : Z;
  pts : Z;
  dts : Z;
  duration : Z
}.

(** FFmpeg's [av_packet_rescale_ts]. *)
Definition av_packet_rescale_ts (pkt : AVPacket) (src dst : AVRational) : AVPacket :=
  {| stream_index := stream_index pkt;
     pts := if pts pkt =? Mem.AV_NOPTS_VALUE then pts pkt
            else av_rescale_q (pts pkt) src dst;
     dts := if dts pkt =? Mem.AV_NOPTS_VALUE then dts pkt
            else av_rescale_q (dts pkt) src dst;
     duration := if 0 <? duration pkt then av_rescale_q (duration pkt) src dst
                 else duration pkt |}.

(** The fields of [struct MuxerParams] that the packet loop reads, and the
    time bases the streams have once [avformat_write_header] has returned
    (the thread sets them to [{1, video_fps}] and [{1, audio_sample_rate}];
    the container format may replace them). *)
Record MuxerParams := mkParams {
  video_fps : Z;
  audio_sample_rate : Z;
  video_time_base : AVRational;
  audio_time_base : AVRational
}.

Definition packet_queue := ThreadSafeQueue.t (option AVPacket).

(** What the thread does to the output file. *)
Inductive event :=
| WriteFrame (pkt : AVPacket) (written : bool)
| WriteTrailer.

(** The local variables of [mux_thread_func] during its main loop, with the
    two input queues and the output so far. *)
Record State := mkState {
  video_packet_queue : option packet_queue;
  audio_packet_queue : option packet_queue;
  video_stream_index : Z;
  audio_stream_index : Z;
  video_done : bool;
  audio_done : bool;
  video_pts : Z;
  audio_pts : Z;
  video_packet_count : Z;
  audio_packet_count : Z;
  output : list event;
  script : Script.t
}.

(** The state on entry to the main loop: the video stream is created first. *)
Definition init (video_queue audio_queue : option packet_queue) (script : Script.t)
  : State :=
  let video_index := match video_queue with Some _ => 0 | None => -1 end in
  let audio_index :=
    match video_queue, audio_queue with
    | _, None => -1
    | Some _, Some _ => 1
    | None, Some _ => 0
    end in
  {| video_packet_queue := video_queue; audio_packet_queue := audio_queue;
     video_stream_index := video_index; audio_stream_index := audio_index;
     video_done := match video_queue with Some _ => false | None => true end;
     audio_done := match audio_queue with Some _ => false | None => true end;
     video_pts := 0; audio_pts := 0;
     video_packet_count := 0; audio_packet_count := 0;
     output := []; script := script |}.

(** The choice of [is_video] at the top of an iteration. *)
Definition select_video (st : State) : bool :=
  if negb (video_done st) && negb (audio_done st) then video_pts st <=? audio_pts st
  else if negb (video_done st) then true
  else false.

Definition pop_from (q : option packet_queue) : ThreadSafeQueue.pop_result (option AVPacket) :=
  match q with
  | Some q => ThreadSafeQueue.pop q
  | None => ThreadSafeQueue.Closed
  end.

(** The part of an iteration under [if (packet)]: stamp the stream index,
    synthesise a missing pts, rescale, remember the pts, write. *)
Definition write_packet (params : MuxerParams) (is_video : bool) (packet : AVPacket)
    (st : State) : State :=
  let index := if is_video then video_stream_index st else audio_stream_index st in
  let on_video := index =? video_stream_index st in
  let packet := mkPacket index (pts packet) (dts packet) (duration packet) in
  let packet :=
    if pts packet =? Mem.AV_NOPTS_VALUE then
      let count := if on_video then video_packet_count st else audio_packet_count st in
      mkPacket index count count (duration packet)
    else packet in
  let packet :=
    if on_video
    then av_packet_rescale_ts packet (mkQ 1 (video_fps params)) (video_time_base params)
    else av_packet_rescale_ts packet (mkQ 1 (audio_sample_rate params))
                              (audio_time_base params) in
  let '(written, script) := Script.next (script st) in
  {| video_packet_queue := video_packet_queue st;
     audio_packet_queue := audio_packet_queue st;
     video_stream_index := video_stream_index st;
     audio_stream_index := audio_stream_index st;
     video_done := video_done st; audio_done := audio_done st;
     video_pts := if on_video then pts packet else video_pts st;
     audio_pts := if on_video then audio_pts st else pts packet;
     video_packet_count := video_packet_count st;
     audio_packet_count := audio_packet_count st;
     output := output st ++ [WriteFrame packet written];
     script := script |}.

Definition set_video (q : option packet_queue) (done : bool) (count : Z) (st : State)
  : State :=
  {| video_packet_queue := q; audio_packet_queue := audio_packet_queue st;
     video_stream_index := video_stream_index st;
     audio_stream_index := audio_stream_index st;
     video_done := done; audio_done := audio_done st;
     video_pts := video_pts st; audio_pts := audio_pts st;
     video_packet_count := count; audio_packet_count := audio_packet_count st;
     output := output st; script := script st |}.

Definition set_audio (q : option packet_queue) (done : bool) (count : Z) (st : State)
  : State :=
  {| video_packet_queue := video_packet_queue st; audio_packet_queue := q;
     video_stream_index := video_stream_index st;
     audio_stream_index := audio_stream_index st;
     video_done := video_done st; audio_done := done;
     video_pts := video_pts st; audio_pts := audio_pts st;
     video_packet_count := video_packet_count st; audio_packet_count := count;
     output := output st; script := script st |}.

(** One iteration of [while (!video_done || !audio_done)]; [None] when the
    selected [pop] finds its queue empty and not finished. *)
Definition iteration (params : MuxerParams) (st : State) : option State :=
  let is_video := select_video st in
  if is_video && negb (video_done st) then
    match pop_from (video_packet_queue st) with
    | ThreadSafeQueue.Popped packet q' =>
        let st := set_video (Some q') (video_done st) (video_packet_count st + 1) st in
        Some (match packet with
              | Some pkt => write_packet params true pkt st
              | None => st
              end)
    | ThreadSafeQueue.Closed =>
        Some (set_video (video_packet_queue st) true (video_packet_count st) st)
    | ThreadSafeQueue.WouldBlock => None
    end
  else if negb is_video && negb (audio_done st) then
    match pop_from (audio_packet_queue st) with
    | ThreadSafeQueue.Popped packet q' =>
        let st := set_audio (Some q') (audio_done st) (audio_packet_count st + 1) st in
        Some (match packet with
              | Some pkt => write_packet params false pkt st
              | None => st
              end)
    | ThreadSafeQueue.Closed =>
        Some (set_audio (audio_packet_queue st) true (audio_packet_count st) st)
    | ThreadSafeQueue.WouldBlock => None
    end
  else Some st.

Definition with_output (out : list event) (st : State) : State :=
  {| video_packet_queue := video_packet_queue st;
     audio_packet_queue := audio_packet_queue st;
     video_stream_index := video_stream_index st;
     audio_stream_index := audio_stream_index st;
     video_done := video_done st; audio_done := audio_done st;
     video_pts := video_pts st; audio_pts := audio_pts st;
     video_packet_count := video_packet_count st;
     audio_packet_count := audio_packet_count st;
     output := out; script := script st |}.

(** [n] iterations of the main loop, stopping early where the loop does. *)
Fixpoint iterations (params : MuxerParams) (n : nat) (st : State) : option State :=
  match n with
  | O => Some st
  | S n' =>
      if video_done st && audio_done st then Some st
      else match iteration params st with
           | Some st' => iterations params n' st'
           | None => None
           end
  end.

(** The main loop followed by [av_write_trailer]; [fuel] bounds the number
    of iterations. *)
Inductive loop_result :=
| Finished (st : State)
| Blocked (st : State)
| OutOfFuel.

Fixpoint main_loop (params : MuxerParams) (fuel : nat) (st : State) : loop_result :=
  if video_done st && audio_done st
  then Finished (with_output (output st ++ [WriteTrailer]) st)
  else
    match fuel with
    | O => OutOfFuel
    | S fuel' =>
        match iteration params st with
        | Some st' => main_loop params fuel' st'
        | None => Blocked st
        end
    end.

(** [mux_thread_func]: the scripted set-up calls are
    [avformat_alloc_output_context2], [avformat_new_stream] per queue,
    [avio_open] and [avformat_write_header]; each failure is a [return]
    that leaves the file without packets and without trailer. *)
Definition mux_thread_func (fuel : nat) (video_queue audio_queue : option packet_queue)
    (params : MuxerParams) (script : Script.t) : loop_result :=
  let calls := (3 + length (option_list video_queue)
                  + length (option_list audio_queue))%nat in
  let '(ready, script) := Decoder.setup calls script in
  if negb ready then Finished (init video_queue audio_queue script)
  else main_loop params fuel (init video_queue audio_queue script).

(** The fuel that [mux_thread_func] needs on the given queues: one
    iteration per unit and one per queue to see it closed. *)
Definition enough_fuel (video_queue audio_queue : option packet_queue) : nat :=
  (from_option ThreadSafeQueue.size 0 video_queue
   + from_option ThreadSafeQueue.size 0 audio_queue + 2)%nat.

(** The interleaving rule in the words of the specification: compare the
    pts of the units at the heads of the two queues on a common time axis
    (video in units of [1/video_fps], audio in units of
    [1/audio_sample_rate]) and take video when it is not later. *)
Definition select_video_by_head_pts (params : MuxerParams) (video_head audio_head : AVPacket)
  : bool :=
  pts video_head * audio_sample_rate params <=? pts audio_head * video_fps params.

(** The pts of the packet written last on stream [index], and 0 before
    the first one: what the loop keeps in [video_pts] and [audio_pts]. *)
Definition last_written_pts (index : Z) (out : list event) : Z :=
  foldl (λ last e,
           match e with
           | WriteFrame pkt _ => if stream_index pkt =? index then pts pkt else last
           | WriteTrailer => last
           end) 0 out.

(** The number of packets written on stream [index]. *)
Definition is_write_on (index : Z) (e : event) : bool :=
  match e with
  | WriteFrame pkt _ => stream_index pkt =? index
  | WriteTrailer => false
  end.

Definition written_on (index : Z) (out : list event) : nat :=
  sum_list_with (λ e, if is_write_on index e then 1%nat else 0%nat) out.

(** The units of a queue that are packets (not null). *)
Definition packets_of (q : option packet_queue) : list AVPacket :=
  omap id (from_option ThreadSafeQueue.queue_ [] q).

(** *** Invariant of the main loop when both queues are given and their
    producers have finished them *)

Definition drained_when_done (q : option packet_queue) (done : bool) : Prop :=
  ∃ q', q = Some q' ∧ ThreadSafeQueue.finished_ q' = true
        ∧ (done = true → ThreadSafeQueue.queue_ q' = []).

Definition loop_invariant (st : State) : Prop :=
  drained_when_done (video_packet_queue st) (video_done st)
  ∧ drained_when_done (audio_packet_queue st) (audio_done st)
  ∧ video_stream_index st = 0 ∧ audio_stream_index st = 1
  ∧ video_pts st = last_written_pts 0 (output st)
  ∧ audio_pts st = last_written_pts 1 (output st)
  ∧ WriteTrailer ∉ output st.

(** Iterations still to run: one per unit, one per queue to see it closed. *)
Definition remaining (st : State) : nat :=
  (length (from_option ThreadSafeQueue.queue_ [] (video_packet_queue st))
   + length (from_option ThreadSafeQueue.queue_ [] (audio_packet_queue st))
   + (if video_done st then 0 else 1) + (if audio_done st then 0 else 1))%nat.

(** Packets of each stream, written or still queued. *)
Definition video_total (st : State) : nat :=
  (written_on 0 (output st) + length (packets_of (video_packet_queue st)))%nat.

Definition audio_total (st : State) : nat :=
  (written_on 1 (output st) + length (packets_of (audio_packet_queue st)))%nat.

(** *** The packets of each stream, in writing order *)

(** The packets handed to the container for stream [index]. *)
Definition packets_written_on (index : Z) (out : list event) : list AVPacket :=
  omap (λ e, match e with
             | WriteFrame pkt _ => if stream_index pkt =? index then Some pkt else None
             | WriteTrailer => None
             end) out.

(** The streams keep the time bases that the thread gave them. *)
Definition keeps_time_bases (params : MuxerParams) : Prop :=
  0 < video_fps params ∧ 0 < audio_sample_rate params
  ∧ video_time_base params = mkQ 1 (video_fps params)
  ∧ audio_time_base params = mkQ 1 (audio_sample_rate params).

(** A packet with its stream index stamped and, if it came without pts,
    with the number [count] as pts and dts. *)
Definition stamped (index count : Z) (packet : AVPacket) : AVPacket :=
  if pts packet =? Mem.AV_NOPTS_VALUE then mkPacket index count count (duration packet)
  else mkPacket index (pts packet) (dts packet) (duration packet).

(** The packets of the units of a queue, each stamped with its position
    among the units (null units included), the first unit having position
    [count + 1]. *)
Fixpoint stamped_units (index count : Z) (units : list (option AVPacket))
  : list AVPacket :=
  match units with
  | [] => []
  | None :: rest => stamped_units index (count + 1) rest
  | Some packet :: rest =>
      stamped index (count + 1) packet :: stamped_units index (count + 1) rest
  end.

(** What was written on a stream, followed by what its queue still holds,
    is what the queue held at the start. *)
Definition order_invariant (video_units audio_units : list (option AVPacket)) (st : State)
  : Prop :=
  packets_written_on 0 (output st)
    ++ stamped_units 0 (video_packet_count st)
         (from_option ThreadSafeQueue.queue_ [] (video_packet_queue st))
  = stamped_units 0 0 video_units
  ∧ packets_written_on 1 (output st)
      ++ stamped_units 1 (audio_packet_count st)
           (from_option ThreadSafeQueue.queue_ [] (audio_packet_queue st))
    = stamped_units 1 0 audio_units.

End Muxer.

(** ** The single-stream muxers (src/muxer.cpp) *)

Module SingleStreamMuxer.
Import Stage Muxer.
Local Open Scope Z_scope.

(** [struct VideoMuxerParams] and [struct AudioMuxerParams]: the fields
    that the packet loops read, and the time base the one stream has once
    [avformat_write_header] has returned (the threads set it to
    [{1, video_fps}] resp. [{1, audio_sample_rate}]; the container format
    may replace it). *)
Record VideoMuxerParams := mkVideoParams {
  video_fps : Z;
  video_time_base : AVRational
}.

Record AudioMuxerParams := mkAudioParams {
  audio_sample_rate : Z;
  audio_time_base : AVRational
}.

Record Result := mkResult {
  exit_ : thread_exit;
  packet_count : Z;
  output : list event;
  script_ : Script.t
}.

(** The loop [while (queue->pop(packet)) { if (!packet) break; ... }]
    shared by both threads, followed by [av_write_trailer].  The one stream
    of the file has index 0; [src] is the time base of the queued packets
    and [dst] that of the stream; the scripted call is
    [av_interleaved_write_frame], whose failure is logged and not counted. *)
Fixpoint packet_loop (src dst : AVRational) (pending : list (option AVPacket))
    (input_finished : bool) (count : Z) (out : list event) (script : Script.t) : Result :=
  match pending with
  | [] =>
      if input_finished then mkResult Returned count (out ++ [WriteTrailer]) script
      else mkResult BlockedInPop count out script
  | None :: _ => mkResult Returned count (out ++ [WriteTrailer]) script
  | Some packet :: rest =>
      let packet := mkPacket 0 (pts packet) (dts packet) (duration packet) in
      let packet := av_packet_rescale_ts packet src dst in
      let '(written, script) := Script.next script in
      packet_loop src dst rest input_finished (if written then count + 1 else count)
                  (out ++ [WriteFrame packet written]) script
  end.

(** [video_mux_thread_func]: the scripted set-up calls are
    [avformat_alloc_output_context2], [avformat_new_stream], [avio_open]
    and [avformat_write_header]; each failure is a [return]. *)
Definition video_mux_thread_func (video_packet_queue : packet_queue)
    (params : VideoMuxerParams) (script : Script.t) : Result :=
  let '(ready, script) := Decoder.setup 4 script in
  if negb ready then mkResult Returned 0 [] script
  else packet_loop (mkQ 1 (video_fps params)) (video_time_base params)
         (ThreadSafeQueue.queue_ video_packet_queue)
         (ThreadSafeQueue.finished_ video_packet_queue) 0 [] script.

(** [audio_mux_thread_func] *)
Definition audio_mux_thread_func (audio_packet_queue : packet_queue)
    (params : AudioMuxerParams) (script : Script.t) : Result :=
  let '(ready, script) := Decoder.setup 4 script in
  if negb ready then mkResult Returned 0 [] script
  else packet_loop (mkQ 1 (audio_sample_rate params)) (audio_time_base params)
         (ThreadSafeQueue.queue_ audio_packet_queue)
         (ThreadSafeQueue.finished_ audio_packet_queue) 0 [] script.

#[global] Instance AVPacket_eq_dec : EqDecision AVPacket.
Proof. solve_decision. Defined.

(** The packets of a queue up to its first null unit. *)
Fixpoint leading_packets (units : list (option AVPacket)) : list AVPacket :=
  match units with
  | Some packet :: rest => packet :: leading_packets rest
  | _ => []
  end.

(** A packet as the loop hands it to the container. *)
Definition outgoing (src dst : AVRational) (packet : AVPacket) : AVPacket :=
  av_packet_rescale_ts (mkPacket 0 (pts packet) (dts packet) (duration packet)) src dst.

(** The outcomes of the next [n] scripted calls. *)
Fixpoint outcomes (n : nat) (script : Script.t) : list bool :=
  match n with
  | O => []
  | S n' => (Script.next script).1 :: outcomes n' (Script.next script).2
  end.

End SingleStreamMuxer.

(** ** The audio processor (audio_processor.cpp, include/audio_processor.h) *)

Module AudioProcessor.
Import Stage.
Local Open Scope Z_scope.

Definition AV_SAMPLE_FMT_FLTP : Z := 8.

(** [class AudioRingBuffer] *)
Record AudioRingBuffer := mkRing {
  frame_size_ : Z;
  channels_ : Z;
  sample_rate_ : Z;
  buffer_ : list float;
  write_pos_ : Z;
  read_pos_ : Z;
  available_ : Z
}.

(** [AudioRingBuffer::AudioRingBuffer] *)
Definition new_ring (frame_size channels sample_rate : Z) : AudioRingBuffer :=
  {| frame_size_ := frame_size; channels_ := channels; sample_rate_ := sample_rate;
     buffer_ := replicate (Z.to_nat (frame_size * channels * 4)) 0%float;
     write_pos_ := 0; read_pos_ := 0; available_ := 0 |}.

(** Element [i] of a sample array. *)
Definition sample (samples : list float) (i : Z) : float :=
  default 0%float (samples !! Z.to_nat i).

(** [AudioRingBuffer::write_samples] *)
Definition write_samples (samples : list float) (num_samples : Z) (rb : AudioRingBuffer)
  : bool * AudioRingBuffer :=
  let total_samples := num_samples * channels_ rb in
  let buffer_size := Z.of_nat (length (buffer_ rb)) in
  if buffer_size <? available_ rb + total_samples then (false, rb) else
  let '(buffer, write_pos) :=
    foldl (λ '(buffer, write_pos) i,
             (<[Z.to_nat write_pos := sample samples i]> buffer,
              Z.rem (write_pos + 1) buffer_size))
          (buffer_ rb, write_pos_ rb) (seqZ 0 total_samples) in
  (true,
   {| frame_size_ := frame_size_ rb; channels_ := channels_ rb;
      sample_rate_ := sample_rate_ rb; buffer_ := buffer;
      write_pos_ := write_pos; read_pos_ := read_pos_ rb;
      available_ := available_ rb + total_samples |}).

(** [AudioRingBuffer::read_frame]: [Some samples] when it returns [true]
    (with [actual_samples = frame_size_]), [None] when it returns [false]
    (with [actual_samples = 0]). *)
Definition read_frame (rb : AudioRingBuffer) : option (list float) * AudioRingBuffer :=
  let frame_total_samples := frame_size_ rb * channels_ rb in
  if available_ rb <? frame_total_samples then (None, rb) else
  let buffer_size := Z.of_nat (length (buffer_ rb)) in
  let '(output_samples, read_pos) :=
    foldl (λ '(output_samples, read_pos) (_ : Z),
             (output_samples ++ [sample (buffer_ rb) read_pos],
              Z.rem (read_pos + 1) buffer_size))
          ([], read_pos_ rb) (seqZ 0 frame_total_samples) in
  (Some output_samples,
   {| frame_size_ := frame_size_ rb; channels_ := channels_ rb;
      sample_rate_ := sample_rate_ rb; buffer_ := buffer_ rb;
      write_pos_ := write_pos_ rb; read_pos_ := read_pos;
      available_ := available_ rb - frame_total_samples |}).

(** [AudioRingBuffer::available_samples] *)
Definition available_samples (rb : AudioRingBuffer) : Z :=
  Z.quot (available_ rb) (channels_ rb).

(** [AudioRingBuffer::clear] *)
Definition clear (rb : AudioRingBuffer) : AudioRingBuffer :=
  {| frame_size_ := frame_size_ rb; channels_ := channels_ rb;
     sample_rate_ := sample_rate_ rb;
     buffer_ := replicate (length (buffer_ rb)) 0%float;
     write_pos_ := 0; read_pos_ := 0; available_ := 0 |}.

(** [AudioRingBuffer::has_complete_frame] *)
Definition has_complete_frame (rb : AudioRingBuffer) : bool :=
  frame_size_ rb * channels_ rb <=? available_ rb.

(** The samples that a ring buffer holds for its reader, oldest first:
    [available] samples starting at [read_pos], wrapping at the end of the
    array. *)
Definition contents_of (buffer : list float) (read_pos available : Z) : list float :=
  (λ i, sample buffer ((read_pos + i) mod Z.of_nat (length buffer))) <$> seqZ 0 available.

Definition contents (rb : AudioRingBuffer) : list float :=
  contents_of (buffer_ rb) (read_pos_ rb) (available_ rb).

(** The representation invariant of the ring buffer: both positions are
    inside the array, the fill level is within the capacity, and the
    write position is the read position advanced by the fill level. *)
Definition ring_invariant (rb : AudioRingBuffer) : Prop :=
  let buffer_size := Z.of_nat (length (buffer_ rb)) in
  0 ≤ read_pos_ rb < buffer_size
  ∧ 0 ≤ available_ rb ≤ buffer_size
  ∧ write_pos_ rb = (read_pos_ rb + available_ rb) mod buffer_size.

(** [AVFrame] for audio: planar float data, one list per channel. *)
Record AVFrame := mkFrame {
  nb_samples : Z;
  format : Z;
  channels : Z;
  sample_rate : Z;
  pts : Z;
  data : list (list float)
}.

(** [struct AudioProcessParams]: the members the processor branches on. *)
Record AudioProcessParams := mkParams {
  enable_speed_change : bool;
  speed_factor : float;
  volume_gain : float
}.

Section TempoProcessor.

(** The SoundTouch library: its internal state and the samples that
    [putSamples] and [flush] make available at its output.  The output
    side is the library's FIFO: [receiveSamples(buf, max)] hands out
    [min(max, numSamples())] whole multi-channel samples. *)
Context {Tempo : Type}.
Variable tempo_init : Z → Z → float → Tempo.
Variable tempo_put : Tempo → list float → Tempo * list float.
Variable tempo_flush : Tempo → Tempo * list float.

(** The FFmpeg filter graph used when speed change is disabled: the frames
    [av_buffersink_get_frame] yields after a frame, and after end of stream. *)
Variable filter_frames : AVFrame → list AVFrame.
Variable filter_flush_frames : list AVFrame.

Record SoundTouch := mkTouch {
  tempo : Tempo;
  fifo : list float;
  touch_channels : Z
}.

Definition putSamples (samples : list float) (num_samples : Z) (st : SoundTouch)
  : SoundTouch :=
  let '(state, produced) :=
    tempo_put (tempo st) (take (Z.to_nat (num_samples * touch_channels st)) samples) in
  mkTouch state (fifo st ++ produced) (touch_channels st).

Definition flushTouch (st : SoundTouch) : SoundTouch :=
  let '(state, produced) := tempo_flush (tempo st) in
  mkTouch state (fifo st ++ produced) (touch_channels st).

Definition receiveSamples (max_samples : Z) (st : SoundTouch)
  : list float * Z * SoundTouch :=
  let num := Z.min max_samples (Z.quot (Z.of_nat (length (fifo st))) (touch_channels st)) in
  let taken := Z.to_nat (num * touch_channels st) in
  (take taken (fifo st), num, mkTouch (tempo st) (drop taken (fifo st)) (touch_channels st)).

(** The data members of [class AudioProcessor], with the output queue and
    the script of allocation outcomes that its methods thread through. *)
Record t := mk {
  params_ : AudioProcessParams;
  input_sample_rate_ : Z;
  input_channels_ : Z;
  input_format_ : Z;
  filter_graph_ready : bool;
  speed_processing_enabled_ : bool;
  last_input_pts_ : Z;
  first_input_pts_ : Z;
  processed_samples_count_ : Z;
  sound_touch_ : option SoundTouch;
  ring_buffer_ : option AudioRingBuffer;
  temp_buffer_size : Z;
  output_queue : ThreadSafeQueue.t (option AVFrame);
  script : Script.t
}.

Definition update (count : Z) (touch : option SoundTouch) (ring : option AudioRingBuffer)
    (queue : ThreadSafeQueue.t (option AVFrame)) (script : Script.t) (p : t) : t :=
  {| params_ := params_ p; input_sample_rate_ := input_sample_rate_ p;
     input_channels_ := input_channels_ p; input_format_ := input_format_ p;
     filter_graph_ready := filter_graph_ready p;
     speed_processing_enabled_ := speed_processing_enabled_ p;
     last_input_pts_ := last_input_pts_ p; first_input_pts_ := first_input_pts_ p;
     processed_samples_count_ := count;
     sound_touch_ := touch; ring_buffer_ := ring;
     temp_buffer_size := temp_buffer_size p;
     output_queue := queue; script := script |}.

(** [AudioProcessor::AudioProcessor] *)
Definition new (queue : ThreadSafeQueue.t (option AVFrame)) (script : Script.t) : t :=
  {| params_ := mkParams false 1 1;
     input_sample_rate_ := 0; input_channels_ := 0; input_format_ := -1;
     filter_graph_ready := false; speed_processing_enabled_ := false;
     last_input_pts_ := Mem.AV_NOPTS_VALUE; first_input_pts_ := Mem.AV_NOPTS_VALUE;
     processed_samples_count_ := 0;
     sound_touch_ := None; ring_buffer_ := None; temp_buffer_size := 0;
     output_queue := queue; script := script |}.

(** [AudioProcessor::initialize], with [initialize_speed_processing] and
    [setup_filter_graph].  The scripted calls are the [av_frame_alloc] of
    the filter frame, the construction of the SoundTouch object and the
    set-up of the filter graph. *)
Definition initialize (params : AudioProcessParams)
    (input_sample_rate input_channels input_format : Z) (p : t) : bool * t :=
  let configured speed touch ring temp graph script :=
    {| params_ := params; input_sample_rate_ := input_sample_rate;
       input_channels_ := input_channels; input_format_ := input_format;
       filter_graph_ready := graph; speed_processing_enabled_ := speed;
       last_input_pts_ := last_input_pts_ p; first_input_pts_ := first_input_pts_ p;
       processed_samples_count_ := processed_samples_count_ p;
       sound_touch_ := touch; ring_buffer_ := ring; temp_buffer_size := temp;
       output_queue := output_queue p; script := script |} in
  let '(frame_ok, script) := Script.next (script p) in
  if negb frame_ok
  then (false, configured false None None 0 false script) else
  if enable_speed_change params then
    let '(touch_ok, script) := Script.next script in
    if negb touch_ok
    then (false, configured false None None 0 false script) else
    let touch :=
      mkTouch (tempo_init input_sample_rate input_channels (speed_factor params))
              [] input_channels in
    let ring := new_ring 1536 input_channels input_sample_rate in
    let '(graph_ok, script) := Script.next script in
    (graph_ok,
     configured true (Some touch) (Some ring) (8192 * input_channels) graph_ok script)
  else
    let '(graph_ok, script) := Script.next script in
    (graph_ok, configured false None None 0 graph_ok script).

(** The copy loop of [create_output_frame] from interleaved samples into
    the freshly allocated planes. *)
Definition planar (input_channels num_samples : Z) (samples : list float)
  : list (list float) :=
  if input_channels =? 1 then [take (Z.to_nat num_samples) samples]
  else if input_channels =? 2 then
    [ (λ i, sample samples (i * 2)) <$> seqZ 0 num_samples;
      (λ i, sample samples (i * 2 + 1)) <$> seqZ 0 num_samples ]
  else replicate (Z.to_nat input_channels) (replicate (Z.to_nat num_samples) 0%float).

(** [AudioProcessor::create_output_frame]: [None] is [nullptr]; the
    scripted calls are [av_frame_alloc] and [av_frame_get_buffer]. *)
Definition create_output_frame (samples : list float) (num_samples pts : Z) (p : t)
  : option AVFrame * Script.t :=
  let '(allocated, script) := Script.next (script p) in
  if negb allocated then (None, script) else
  let '(buffered, script) := Script.next script in
  if negb buffered then (None, script) else
  (Some {| nb_samples := num_samples; format := AV_SAMPLE_FMT_FLTP;
           channels := input_channels_ p; sample_rate := input_sample_rate_ p;
           pts := pts;
           data := planar (input_channels_ p) num_samples samples |},
   script).

(** Emitting one frame of [num_samples] samples: the frame takes the
    running sample count as its pts and, if it could be created, is pushed
    and counted. *)
Definition emit_frame (samples : list float) (num_samples : Z) (p : t) : t :=
  let output_pts := processed_samples_count_ p in
  let '(output_frame, script) := create_output_frame samples num_samples output_pts p in
  match output_frame with
  | Some frame =>
      update (processed_samples_count_ p + num_samples) (sound_touch_ p) (ring_buffer_ p)
             (ThreadSafeQueue.push (Some frame) (output_queue p)) script p
  | None =>
      update (processed_samples_count_ p) (sound_touch_ p) (ring_buffer_ p)
             (output_queue p) script p
  end.

(** The loop [while (ring_buffer_->read_frame(frame_buffer, actual_samples))]. *)
Fixpoint drain_frames (fuel : nat) (p : t) : option t :=
  match fuel with
  | O => None
  | S fuel' =>
      match ring_buffer_ p with
      | None => Some p
      | Some ring =>
          let '(frame_buffer, ring) := read_frame ring in
          match frame_buffer with
          | None => Some p
          | Some samples =>
              let p := update (processed_samples_count_ p) (sound_touch_ p) (Some ring)
                              (output_queue p) (script p) p in
              drain_frames fuel' (emit_frame samples (frame_size_ ring) p)
          end
      end
  end.

Definition drain_fuel (p : t) : nat :=
  S (Z.to_nat (from_option available_ 0 (ring_buffer_ p))).

(** The loop [while ((received = receiveSamples(...)) > 0)] shared by
    [process_samples_through_soundtouch_with_frame_pts] and [flush];
    [skip_on_overflow] is [true] where a failed [write_samples] is followed
    by [continue]. *)
Fixpoint receive_loop (fuel : nat) (skip_on_overflow : bool) (p : t) : option t :=
  match fuel with
  | O => None
  | S fuel' =>
      match sound_touch_ p, ring_buffer_ p with
      | Some touch, Some ring =>
          let max_samples := Z.quot (temp_buffer_size p) (input_channels_ p) in
          let '(temp, received_samples, touch) := receiveSamples max_samples touch in
          if negb (0 <? received_samples) then
            Some (update (processed_samples_count_ p) (Some touch) (Some ring)
                         (output_queue p) (script p) p)
          else
            let '(written, ring) := write_samples temp received_samples ring in
            let p := update (processed_samples_count_ p) (Some touch) (Some ring)
                            (output_queue p) (script p) p in
            if negb written && skip_on_overflow then receive_loop fuel' skip_on_overflow p
            else
              match drain_frames (drain_fuel p) p with
              | Some p => receive_loop fuel' skip_on_overflow p
              | None => None
              end
      | _, _ => Some p
      end
  end.

Definition receive_fuel (p : t) : nat :=
  S (length (from_option fifo [] (sound_touch_ p))).

(** [AudioProcessor::process_samples_through_soundtouch_with_frame_pts];
    [None] only if a loop exceeds its bound. *)
Definition process_samples_through_soundtouch_with_frame_pts
    (input_samples : list float) (num_samples input_pts : Z) (p : t) : option (bool * t) :=
  let p := update (processed_samples_count_ p)
                  (putSamples input_samples num_samples <$> sound_touch_ p)
                  (ring_buffer_ p) (output_queue p) (script p) p in
  p ← receive_loop (receive_fuel p) true p;
  Some (true, p).

(** The format conversion at the head of [process_frame_with_speed]. *)
Definition interleaved (input_channels : Z) (frame : AVFrame) : list float :=
  let plane i := default [] (data frame !! i) in
  if input_channels =? 1 then take (Z.to_nat (nb_samples frame)) (plane 0%nat)
  else if input_channels =? 2 then
    mjoin ((λ i, [sample (plane 0%nat) i; sample (plane 1%nat) i])
             <$> seqZ 0 (nb_samples frame))
  else replicate (Z.to_nat (nb_samples frame * input_channels)) 0%float.

Definition note_input_pts (input_pts : Z) (p : t) : t :=
  if input_pts =? Mem.AV_NOPTS_VALUE then p else
  {| params_ := params_ p; input_sample_rate_ := input_sample_rate_ p;
     input_channels_ := input_channels_ p; input_format_ := input_format_ p;
     filter_graph_ready := filter_graph_ready p;
     speed_processing_enabled_ := speed_processing_enabled_ p;
     last_input_pts_ := input_pts;
     first_input_pts_ :=
       if first_input_pts_ p =? Mem.AV_NOPTS_VALUE then input_pts
       else first_input_pts_ p;
     processed_samples_count_ := processed_samples_count_ p;
     sound_touch_ := sound_touch_ p; ring_buffer_ := ring_buffer_ p;
     temp_buffer_size := temp_buffer_size p;
     output_queue := output_queue p; script := script p |}.

(** [AudioProcessor::process_frame_with_speed] *)
Definition process_frame_with_speed (input_frame : AVFrame) (p : t) : option (bool * t) :=
  let p := note_input_pts (pts input_frame) p in
  if input_format_ p =? AV_SAMPLE_FMT_FLTP then
    process_samples_through_soundtouch_with_frame_pts
      (interleaved (input_channels_ p) input_frame) (nb_samples input_frame)
      (pts input_frame) p
  else Some (false, p).

Definition push_frames (frames : list AVFrame) (p : t) : t :=
  update (processed_samples_count_ p) (sound_touch_ p) (ring_buffer_ p)
         (foldl (λ q f, ThreadSafeQueue.push (Some f) q) (output_queue p) frames)
         (script p) p.

(** [AudioProcessor::process_frame] *)
Definition process_frame (input_frame : AVFrame) (p : t) : option (bool * t) :=
  if negb (filter_graph_ready p) then Some (false, p)
  else if speed_processing_enabled_ p then process_frame_with_speed input_frame p
  else Some (true, push_frames (filter_frames input_frame) p).

(** The tail of [flush]: what is left in the ring buffer, padded with
    silence to 1536 samples per channel. *)
Definition padded_tail (remaining_samples : Z) (input_channels : Z) (ring : AudioRingBuffer)
  : list float :=
  let buffer_size := Z.of_nat (length (buffer_ ring)) in
  let count := remaining_samples * input_channels in
  ((λ i, sample (buffer_ ring) (Z.rem (read_pos_ ring + i) buffer_size)) <$> seqZ 0 count)
  ++ replicate (Z.to_nat (1536 * input_channels - count)) 0%float.

(** [AudioProcessor::flush] *)
Definition flush (p : t) : option (bool * t) :=
  if negb (filter_graph_ready p) then Some (false, p) else
  match (if speed_processing_enabled_ p then sound_touch_ p else None) with
  | Some touch =>
      let p := update (processed_samples_count_ p) (Some (flushTouch touch))
                      (ring_buffer_ p) (output_queue p) (script p) p in
      p ← receive_loop (receive_fuel p) false p;
      match ring_buffer_ p with
      | Some ring =>
          let remaining_samples := available_samples ring in
          if (0 <? remaining_samples) && (remaining_samples <? 1536) then
            let padded_buffer := padded_tail remaining_samples (input_channels_ p) ring in
            let p := update (processed_samples_count_ p) (sound_touch_ p)
                            (Some (clear ring)) (output_queue p) (script p) p in
            Some (true, emit_frame padded_buffer 1536 p)
          else Some (true, p)
      | None => Some (true, p)
      end
  | None => Some (true, push_frames filter_flush_frames p)
  end.

(** The [while (input_frame_queue->pop(frame))] loop of
    [audio_process_thread_func], then [flush] and [finish]. *)
Fixpoint process_loop (pending : list (option AVFrame)) (input_finished : bool) (p : t)
  : option (thread_exit * t) :=
  let finish p :=
    '(_, p) ← flush p;
    Some (Returned,
          update (processed_samples_count_ p) (sound_touch_ p) (ring_buffer_ p)
                 (ThreadSafeQueue.finish (output_queue p)) (script p) p) in
  match pending with
  | [] => if input_finished then finish p else Some (BlockedInPop, p)
  | None :: _ => finish p
  | Some frame :: rest =>
      '(_, p) ← process_frame frame p;
      process_loop rest input_finished p
  end.

(** [audio_process_thread_func] *)
Definition audio_process_thread_func (input_frame_queue output_frame_queue
      : ThreadSafeQueue.t (option AVFrame))
    (params : AudioProcessParams) (sample_rate channels format : Z) (script : Script.t)
  : option (thread_exit * t) :=
  let '(initialized, p) :=
    initialize params sample_rate channels format (new output_frame_queue script) in
  if negb initialized then Some (Returned, p)
  else process_loop (ThreadSafeQueue.queue_ input_frame_queue)
         (ThreadSafeQueue.finished_ input_frame_queue) p.

(** *** Invariant of the repacketizer *)

(** The number of samples per channel carried by a sequence of units. *)
Definition emitted_samples (units : list (option AVFrame)) : Z :=
  foldr (λ unit total, from_option nb_samples 0 unit + total) 0 units.

(** Every unit is a frame of 1536 samples whose pts is the number of
    samples in the units before it. *)
Definition regular (units : list (option AVFrame)) : Prop :=
  ∀ (i : nat) unit, units !! i = Some unit →
    ∃ frame, unit = Some frame ∧ nb_samples frame = 1536
             ∧ pts frame = emitted_samples (take i units).

Definition repacketizer_invariant (input_channels : Z) (p : t) : Prop :=
  input_channels_ p = input_channels
  ∧ temp_buffer_size p = 8192 * input_channels
  ∧ speed_processing_enabled_ p = true
  ∧ (∃ touch, sound_touch_ p = Some touch ∧ touch_channels touch = input_channels)
  ∧ (∃ ring, ring_buffer_ p = Some ring
             ∧ frame_size_ ring = 1536 ∧ channels_ ring = input_channels)
  ∧ ThreadSafeQueue.finished_ (output_queue p) = false
  ∧ regular (ThreadSafeQueue.queue_ (output_queue p))
  ∧ processed_samples_count_ p = emitted_samples (ThreadSafeQueue.queue_ (output_queue p)).

(** *** The samples on their way through the repacketizer *)

(** The interleaved samples that a sequence of frames carries. *)
Definition carried (input_channels : Z) (frames : list AVFrame) : list float :=
  mjoin (interleaved input_channels <$> frames).

(** What [process_frame_with_speed] hands to [putSamples] for a frame. *)
Definition tempo_input (input_channels : Z) (frame : AVFrame) : list float :=
  take (Z.to_nat (nb_samples frame * input_channels)) (interleaved input_channels frame).

(** The chunks of samples that the tempo processor produces for a sequence
    of inputs, one chunk per [putSamples] and a last one for [flush]. *)
Fixpoint tempo_chunks (state : Tempo) (inputs : list (list float)) : list (list float) :=
  match inputs with
  | [] => [(tempo_flush state).2]
  | input :: rest =>
      let '(state, produced) := tempo_put state input in
      produced :: tempo_chunks state rest
  end.

(** A chunk of whole multi-channel samples that fits the ring buffer
    beside an incomplete frame: at most [3 * 1536] samples per channel. *)
Definition fitting_chunk (input_channels : Z) (chunk : list float) : Prop :=
  Z.of_nat (length chunk) ≤ 4608 * input_channels
  ∧ Z.of_nat (length chunk) mod input_channels = 0.

(** A chunk of whole multi-channel samples that one [receiveSamples] call
    takes out of the tempo processor: at most 8192 samples per channel. *)
Definition whole_chunk (input_channels : Z) (chunk : list float) : Prop :=
  Z.of_nat (length chunk) ≤ 8192 * input_channels
  ∧ Z.of_nat (length chunk) mod input_channels = 0.

(** The test of [write_samples] for a chunk arriving at fill level
    [level], in a ring buffer of [1536 * channels * 4] samples. *)
Definition fits_ring (input_channels level : Z) (chunk : list float) : bool :=
  level + Z.of_nat (length chunk) <=? 1536 * input_channels * 4.

(** The samples that get into the ring buffer from a sequence of chunks
    arriving one after the other, the first one at fill level [level]:
    a chunk that fits is stored and leaves the level of an incomplete
    frame behind; a chunk that does not fit is passed by. *)
Fixpoint surviving (input_channels level : Z) (chunks : list (list float)) : list float :=
  match chunks with
  | [] => []
  | chunk :: rest =>
      if fits_ring input_channels level chunk
      then chunk
           ++ surviving input_channels
                ((level + Z.of_nat (length chunk)) mod (1536 * input_channels)) rest
      else surviving input_channels level rest
  end.

(** The ring buffer as [initialize] sets it up, at any fill level of whole
    multi-channel samples. *)
Definition ring_ok (input_channels : Z) (ring : AudioRingBuffer) : Prop :=
  frame_size_ ring = 1536 ∧ channels_ ring = input_channels
  ∧ Z.of_nat (length (buffer_ ring)) = 1536 * input_channels * 4
  ∧ ring_invariant ring
  ∧ available_ ring mod input_channels = 0.

(** The processor in speed mode with an allocator that never fails:
    [frames] are the frames pushed behind the units [units] that the
    output queue held at the start. *)
Definition calm (input_channels : Z) (units : list (option AVFrame))
    (touch : SoundTouch) (ring : AudioRingBuffer) (frames : list AVFrame) (p : t) : Prop :=
  input_channels_ p = input_channels
  ∧ temp_buffer_size p = 8192 * input_channels
  ∧ filter_graph_ready p = true
  ∧ speed_processing_enabled_ p = true
  ∧ input_format_ p = AV_SAMPLE_FMT_FLTP
  ∧ script p = []
  ∧ sound_touch_ p = Some touch
  ∧ ring_buffer_ p = Some ring
  ∧ output_queue p = ThreadSafeQueue.mk (units ++ (Some <$> frames)) false.

(** A frame of 1536 samples per channel. *)
Definition full_frame (input_channels : Z) (frame : AVFrame) : Prop :=
  nb_samples frame = 1536
  ∧ Z.of_nat (length (interleaved input_channels frame)) = 1536 * input_channels.

End TempoProcessor.

Arguments SoundTouch : clear implicits.
Arguments t : clear implicits.

End AudioProcessor.

(** ** The encoder threads (video_encoder.cpp, audio_encoder.cpp) *)

Module Encoder.
Import Stage.
Local Open Scope Z_scope.

(** The fields of an [AVFrame] that the encoder threads read or write, and
    an encoded packet, which carries the pts of the frame it encodes. *)
Record AVFrame := mkFrame {
  width : Z;
  height : Z;
  format : Z;
  nb_samples : Z;
  pts : Z;
  pkt_dts : Z
}.
Record AVPacket := mkPacket { pkt_pts : Z }.

(** The results of [avcodec_receive_packet]: a packet (return value 0),
    [AVERROR(EAGAIN)], [AVERROR_EOF], or another negative value. *)
Inductive receive_result :=
| Packet (p : AVPacket)
| EAGAIN
| AVERROR_EOF
| AVERROR_OTHER.

(** The codec library behind [AVCodecContext]: [codec_context->frame_size]
    once the encoder is open, [avcodec_send_frame] with a frame or with
    [nullptr] (the flush request), returning its [int], and
    [avcodec_receive_packet]. *)
Class Codec (C : Type) := {
  frame_size : C → Z;
  avcodec_send_frame : option AVFrame → C → Z * C;
  avcodec_receive_packet : C → receive_result * C
}.

(** What the receive loops work on: the codec, the output queue, the
    script of the allocator and the number of packets pushed. *)
Record Sink (C : Type) := mkSink {
  codec_context : C;
  output_queue : ThreadSafeQueue.t (option AVPacket);
  script_ : Script.t;
  pushed : Z
}.
Arguments mkSink {C}.
Arguments codec_context {C}.
Arguments output_queue {C}.
Arguments script_ {C}.
Arguments pushed {C}.

Record VideoEncoderParams := mkVideoParams {
  params_width : Z;
  params_height : Z;
  params_pixel_format : Z
}.

Record EncodeResult (C : Type) := mkResult {
  exit_ : thread_exit;
  sink : Sink C;
  frame_count : Z;
  encoded_frames : Z
}.
Arguments mkResult {C}.
Arguments exit_ {C}.
Arguments sink {C}.
Arguments frame_count {C}.
Arguments encoded_frames {C}.

Inductive TargetAudioFormat := AC3 | AAC | MP3 | COPY.

Section Threads.
Context {C : Type} `{Codec C}.

Definition with_context (ctx : C) (s : Sink C) : Sink C :=
  mkSink ctx (output_queue s) (script_ s) (pushed s).

(** The [while (ret >= 0)] loop that every encoder runs after
    [avcodec_send_frame]: it ends at the first result that is not a packet
    and returns that result.  The scripted calls are [av_packet_alloc] and,
    when that succeeds, [av_packet_ref]; [None] when [fuel] receive calls
    did not reach the end of the loop. *)
Fixpoint receive_loop (fuel : nat) (s : Sink C) : option (receive_result * Sink C) :=
  match fuel with
  | O => None
  | S fuel' =>
      let '(received, ctx) := avcodec_receive_packet (codec_context s) in
      match received with
      | Packet packet =>
          let '(allocated, script) := Script.next (script_ s) in
          let '(referenced, script) :=
            if allocated then Script.next script else (false, script) in
          if referenced then
            receive_loop fuel'
              (mkSink ctx (ThreadSafeQueue.push (Some packet) (output_queue s)) script
                      (pushed s + 1))
          else receive_loop fuel' (mkSink ctx (output_queue s) script (pushed s))
      | EAGAIN | AVERROR_EOF | AVERROR_OTHER => Some (received, with_context ctx s)
      end
  end.

(** The flush that ends every encoder: [avcodec_send_frame(ctx, nullptr)],
    whose result is ignored, and the receive loop. *)
Definition drain (fuel : nat) (s : Sink C) : option (Sink C) :=
  let '(_, ctx) := avcodec_send_frame None (codec_context s) in
  snd <$> receive_loop fuel (with_context ctx s).

(** The time stamps that [video_encode_thread_func] writes into a frame. *)
Definition restamped (frame_count : Z) (frame : AVFrame) : AVFrame :=
  mkFrame (width frame) (height frame) (format frame) (nb_samples frame)
          frame_count Mem.AV_NOPTS_VALUE.

(** The main loop of [video_encode_thread_func]; the boolean tells whether
    the loop has ended ([pop] returned false or a null frame was popped)
    rather than being suspended in [pop]. *)
Fixpoint video_encode_loop (params : VideoEncoderParams) (fuel : nat)
    (pending : list (option AVFrame)) (input_finished : bool)
    (frame_count : Z) (s : Sink C) : option (bool * Z * Sink C) :=
  match pending with
  | [] => Some (input_finished, frame_count, s)
  | None :: _ => Some (true, frame_count, s)
  | Some frame :: rest =>
      let frame := restamped frame_count frame in
      if negb (width frame =? params_width params)
         || negb (height frame =? params_height params)
      then video_encode_loop params fuel rest input_finished frame_count s
      else
        let frame_count := frame_count + 1 in
        let '(ret, ctx) := avcodec_send_frame (Some frame) (codec_context s) in
        let s := with_context ctx s in
        if ret <? 0 then video_encode_loop params fuel rest input_finished frame_count s
        else
          match receive_loop fuel s with
          | Some (_, s) => video_encode_loop params fuel rest input_finished frame_count s
          | None => None
          end
  end.

(** The end of the encoder threads: flush, then [finish()] on the output
    queue. *)
Definition flush_and_finish (fuel : nat) (frame_count : Z) (s : Sink C)
  : option (EncodeResult C) :=
  s ← drain fuel s;
  Some (mkResult Returned
          (mkSink (codec_context s) (ThreadSafeQueue.finish (output_queue s))
                  (script_ s) (pushed s))
          frame_count (pushed s)).

(** [video_encode_thread_func].  The four set-up calls are
    [avcodec_find_encoder], [avcodec_alloc_context3], [avcodec_open2] and
    [av_packet_alloc]; each failure is an immediate [return]. *)
Definition video_encode_thread_func (fuel : nat)
    (video_frame_queue : ThreadSafeQueue.t (option AVFrame))
    (encoded_video_queue : ThreadSafeQueue.t (option AVPacket))
    (params : VideoEncoderParams) (ctx : C) (script : Script.t)
  : option (EncodeResult C) :=
  let '(ready, script) := Decoder.setup 4 script in
  let s := mkSink ctx encoded_video_queue script 0 in
  if negb ready then Some (mkResult Returned s 0 0)
  else
    match video_encode_loop params fuel (ThreadSafeQueue.queue_ video_frame_queue)
            (ThreadSafeQueue.finished_ video_frame_queue) 0 s with
    | None => None
    | Some (false, frame_count, s) => Some (mkResult BlockedInPop s frame_count (pushed s))
    | Some (true, frame_count, s) => flush_and_finish fuel frame_count s
    end.

(** The main loop of [audio_encode_thread_func], which sends every frame
    as it is. *)
Fixpoint audio_encode_loop (fuel : nat) (pending : list (option AVFrame))
    (input_finished : bool) (frame_count : Z) (s : Sink C) : option (bool * Z * Sink C) :=
  match pending with
  | [] => Some (input_finished, frame_count, s)
  | None :: _ => Some (true, frame_count, s)
  | Some frame :: rest =>
      let '(ret, ctx) := avcodec_send_frame (Some frame) (codec_context s) in
      let s := with_context ctx s in
      if ret <? 0 then audio_encode_loop fuel rest input_finished frame_count s
      else
        match receive_loop fuel s with
        | Some (_, s) => audio_encode_loop fuel rest input_finished (frame_count + 1) s
        | None => None
        end
  end.

(** [audio_encode_thread_func], with the same four set-up calls. *)
Definition audio_encode_thread_func (fuel : nat)
    (audio_frame_queue : ThreadSafeQueue.t (option AVFrame))
    (encoded_audio_queue : ThreadSafeQueue.t (option AVPacket))
    (ctx : C) (script : Script.t) : option (EncodeResult C) :=
  let '(ready, script) := Decoder.setup 4 script in
  let s := mkSink ctx encoded_audio_queue script 0 in
  if negb ready then Some (mkResult Returned s 0 0)
  else
    match audio_encode_loop fuel (ThreadSafeQueue.queue_ audio_frame_queue)
            (ThreadSafeQueue.finished_ audio_frame_queue) 0 s with
    | None => None
    | Some (false, frame_count, s) => Some (mkResult BlockedInPop s frame_count (pushed s))
    | Some (true, frame_count, s) => flush_and_finish fuel frame_count s
    end.

(** *** The encoders behind [IAudioEncoder] *)

(** [initialize]: [avcodec_find_encoder], [avcodec_alloc_context3] and
    [avcodec_open2] for the three codecs; nothing for [CopyEncoder]. *)
Definition initialize (encoder : TargetAudioFormat) (script : Script.t) : bool * Script.t :=
  match encoder with
  | COPY => (true, script)
  | AC3 | AAC | MP3 => Decoder.setup 3 script
  end.

(** Only [AC3Encoder::encode_frame] compares the size of the frame with
    [codec_context_->frame_size]. *)
Definition checks_frame_size (encoder : TargetAudioFormat) : bool :=
  match encoder with
  | AC3 => true
  | AAC | MP3 | COPY => false
  end.

(** [encode_frame] of the four encoders; the scripted call is the
    [av_packet_alloc] at its head. *)
Definition encode_frame (encoder : TargetAudioFormat) (fuel : nat)
    (frame : option AVFrame) (s : Sink C) : option (bool * Sink C) :=
  match encoder with
  | COPY => Some (false, s)
  | AC3 | AAC | MP3 =>
      let '(allocated, script) := Script.next (script_ s) in
      let s := mkSink (codec_context s) (output_queue s) script (pushed s) in
      if negb allocated then Some (false, s)
      else if checks_frame_size encoder
              && from_option (λ f, negb (nb_samples f =? frame_size (codec_context s)))
                             false frame
      then Some (false, s)
      else
        let '(ret, ctx) := avcodec_send_frame frame (codec_context s) in
        let s := with_context ctx s in
        if ret <? 0 then Some (false, s)
        else
          match receive_loop fuel s with
          | Some (AVERROR_OTHER, s) => Some (false, s)
          | Some (_, s) => Some (true, s)
          | None => None
          end
  end.

(** [flush] of the four encoders. *)
Definition flush (encoder : TargetAudioFormat) (fuel : nat) (s : Sink C)
  : option (bool * Sink C) :=
  match encoder with
  | COPY => Some (true, s)
  | AC3 | AAC | MP3 =>
      let '(allocated, script) := Script.next (script_ s) in
      let s := mkSink (codec_context s) (output_queue s) script (pushed s) in
      if negb allocated then Some (false, s)
      else pair true <$> drain fuel s
  end.

(** The main loop of [audio_encode_thread_func_factory]. *)
Fixpoint factory_loop (encoder : TargetAudioFormat) (fuel : nat)
    (pending : list (option AVFrame)) (input_finished : bool)
    (frame_count encoded_frames : Z) (s : Sink C) : option (bool * Z * Z * Sink C) :=
  match pending with
  | [] => Some (input_finished, frame_count, encoded_frames, s)
  | None :: _ => Some (true, frame_count, encoded_frames, s)
  | Some frame :: rest =>
      match encode_frame encoder fuel (Some frame) s with
      | None => None
      | Some (encoded, s) =>
          factory_loop encoder fuel rest input_finished (frame_count + 1)
            (if encoded then encoded_frames + 1 else encoded_frames) s
      end
  end.

(** [audio_encode_thread_func_factory].  [create_audio_encoder] yields an
    encoder for each of the four formats. *)
Definition audio_encode_thread_func_factory (fuel : nat)
    (audio_frame_queue : ThreadSafeQueue.t (option AVFrame))
    (encoded_audio_queue : ThreadSafeQueue.t (option AVPacket))
    (target_format : TargetAudioFormat) (ctx : C) (script : Script.t)
  : option (EncodeResult C) :=
  let '(initialized, script) := initialize target_format script in
  let s := mkSink ctx encoded_audio_queue script 0 in
  if negb initialized then Some (mkResult Returned s 0 0)
  else
    match factory_loop target_format fuel (ThreadSafeQueue.queue_ audio_frame_queue)
            (ThreadSafeQueue.finished_ audio_frame_queue) 0 0 s with
    | None => None
    | Some (false, frame_count, encoded_frames, s) =>
        Some (mkResult BlockedInPop s frame_count encoded_frames)
    | Some (true, frame_count, encoded_frames, s) =>
        s ← snd <$> flush target_format fuel s;
        Some (mkResult Returned
                (mkSink (codec_context s) (ThreadSafeQueue.finish (output_queue s))
                        (script_ s) (pushed s))
                frame_count encoded_frames)
    end.

End Threads.

(** An encoder that holds back the packets of its last [delay] frames
    until it is flushed, as encoders with B-frames or look-ahead do. *)
Record DelayCodec := mkDelay {
  frame_size_ : Z;
  delay : nat;
  held : list AVPacket;
  ready : list AVPacket;
  draining : bool
}.

(** The packet that this codec encodes from a frame. *)
Definition encoded (frame : AVFrame) : AVPacket := mkPacket (pts frame).

#[global] Instance delay_codec : Codec DelayCodec := {
  frame_size c := frame_size_ c;
  avcodec_send_frame frame c :=
    if draining c then (Decoder.AVERROR_EOF_code, c) else
    match frame with
    | Some f =>
        let held' := held c ++ [encoded f] in
        let released := (length held' - delay c)%nat in
        (0, mkDelay (frame_size_ c) (delay c) (drop released held')
                    (ready c ++ take released held') false)
    | None => (0, mkDelay (frame_size_ c) (delay c) [] (ready c ++ held c) true)
    end;
  avcodec_receive_packet c :=
    match ready c with
    | p :: rest => (Packet p, mkDelay (frame_size_ c) (delay c) (held c) rest (draining c))
    | [] => (if draining c then AVERROR_EOF else EAGAIN, c)
    end
}.

(** The frames that the encoder threads hand to the codec. *)
Definition fits (params : VideoEncoderParams) (frame : AVFrame) : bool :=
  (width frame =? params_width params) && (height frame =? params_height params).

Definition accepted (encoder : TargetAudioFormat) (size : Z) (frame : AVFrame) : bool :=
  match encoder with
  | AC3 => nb_samples frame =? size
  | AAC | MP3 => true
  | COPY => false
  end.

End Encoder.

(** ** Concrete inputs *)

Module Scenario.
Local Open Scope Z_scope.

(** A file that cannot be opened. *)
Definition missing_file : Demuxer.Input :=
  Demuxer.mkInput false false [] [].

(** A container with two video streams and one audio stream, and one
    packet of each stream. *)
Definition two_video_streams : Demuxer.Input :=
  Demuxer.mkInput true true
    [ Demuxer.mkStream Demuxer.AVMEDIA_TYPE_VIDEO 640 480 0 (24, 1) 0 0;
      Demuxer.mkStream Demuxer.AVMEDIA_TYPE_VIDEO 1280 720 0 (30, 1) 0 0;
      Demuxer.mkStream Demuxer.AVMEDIA_TYPE_AUDIO 0 0 8 (0, 0) 44100 2 ]
    [ Demuxer.mkPacket 0 0; Demuxer.mkPacket 1 0; Demuxer.mkPacket 2 0 ].

Definition demux_all (input : Demuxer.Input) : Demuxer.DemuxerParams :=
  Demuxer.mkParams input 0 true true.

Definition fresh_packet_queue : Demuxer.packet_queue := Some ThreadSafeQueue.new.

(** A container with one video and one audio stream whose packets
    alternate, three of each. *)
Definition movie : Demuxer.Input :=
  Demuxer.mkInput true true
    [ Demuxer.mkStream Demuxer.AVMEDIA_TYPE_VIDEO 640 480 0 (30000, 1001) 0 0;
      Demuxer.mkStream Demuxer.AVMEDIA_TYPE_AUDIO 0 0 8 (0, 0) 48000 2 ]
    [ Demuxer.mkPacket 0 0; Demuxer.mkPacket 1 0;
      Demuxer.mkPacket 0 1; Demuxer.mkPacket 1 1024;
      Demuxer.mkPacket 0 2; Demuxer.mkPacket 1 2048 ].

(** Three packets delivered by a packet queue that was then finished, and
    a decoder that holds one frame back until flushed. *)
Definition three_packets : ThreadSafeQueue.t (option Decoder.AVPacket) :=
  ThreadSafeQueue.mk
    [Some (Decoder.mkPacket 0); Some (Decoder.mkPacket 1); Some (Decoder.mkPacket 2)]
    true.

Definition one_frame_delay : Decoder.DelayCodec := Decoder.mkDelay 1 [] [] false.

(** Encoded packets of a 24 fps video stream (pts in frames) and of a
    44100 Hz audio stream in frames of 1536 samples (pts in samples). *)
Definition mux_params : Muxer.MuxerParams :=
  Muxer.mkParams 24 44100 (Muxer.mkQ 1 24) (Muxer.mkQ 1 44100).

Definition video_packets (n : Z) : Muxer.packet_queue :=
  ThreadSafeQueue.mk ((λ i, Some (Muxer.mkPacket 0 i i 1)) <$> seqZ 0 n) true.

Definition audio_packets (n : Z) : Muxer.packet_queue :=
  ThreadSafeQueue.mk
    ((λ i, Some (Muxer.mkPacket 0 (1536 * i) (1536 * i) 1536)) <$> seqZ 0 n) true.

(** A tempo processor that hands its input through unchanged, and a mono
    input frame of [n] samples. *)
Definition pass_through_put (state : unit) (samples : list float) : unit * list float :=
  (state, samples).

Definition pass_through_flush (state : unit) : unit * list float := (state, []).

(** A tempo processor at a quarter of the speed: four output samples for
    each input sample, handed over at once. *)
Definition fourfold_put (state : unit) (samples : list float) : unit * list float :=
  (state, samples ++ samples ++ samples ++ samples).

Definition mono_frame (n input_pts : Z) : AudioProcessor.AVFrame :=
  AudioProcessor.mkFrame n AudioProcessor.AV_SAMPLE_FMT_FLTP 1 44100 input_pts
    [replicate (Z.to_nat n) 0.5%float].

Definition speed_change : AudioProcessor.AudioProcessParams :=
  AudioProcessor.mkParams true 1 1.

(** An audio processor initialised for 48 kHz stereo. *)
Definition stereo_processor : AudioProcessor.t unit :=
  (AudioProcessor.initialize (λ _ _ _, ()) speed_change 48000 2
     AudioProcessor.AV_SAMPLE_FMT_FLTP (AudioProcessor.new ThreadSafeQueue.new [])).2.

(** What a run of the audio processor thread leaves in its output queue:
    sample count, pts and plane lengths of every unit. *)
Definition frame_summary (unit : option AudioProcessor.AVFrame)
  : option (Z * Z * list nat) :=
  match unit with
  | Some f => Some (AudioProcessor.nb_samples f, AudioProcessor.pts f,
                    length <$> AudioProcessor.data f)
  | None => None
  end.

Definition audio_run_summary (r : option (Stage.thread_exit * AudioProcessor.t unit))
  : option (Stage.thread_exit * list (option (Z * Z * list nat)) * bool) :=
  match r with
  | Some (exit, p) =>
      Some (exit,
            frame_summary <$> ThreadSafeQueue.queue_ (AudioProcessor.output_queue p),
            ThreadSafeQueue.finished_ (AudioProcessor.output_queue p))
  | None => None
  end.

(** A 4x4 YUV420P input frame at address 0 with its three planes in
    buffers 10, 11 and 12, a second input frame at address 1 sharing no
    buffer with it, and a blank output frame at address 2. *)
Definition small_frame (planes : list nat) (input_pts : Z) : Mem.AVFrame :=
  Mem.mkFrame planes [4; 2; 2] 4 4 Mem.AV_PIX_FMT_YUV420P input_pts input_pts 1 input_pts.

Definition video_world : Mem.World :=
  Mem.mkWorld
    (<[0%nat := small_frame [10; 11; 12]%nat 9000]>
       (<[1%nat := small_frame [13; 14; 15]%nat 12000]>
          (<[2%nat := Mem.blank_frame]> ∅)))
    (list_to_map
       ((λ id : nat, (id, Mem.mkBuffer 1 (replicate (if (id mod 3 =? 1)%nat then 16 else 4)%nat 77)))
          <$> [10; 11; 12; 13; 14; 15]%nat))
    [].

(** Stand-ins for the pixel arithmetic of the libraries: 32-byte aligned
    YUV420P planes, an identity scaler and rotation, and the identity
    transfer curve. *)
Definition yuv420p_layout (format width height : Z) : list (Z * nat) :=
  let aligned := (Z.quot (width + 31) 32 * 32)%Z in
  [ (aligned, Z.to_nat (aligned * height));
    (Z.quot aligned 2, Z.to_nat (Z.quot aligned 2 * Z.quot height 2));
    (Z.quot aligned 2, Z.to_nat (Z.quot aligned 2 * Z.quot height 2)) ].

Definition slow_motion : VideoProcessor.VideoProcessParams :=
  VideoProcessor.mkParams 0 false true true 1 1 0 0 true 0.5.

Definition initialized_processor : VideoProcessor.t :=
  VideoProcessor.mk slow_motion 4 4 0 4 4 0 true false true 0 0.

(** The pts of the frames that a run of the video processor thread leaves
    in its output queue. *)
Definition output_pts (r : VideoProcessor.ThreadResult) : list (option Z) :=
  (λ unit : option nat,
     a ← unit; Mem.pts <$> Mem.frames (VideoProcessor.world_ r) !! a)
  <$> ThreadSafeQueue.queue_ (VideoProcessor.output_queue_ r).

End Scenario.

(* ===================================================================== *)
(** * Verified properties                                                 *)
(* ===================================================================== *)

(** ** The queue *)

Section QueueFacts.
Context {T : Type}.
Implicit Types (q : ThreadSafeQueue.t T) (v : T).

Lemma push_size_live q v :
    ThreadSafeQueue.finished_ q = false →
    ThreadSafeQueue.size (ThreadSafeQueue.push v q) = S (ThreadSafeQueue.size q).
Proof.
    intros Hlive. unfold ThreadSafeQueue.push, ThreadSafeQueue.size.
    rewrite Hlive. simpl. rewrite length_app. simpl. lia.
Qed.

Lemma push_finished q v :
    ThreadSafeQueue.finished_ q = true → ThreadSafeQueue.push v q = q.
Proof. intros Hfin. unfold ThreadSafeQueue.push. by rewrite Hfin. Qed.

Lemma run_ops_pushes (vs : list T) :
    ThreadSafeQueue.run_ops (ThreadSafeQueue.Push <$> vs)
    = ThreadSafeQueue.mk vs false.
Proof.
    unfold ThreadSafeQueue.run_ops.
    assert (Hgen : ∀ acc,
      foldl ThreadSafeQueue.apply_op (ThreadSafeQueue.mk acc false)
            (ThreadSafeQueue.Push <$> vs)
      = ThreadSafeQueue.mk (acc ++ vs) false).
    { induction vs as [|v vs IH]; intros acc; simpl.
      - by rewrite app_nil_r.
      - unfold ThreadSafeQueue.push at 1. simpl. rewrite IH.
        by rewrite <- app_assoc. }
    apply (Hgen []).
Qed.
End QueueFacts.

(** C4 (as stated, refuted): no capacity bounds the size of the queues that
    the queue operations build from a freshly constructed queue. *)
Lemma queue_has_no_capacity_bound :
  ¬ ∃ capacity : nat, ∀ ops : list (ThreadSafeQueue.op unit),
      ThreadSafeQueue.size (ThreadSafeQueue.run_ops ops) ≤ capacity.
Proof.
  intros [capacity Hbound].
  specialize (Hbound (ThreadSafeQueue.Push <$> replicate (S capacity) ())).
  rewrite run_ops_pushes in Hbound.
  unfold ThreadSafeQueue.size in Hbound. simpl in Hbound.
  rewrite length_replicate in Hbound. lia.
Qed.

(** C4 (amended): a queue is constructed without a capacity, and [push] on
    a queue that has not been finished appends the unit at the tail whatever
    the current size: the size grows by one and the producer never waits. *)
Theorem push_appends_unless_finished {T : Type} (q : ThreadSafeQueue.t T) (v : T) :
  ThreadSafeQueue.finished_ q = false →
  ThreadSafeQueue.queue_ (ThreadSafeQueue.push v q) = ThreadSafeQueue.queue_ q ++ [v]
  ∧ ThreadSafeQueue.size (ThreadSafeQueue.push v q) = S (ThreadSafeQueue.size q)
  ∧ ThreadSafeQueue.finished_ (ThreadSafeQueue.push v q) = false.
Proof.
  intros Hlive. split; [|split].
  - unfold ThreadSafeQueue.push. by rewrite Hlive.
  - by apply push_size_live.
  - unfold ThreadSafeQueue.push. by rewrite Hlive.
Qed.

Lemma push_appends_unless_finished_witness :
  ThreadSafeQueue.finished_ (ThreadSafeQueue.mk [1%Z; 2%Z] false) = false
  ∧ ThreadSafeQueue.size
      (ThreadSafeQueue.push 3%Z (ThreadSafeQueue.mk [1%Z; 2%Z] false)) = 3.
Proof.
  split; [reflexivity|].
  apply (push_appends_unless_finished (ThreadSafeQueue.mk [1%Z; 2%Z] false) 3%Z).
  reflexivity.
Defined.

(** ** Validation of the speed factor *)

(** C8: the lower bound 0.1 itself is rejected by [main] (exit status -1
    before any stage is started), while 5.0 is accepted; the neighbouring
    binary64 values just outside the interval are rejected and the value
    just above 0.1 is accepted. *)
Theorem speed_factor_bounds_validation :
  Transcoder.main_validation (Transcoder.args_with_speed 0.1) = Some (-1)%Z
  ∧ Transcoder.main_validation (Transcoder.args_with_speed 5.0) = None
  ∧ Transcoder.main_validation (Transcoder.args_with_speed (next_up 0.1)) = None
  ∧ Transcoder.main_validation (Transcoder.args_with_speed (next_down 0.1)) = Some (-1)%Z
  ∧ Transcoder.main_validation (Transcoder.args_with_speed (next_up 5.0)) = Some (-1)%Z.
Proof. repeat split; vm_compute; reflexivity. Qed.

(** ** The speed gate of the video processor *)

Section SpeedGate.
Import VideoProcessor.
Local Open Scope Z_scope.

Lemma should_process_frame_speedup (frame_pts : Z) (p : t) :
  speed_processing_enabled_ p = true →
  (1 <? speed_factor (params_ p))%float = true →
  0 ≤ frame_counter_ p →
  should_process_frame frame_pts p
  = (keep_rule_truncating (speed_factor (params_ p)) (frame_counter_ p + 1),
     set_counters (frame_counter_ p + 1) (total_output_frames_ p) p).
Proof.
  intros Hen Hfast Hpos.
  unfold should_process_frame, keep_rule_truncating, keep_rule.
  rewrite Hen. cbn [negb params_ set_counters frame_counter_]. rewrite Hfast.
  assert (Hrem : ∀ m, 0 < m → Z.rem (frame_counter_ p + 1) m = (frame_counter_ p + 1) mod m).
  { intros m Hm. apply Z.rem_mod_nonneg; lia. }
  destruct (speed_factor (params_ p) =? 1.5)%float.
  { by rewrite Hrem by lia. }
  destruct (speed_factor (params_ p) =? 2)%float.
  { rewrite Hrem by lia. f_equal.
    rewrite Zmod_odd. by destruct (Z.odd _). }
  by rewrite Hrem by lia.
Qed.

Lemma gate_decisions_speedup (n : nat) : ∀ p : t,
  speed_processing_enabled_ p = true →
  (1 <? speed_factor (params_ p))%float = true →
  0 ≤ frame_counter_ p →
  gate_decisions n p
  = keep_rule_truncating (speed_factor (params_ p)) <$> seqZ (frame_counter_ p + 1) (Z.of_nat n).
Proof.
  induction n as [|n IH]; intros p Hen Hfast Hpos; [reflexivity|].
  cbn [gate_decisions]. rewrite should_process_frame_speedup by done.
  rewrite IH by (cbn; first [done | lia]).
  cbn [set_counters params_ frame_counter_].
  rewrite (seqZ_cons (frame_counter_ p + 1)) by lia.
  rewrite fmap_cons. do 3 f_equal; lia.
Qed.

End SpeedGate.

(** C3 (as stated, refuted): at speed 1.7 the rule with [round(100 / speed)]
    keeps input frame 58 (58 < 59), but the gate drops it. *)
Lemma speed_gate_rounding_counterexample :
  let p := VideoProcessor.mk
             (VideoProcessor.mkParams 0 false false false 1 1 0 0 true 1.7)
             640 480 0 640 480 0 true false true 57 0 in
  (VideoProcessor.should_process_frame 0 p).1 = false
  ∧ VideoProcessor.keep_rule_rounding 1.7 58 = true.
Proof. vm_compute. split; reflexivity. Qed.

(** C3 (amended): with speed change enabled and speed > 1.0, the answers of
    the gate to the input frames k = 1, 2, ..., n are: for speed 1.5 keep iff
    k mod 3 ≠ 0, for speed 2.0 keep iff k is odd, and for every other speed
    keep iff k mod 100 < trunc(100 / speed), the quotient being truncated
    toward zero, not rounded. *)
Theorem speed_gate_pattern (n : nat) (p : VideoProcessor.t) :
  VideoProcessor.speed_processing_enabled_ p = true →
  (1 <? VideoProcessor.speed_factor (VideoProcessor.params_ p))%float = true →
  VideoProcessor.frame_counter_ p = 0%Z →
  VideoProcessor.gate_decisions n p
  = VideoProcessor.keep_rule_truncating
      (VideoProcessor.speed_factor (VideoProcessor.params_ p))
    <$> seqZ 1 (Z.of_nat n).
Proof.
  intros Hen Hfast Hzero.
  rewrite gate_decisions_speedup by (first [done | lia]).
  by rewrite Hzero.
Qed.

Lemma speed_gate_pattern_witness :
  let p := VideoProcessor.mk
             (VideoProcessor.mkParams 0 false false false 1 1 0 0 true 3)
             640 480 0 640 480 0 true false true 0 0 in
  VideoProcessor.gate_decisions 4 p
  = VideoProcessor.keep_rule_truncating 3 <$> seqZ 1 4.
Proof.
  intros p. apply (speed_gate_pattern 4 p); reflexivity.
Defined.

(** ** Failure paths of the stages *)

(** C5: when the input cannot be opened the demuxer returns with both of
    its output queues still unfinished (and empty), and a video processor
    whose initialisation fails returns with its output queue unfinished; a
    consumer of such a queue stays suspended in [pop]. *)
Theorem failed_stage_leaves_outputs_unfinished :
  let r := Demuxer.demux_thread_func_with_params
             (Scenario.demux_all Scenario.missing_file)
             Scenario.fresh_packet_queue Scenario.fresh_packet_queue in
  Demuxer.video_packet_queue_ r = Some (ThreadSafeQueue.mk [] false)
  ∧ Demuxer.audio_packet_queue_ r = Some (ThreadSafeQueue.mk [] false)
  ∧ (∀ layout scale rotate adjust params,
       let v := VideoProcessor.video_process_thread_func layout scale rotate adjust
                  (ThreadSafeQueue.mk [] true) ThreadSafeQueue.new params 640 480 0
                  (Mem.mkWorld ∅ ∅ [false]) in
       VideoProcessor.exit_ v = Stage.Returned
       ∧ VideoProcessor.output_queue_ v = ThreadSafeQueue.mk [] false)
  ∧ ThreadSafeQueue.pop (ThreadSafeQueue.mk (T:=option nat) [] false)
    = ThreadSafeQueue.WouldBlock
  ∧ Decoder.exit_
      <$> Decoder.video_decode_to_frames_thread_func 8 (ThreadSafeQueue.mk [] false)
            ThreadSafeQueue.new Scenario.one_frame_delay []
    = Some Stage.BlockedInPop.
Proof.
  repeat split.
Qed.

(** C9: on a container with two video streams the probe selects the first
    (index 0) while the dispatch loop selects the last (index 1): the only
    packet that reaches the video queue is the one of stream 1. *)
Theorem demuxer_dispatches_last_video_stream :
  let probed := Demuxer.get_stream_info Scenario.two_video_streams Demuxer.default_info in
  let r := Demuxer.demux_thread_func_with_params
             (Scenario.demux_all Scenario.two_video_streams)
             Scenario.fresh_packet_queue Scenario.fresh_packet_queue in
  probed.1 = true
  ∧ Demuxer.video_stream_index probed.2 = 0%Z
  ∧ Demuxer.video_width probed.2 = 640%Z
  ∧ Demuxer.video_packet_queue_ r
    = Some (ThreadSafeQueue.mk [Some (Demuxer.mkPacket 1 0)] true)
  ∧ Demuxer.audio_packet_queue_ r
    = Some (ThreadSafeQueue.mk [Some (Demuxer.mkPacket 2 0)] true).
Proof. repeat split. Qed.

(** ** Draining the decoders *)

(** C6: with a codec that holds one frame back, the audio decoder thread
    sends the flush request and delivers all three frames, while the video
    decoder thread finishes its output queue after two frames: it never
    sends the flush request and the third frame stays in the codec. *)
Theorem video_decoder_does_not_flush :
  let audio := Decoder.audio_decode_to_frames_thread_func 8 Scenario.three_packets
                 ThreadSafeQueue.new Scenario.one_frame_delay [] in
  let video := Decoder.video_decode_to_frames_thread_func 8 Scenario.three_packets
                 ThreadSafeQueue.new Scenario.one_frame_delay [] in
  Decoder.frame_queue_ <$> audio
  = Some (ThreadSafeQueue.mk
            [Some (Decoder.mkFrame 0); Some (Decoder.mkFrame 1); Some (Decoder.mkFrame 2)]
            true)
  ∧ Decoder.codec_context <$> audio = Some (Decoder.mkDelay 1 [] [] true)
  ∧ Decoder.frame_queue_ <$> video
    = Some (ThreadSafeQueue.mk [Some (Decoder.mkFrame 0); Some (Decoder.mkFrame 1)] true)
  ∧ Decoder.codec_context <$> video
    = Some (Decoder.mkDelay 1 [Decoder.mkFrame 2] [] false).
Proof. repeat split. Qed.

(** ** The interleaving loop of the muxer *)

Section MuxerFacts.
Import Muxer.
Variable params : MuxerParams.
Local Open Scope Z_scope.

Lemma last_written_pts_snoc index out e :
  last_written_pts index (out ++ [e])
  = match e with
    | WriteFrame pkt _ =>
        if stream_index pkt =? index then pts pkt else last_written_pts index out
    | WriteTrailer => last_written_pts index out
    end.
Proof. unfold last_written_pts. rewrite foldl_app. by destruct e. Qed.

Lemma written_on_snoc index out e :
  written_on index (out ++ [e])
  = (written_on index out + if is_write_on index e then 1 else 0)%nat.
Proof.
  unfold written_on. rewrite sum_list_with_app. simpl. lia.
Qed.

Lemma rescale_stream_index pkt src dst :
  stream_index (av_packet_rescale_ts pkt src dst) = stream_index pkt.
Proof. reflexivity. Qed.

(** What [write_packet] appends. *)
Lemma write_packet_output is_video pkt st :
  ∃ pkt' written,
    output (write_packet params is_video pkt st) = output st ++ [WriteFrame pkt' written]
    ∧ stream_index pkt'
      = (if is_video then video_stream_index st else audio_stream_index st)
    ∧ video_pts (write_packet params is_video pkt st)
      = (if (if is_video then video_stream_index st else audio_stream_index st)
              =? video_stream_index st then pts pkt' else video_pts st)
    ∧ audio_pts (write_packet params is_video pkt st)
      = (if (if is_video then video_stream_index st else audio_stream_index st)
              =? video_stream_index st then audio_pts st else pts pkt').
Proof.
  unfold write_packet.
  destruct (Script.next (script st)) as [written script'] eqn:Hs.
  eexists _, written. cbn [output video_pts audio_pts].
  split; [reflexivity|].
  split; [|split; reflexivity].
  cbn [pts stream_index].
  destruct (_ =? Mem.AV_NOPTS_VALUE); destruct (_ =? video_stream_index st);
    reflexivity.
Qed.

Ltac mux_unfold :=
  unfold loop_invariant, drained_when_done, remaining, video_total, audio_total,
    packets_of.

(** Closes the conjuncts of the invariant after one iteration. *)
Ltac mux_close Hitems :=
  repeat split;
  first
    [ done
    | eexists; split; [reflexivity|]; by split
    | intros [?|?%list_elem_of_singleton]%elem_of_app; done
    | rewrite ?Hitems; unfold written_on; cbn; lia ].

Lemma iteration_pop_video st q :
  loop_invariant st → video_done st = false →
  video_packet_queue st = Some q →
  (audio_done st = true ∨ video_pts st <= audio_pts st) →
  ∃ st', iteration params st = Some st' ∧ loop_invariant st'
         ∧ S (remaining st') = remaining st
         ∧ video_total st' = video_total st ∧ audio_total st' = audio_total st.
Proof.
  intros (Hv & Ha & Hvi & Hai & Hvp & Hap & Htr) Hvd Hq Hsel.
  destruct Hv as (q' & Hq' & Hfin & Hdr). rewrite Hq in Hq'. simplify_eq.
  assert (Hselect : select_video st = true).
  { unfold select_video. rewrite Hvd. simpl.
    destruct (audio_done st); simpl; [done|].
    destruct Hsel as [?|?]; [done|]. by apply Z.leb_le. }
  unfold iteration. rewrite Hselect, Hvd. simpl. rewrite Hq. simpl.
  unfold ThreadSafeQueue.pop. rewrite Hfin.
  mux_unfold. rewrite Hq, Hvd. cbn [from_option].
  destruct (ThreadSafeQueue.queue_ q') as [|unit rest] eqn:Hitems.
  - eexists. split; [reflexivity|]. cbn. mux_close Hitems.
  - destruct unit as [pkt|].
    + set (st1 := set_video _ _ _ st).
      destruct (write_packet_output true pkt st1)
        as (pkt' & written & Hout & Hidx & Hvpts & Hapts).
      eexists. split; [reflexivity|].
      rewrite Hout, Hvpts, Hapts.
      cbn [st1 set_video video_stream_index audio_stream_index output video_pts audio_pts] in *.
      rewrite Hvi in *. cbn in Hidx.
      rewrite !last_written_pts_snoc, !written_on_snoc. cbn [is_write_on].
      rewrite Hidx. cbn.
      unfold write_packet. destruct (Script.next _). cbn.
      mux_close Hitems.
    + eexists. split; [reflexivity|]. cbn. mux_close Hitems.
Qed.

Lemma iteration_pop_audio st q :
  loop_invariant st → audio_done st = false →
  audio_packet_queue st = Some q →
  (video_done st = true ∨ audio_pts st < video_pts st) →
  ∃ st', iteration params st = Some st' ∧ loop_invariant st'
         ∧ S (remaining st') = remaining st
         ∧ video_total st' = video_total st ∧ audio_total st' = audio_total st.
Proof.
  intros (Hv & Ha & Hvi & Hai & Hvp & Hap & Htr) Had Hq Hsel.
  destruct Ha as (q' & Hq' & Hfin & Hdr). rewrite Hq in Hq'. simplify_eq.
  assert (Hselect : select_video st = false).
  { unfold select_video. rewrite Had. simpl.
    destruct (video_done st); simpl; [done|].
    destruct Hsel as [?|?]; [done|]. by apply Z.leb_gt. }
  unfold iteration. rewrite Hselect, Had. simpl. rewrite Hq. simpl.
  unfold ThreadSafeQueue.pop. rewrite Hfin.
  mux_unfold. rewrite Hq, Had. cbn [from_option].
  destruct (ThreadSafeQueue.queue_ q') as [|unit rest] eqn:Hitems.
  - eexists. split; [reflexivity|]. cbn. mux_close Hitems.
  - destruct unit as [pkt|].
    + set (st1 := set_audio _ _ _ st).
      destruct (write_packet_output false pkt st1)
        as (pkt' & written & Hout & Hidx & Hvpts & Hapts).
      eexists. split; [reflexivity|].
      rewrite Hout, Hvpts, Hapts.
      cbn [st1 set_audio video_stream_index audio_stream_index output video_pts audio_pts] in *.
      rewrite Hvi, Hai in *. cbn in Hidx.
      rewrite !last_written_pts_snoc, !written_on_snoc. cbn [is_write_on].
      rewrite Hidx. cbn.
      unfold write_packet. destruct (Script.next _). cbn.
      mux_close Hitems.
    + eexists. split; [reflexivity|]. cbn. mux_close Hitems.
Qed.

Lemma iteration_progress st :
  loop_invariant st → video_done st && audio_done st = false →
  ∃ st', iteration params st = Some st' ∧ loop_invariant st'
         ∧ S (remaining st') = remaining st
         ∧ video_total st' = video_total st ∧ audio_total st' = audio_total st.
Proof.
  intros Hinv Hlive.
  pose proof Hinv as ((qv & Hqv & _) & (qa & Hqa & _) & _).
  destruct (video_done st) eqn:Hvd; [|destruct (audio_done st) eqn:Had].
  - apply (iteration_pop_audio st qa); auto.
  - apply (iteration_pop_video st qv); auto.
  - destruct (Z.le_gt_cases (video_pts st) (audio_pts st)).
    + apply (iteration_pop_video st qv); auto.
    + apply (iteration_pop_audio st qa); auto.
Qed.

Lemma iterations_invariant n : ∀ st st',
  loop_invariant st → iterations params n st = Some st' → loop_invariant st'.
Proof.
  induction n as [|n IH]; intros st st' Hinv Hrun; cbn in Hrun.
  - by simplify_eq.
  - destruct (video_done st && audio_done st) eqn:Hlive; [by simplify_eq|].
    destruct (iteration_progress st Hinv Hlive) as (st1 & Hstep & Hinv1 & _).
    rewrite Hstep in Hrun. eauto.
Qed.

Lemma main_loop_finishes fuel : ∀ st,
  loop_invariant st → (remaining st ≤ fuel)%nat →
  ∃ st', main_loop params fuel st
         = Finished (with_output (output st' ++ [WriteTrailer]) st')
         ∧ loop_invariant st'
         ∧ video_done st' = true ∧ audio_done st' = true
         ∧ video_total st' = video_total st ∧ audio_total st' = audio_total st.
Proof.
  induction fuel as [|fuel IH]; intros st Hinv Hfuel.
  - assert (video_done st = true ∧ audio_done st = true) as [Hvd Had].
    { unfold remaining in Hfuel.
      destruct (video_done st), (audio_done st); split; first [done | lia]. }
    exists st. cbn. rewrite Hvd, Had. done.
  - cbn. destruct (video_done st && audio_done st) eqn:Hlive.
    + apply andb_true_iff in Hlive as [Hvd Had]. by exists st.
    + destruct (iteration_progress st Hinv Hlive)
        as (st1 & Hstep & Hinv1 & Hrem & Hvt & Hat).
      rewrite Hstep.
      destruct (IH st1 Hinv1) as (st' & Hrun & ? & ? & ? & Hvt' & Hat'); [lia|].
      exists st'. rewrite Hrun, Hvt', Hat'. done.
Qed.

Lemma init_invariant (vq aq : packet_queue) script :
  ThreadSafeQueue.finished_ vq = true → ThreadSafeQueue.finished_ aq = true →
  loop_invariant (init (Some vq) (Some aq) script).
Proof.
  intros Hv Ha. unfold loop_invariant, drained_when_done. cbn.
  repeat split; eauto using not_elem_of_nil;
    (eexists; split; [reflexivity|]; by split).
Qed.
End MuxerFacts.

(** C7 (as stated, refuted): after the first video packet (pts 0) is
    written, both queues are live, the head of the video queue is at
    1/24 s and the head of the audio queue at 0 s; on a common time axis
    the audio unit is earlier, but the loop selects video again. *)
Lemma mux_ignores_head_pts :
  ∃ st video_head audio_head,
    Muxer.iterations Scenario.mux_params 1
      (Muxer.init (Some (Scenario.video_packets 3)) (Some (Scenario.audio_packets 3)) [])
    = Some st
    ∧ Muxer.video_done st = false ∧ Muxer.audio_done st = false
    ∧ head (Muxer.packets_of (Muxer.video_packet_queue st)) = Some video_head
    ∧ head (Muxer.packets_of (Muxer.audio_packet_queue st)) = Some audio_head
    ∧ Muxer.select_video_by_head_pts Scenario.mux_params video_head audio_head = false
    ∧ Muxer.select_video st = true.
Proof. do 3 eexists. vm_compute. repeat split. Qed.

(** C7 (amended): with both queues given and finished by their producers,
    at every iteration while both sides are live the muxer takes video iff
    the pts of the video packet written last is not greater than the pts of
    the audio packet written last (each in its own stream time base, 0
    before the first packet; ties go to video) -- the heads of the queues
    are not inspected; when one side is done it takes the other; and the
    thread ends by writing the trailer once, after every packet of both
    queues has been popped and written. *)
Theorem mux_interleaving (params : Muxer.MuxerParams) (vq aq : Muxer.packet_queue)
    (script : Script.t) :
  ThreadSafeQueue.finished_ vq = true →
  ThreadSafeQueue.finished_ aq = true →
  (Decoder.setup 5 script).1 = true →
  let start := Muxer.init (Some vq) (Some aq) (Decoder.setup 5 script).2 in
  (∀ n st, Muxer.iterations params n start = Some st →
     Muxer.select_video st
     = (if negb (Muxer.video_done st) && negb (Muxer.audio_done st)
       then (Muxer.last_written_pts 0 (Muxer.output st)
             <=? Muxer.last_written_pts 1 (Muxer.output st))%Z
        else negb (Muxer.video_done st)))
  ∧ ∃ st writes,
      Muxer.mux_thread_func (Muxer.enough_fuel (Some vq) (Some aq))
        (Some vq) (Some aq) params script = Muxer.Finished st
      ∧ Muxer.output st = writes ++ [Muxer.WriteTrailer]
      ∧ (Muxer.WriteTrailer ∉ writes)
      ∧ Muxer.written_on 0 writes = length (Muxer.packets_of (Some vq))
      ∧ Muxer.written_on 1 writes = length (Muxer.packets_of (Some aq))
      ∧ Muxer.packets_of (Muxer.video_packet_queue st) = []
      ∧ Muxer.packets_of (Muxer.audio_packet_queue st) = [].
Proof.
  intros Hvfin Hafin Hsetup start.
  pose proof (init_invariant vq aq (Decoder.setup 5 script).2 Hvfin Hafin) as Hinit.
  split.
  - intros n st Hrun.
    destruct (iterations_invariant params n _ _ Hinit Hrun)
      as (_ & _ & _ & _ & Hvp & Hap & _).
    unfold Muxer.select_video. rewrite Hvp, Hap.
    by destruct (Muxer.video_done st), (Muxer.audio_done st).
  - destruct (main_loop_finishes params (Muxer.enough_fuel (Some vq) (Some aq)) start Hinit)
      as (st & Hrun & Hinv & Hvd & Had & Hvt & Hat).
    { unfold Muxer.remaining, Muxer.enough_fuel, ThreadSafeQueue.size. cbn. lia. }
    destruct Hinv as ((qv & Hqv & _ & Hvempty) & (qa & Hqa & _ & Haempty) & _ & _ & _ & _ & Htr).
    exists (Muxer.with_output (Muxer.output st ++ [Muxer.WriteTrailer]) st), (Muxer.output st).
    unfold Muxer.mux_thread_func.
    change (3 + length (option_list (Some vq)) + length (option_list (Some aq)))%nat
      with 5%nat.
    subst start. destruct (Decoder.setup 5 script) as [ready script'] eqn:Hs.
    cbn [fst snd] in *. subst ready. cbn [negb].
    split; [exact Hrun|]. split; [reflexivity|]. split; [exact Htr|].
    unfold Muxer.video_total, Muxer.audio_total, Muxer.packets_of in *.
    cbn [Muxer.with_output Muxer.video_packet_queue Muxer.audio_packet_queue] in *.
    rewrite Hqv, Hqa in *. cbn [from_option] in *.
    rewrite (Hvempty Hvd) in *. rewrite (Haempty Had) in *.
    cbn in Hvt, Hat. cbn. repeat split; lia.
Qed.

Lemma mux_interleaving_witness :
  ∃ st writes,
    Muxer.mux_thread_func
      (Muxer.enough_fuel (Some (Scenario.video_packets 3)) (Some (Scenario.audio_packets 2)))
      (Some (Scenario.video_packets 3)) (Some (Scenario.audio_packets 2))
      Scenario.mux_params [] = Muxer.Finished st
    ∧ Muxer.output st = writes ++ [Muxer.WriteTrailer]
    ∧ (Muxer.WriteTrailer ∉ writes)
    ∧ Muxer.written_on 0 writes = 3
    ∧ Muxer.written_on 1 writes = 2.
Proof.
  destruct (mux_interleaving Scenario.mux_params
              (Scenario.video_packets 3) (Scenario.audio_packets 2) [])
    as (_ & st & writes & Hrun & Hout & Htr & Hv & Ha & _);
    [reflexivity | reflexivity | reflexivity |].
  exists st, writes. repeat split; assumption.
Defined.

(** ** The repacketizer of the audio processor *)

Section Repacketizer.
Import AudioProcessor.
Context {Tempo : Type}.
Variable tempo_put : Tempo → list float → Tempo * list float.
Variable tempo_flush : Tempo → Tempo * list float.
Variable C : Z.
Hypothesis C_pos : (0 < C)%Z.
Implicit Types (p : t Tempo) (ring : AudioRingBuffer).
Local Open Scope Z_scope.

Lemma emitted_samples_app units units' :
  emitted_samples (units ++ units') = emitted_samples units + emitted_samples units'.
Proof.
  unfold emitted_samples.
  induction units as [|u units IH]; simpl; [done|]. rewrite IH. lia.
Qed.

(** Appending a frame stamped with the running count keeps the queue regular. *)
Lemma regular_snoc units frame :
  regular units → nb_samples frame = 1536 →
  pts frame = emitted_samples units →
  regular (units ++ [Some frame]).
Proof.
  intros Hreg Hn Hpts i unit Hi.
  destruct (decide (i < length units)%nat) as [Hlt|Hge].
  - rewrite lookup_app_l in Hi by done.
    destruct (Hreg i unit Hi) as (f & -> & ? & Hp).
    exists f. rewrite take_app_le by lia. done.
  - rewrite lookup_app_r in Hi by lia.
    destruct (i - length units)%nat as [|k] eqn:Hk; [|by destruct k].
    cbn in Hi. simplify_eq. exists frame.
    rewrite take_app_ge by lia.
    assert (i = length units) as -> by lia.
    rewrite Nat.sub_diag. cbn. rewrite app_nil_r. done.
Qed.

Lemma read_frame_spec ring :
  match read_frame ring with
  | (Some _, ring') =>
      frame_size_ ring' = frame_size_ ring ∧ channels_ ring' = channels_ ring
      ∧ frame_size_ ring * channels_ ring ≤ available_ ring
      ∧ available_ ring' = available_ ring - frame_size_ ring * channels_ ring
  | (None, ring') => ring' = ring
  end.
Proof.
  unfold read_frame.
  destruct (available_ ring <? frame_size_ ring * channels_ ring) eqn:Hlt; [done|].
  apply Z.ltb_ge in Hlt.
  destruct (foldl _ _ _) as [samples pos]. cbn. done.
Qed.

Lemma write_samples_spec samples n ring :
  frame_size_ (write_samples samples n ring).2 = frame_size_ ring
  ∧ channels_ (write_samples samples n ring).2 = channels_ ring.
Proof.
  unfold write_samples. destruct (_ <? _); [done|].
  destruct (foldl _ _ _) as [buffer pos]. done.
Qed.


(** Changing the tempo processor, the ring buffer or the script keeps the
    invariant as long as the channel counts and the frame size stay. *)
Lemma invariant_update p (touch' : SoundTouch Tempo) (ring' : AudioRingBuffer)
    (script' : Script.t) :
  repacketizer_invariant C p →
  touch_channels touch' = C → frame_size_ ring' = 1536 → channels_ ring' = C →
  repacketizer_invariant C
    (update (processed_samples_count_ p) (Some touch') (Some ring') (output_queue p)
            script' p).
Proof.
  intros (Hc & Htemp & Hen & _ & _ & Hlive & Hreg & Hcount) Htouch Hfs Hch.
  unfold repacketizer_invariant. cbn. split_and!; eauto.
Qed.

Lemma emit_frame_invariant samples p :
  repacketizer_invariant C p →
  repacketizer_invariant C (emit_frame samples 1536 p)
  ∧ sound_touch_ (emit_frame samples 1536 p) = sound_touch_ p
  ∧ ring_buffer_ (emit_frame samples 1536 p) = ring_buffer_ p.
Proof.
  intros (Hc & Htemp & Hen & Htouch & Hring & Hlive & Hreg & Hcount).
  unfold emit_frame, create_output_frame.
  destruct (Script.next (script p)) as [allocated script1].
  destruct allocated; cbn [negb];
    [destruct (Script.next script1) as [buffered script2]; destruct buffered; cbn [negb]|];
    unfold repacketizer_invariant; cbn; try done.
  unfold ThreadSafeQueue.push. rewrite Hlive. cbn.
  split_and!; try done.
  - apply regular_snoc; [done|done|]. cbn. done.
  - rewrite emitted_samples_app. cbn. lia.
Qed.

Lemma drain_frames_total fuel : ∀ p,
  repacketizer_invariant C p →
  (Z.to_nat (from_option available_ 0%Z (ring_buffer_ p)) < fuel)%nat →
  ∃ p', drain_frames fuel p = Some p' ∧ repacketizer_invariant C p'
        ∧ sound_touch_ p' = sound_touch_ p.
Proof.
  induction fuel as [|fuel IH]; intros p Hinv Hfuel; [lia|].
  cbn [drain_frames].
  pose proof Hinv as (_ & _ & _ & (touch & Htouch & Ht) & (ring & Hring & Hfs & Hch) & _).
  rewrite Hring in Hfuel |- *.
  pose proof (read_frame_spec ring) as Hread.
  destruct (read_frame ring) as [[samples|] ring']; [|by exists p].
  destruct Hread as (Hsize & Hchan & Havail & Hleft).
  rewrite Htouch.
  set (p1 := update _ _ (Some ring') _ _ p).
  assert (Hinv1 : repacketizer_invariant C p1).
  { apply invariant_update; congruence. }
  rewrite Hsize, Hfs.
  destruct (emit_frame_invariant samples p1 Hinv1) as (Hinv2 & Htouch2 & Hring2).
  destruct (IH (emit_frame samples 1536 p1) Hinv2) as (p' & Hrun & Hinv' & Htouch').
  { rewrite Hring2. cbn in Hfuel |- *. nia. }
  exists p'. rewrite Hrun, Htouch', Htouch2. done.
Qed.

Lemma receive_loop_total fuel skip : ∀ p,
  repacketizer_invariant C p →
  (length (from_option fifo [] (sound_touch_ p)) < fuel)%nat →
  ∃ p', receive_loop fuel skip p = Some p' ∧ repacketizer_invariant C p'.
Proof.
  induction fuel as [|fuel IH]; intros p Hinv Hfuel; [lia|].
  cbn [receive_loop].
  pose proof Hinv as (Hc & Htemp & _ & (touch & Htouch & Ht) & (ring & Hring & Hfs & Hch) & _).
  rewrite Htouch, Hring in *. cbn [from_option] in Hfuel.
  unfold receiveSamples. rewrite Ht.
  set (num := Z.min _ _).
  set (touch' := mkTouch _ _ _).
  destruct (0 <? num) eqn:Hnum; cbn [negb].
  - apply Z.ltb_lt in Hnum.
    pose proof (write_samples_spec (take (Z.to_nat (num * C)) (fifo touch)) num ring)
      as [Hwfs Hwch].
    destruct (write_samples _ num ring) as [written ring'].
    cbn [fst snd] in *.
    set (p1 := update _ (Some touch') (Some ring') _ _ p).
    assert (Hinv1 : repacketizer_invariant C p1).
    { apply invariant_update; first [done | congruence]. }
    assert (Hshorter : (length (drop (Z.to_nat (num * C)) (fifo touch))
                        < length (fifo touch))%nat).
    { rewrite length_drop.
      assert (num <= Z.of_nat (length (fifo touch)) `quot` C) by (subst num; lia).
      assert (C * (Z.of_nat (length (fifo touch)) `quot` C) <= Z.of_nat (length (fifo touch))).
      { apply Z.mul_quot_le; lia. }
      nia. }
    destruct (negb written && skip).
    + apply IH; [done|]. cbn. lia.
    + destruct (drain_frames_total (drain_fuel p1) p1 Hinv1) as (p2 & Hrun & Hinv2 & Htouch2).
      { unfold drain_fuel. lia. }
      rewrite Hrun. apply IH; [done|].
      rewrite Htouch2. cbn. lia.
  - eexists. split; [reflexivity|].
    apply invariant_update; done.
Qed.

Lemma process_samples_total samples n input_pts p :
  repacketizer_invariant C p →
  ∃ p', process_samples_through_soundtouch_with_frame_pts tempo_put samples n input_pts p
        = Some (true, p')
        ∧ repacketizer_invariant C p'.
Proof.
  intros Hinv.
  pose proof Hinv as (_ & _ & _ & (touch & Htouch & Ht) & (ring & Hring & Hfs & Hch) & _).
  unfold process_samples_through_soundtouch_with_frame_pts.
  rewrite Htouch, Hring. cbn [fmap option_fmap option_map].
  set (p1 := update _ _ _ _ _ p).
  assert (Hinv1 : repacketizer_invariant C p1).
  { apply invariant_update; try done.
    unfold putSamples. by destruct (tempo_put _ _). }
  destruct (receive_loop_total (receive_fuel p1) true p1 Hinv1) as (p' & Hrun & Hinv').
  { unfold receive_fuel. lia. }
  exists p'. rewrite Hrun. done.
Qed.

Lemma note_input_pts_invariant input_pts p :
  repacketizer_invariant C p → repacketizer_invariant C (note_input_pts input_pts p).
Proof.
  unfold note_input_pts. by destruct (_ =? _).
Qed.

Lemma process_frame_total filter_frames frame p :
  repacketizer_invariant C p →
  ∃ result p', process_frame tempo_put filter_frames frame p = Some (result, p')
               ∧ repacketizer_invariant C p'.
Proof.
  intros Hinv. unfold process_frame.
  destruct (filter_graph_ready p); cbn [negb]; [|by exists false, p].
  pose proof Hinv as (_ & _ & -> & _).
  unfold process_frame_with_speed.
  pose proof (note_input_pts_invariant (pts frame) p Hinv) as Hnoted.
  destruct (_ =? AV_SAMPLE_FMT_FLTP); [|by eexists false, _].
  destruct (process_samples_total
              (interleaved (input_channels_ (note_input_pts (pts frame) p)) frame)
              (nb_samples frame) (pts frame) _ Hnoted) as (p' & Hrun & Hinv').
  by exists true, p'.
Qed.



End Repacketizer.



(** A run on one mono frame of 2000 samples stamped 777: a full frame at
    pts 0 and the zero-padded tail at pts 1536. *)
Example audio_two_frames :
  Scenario.audio_run_summary
    (AudioProcessor.audio_process_thread_func (λ _ _ _, ())
       Scenario.pass_through_put Scenario.pass_through_flush (λ _, []) []
       (ThreadSafeQueue.mk [Some (Scenario.mono_frame 2000 777)] true)
       ThreadSafeQueue.new Scenario.speed_change 44100 1
       AudioProcessor.AV_SAMPLE_FMT_FLTP [])
  = Some (Stage.Returned,
          [Some (1536%Z, 0%Z, [1536]); Some (1536%Z, 1536%Z, [1536])], true).
Proof. vm_compute. reflexivity. Qed.

(** ** The footprint of the video processor in memory *)

Section Footprint.
Import Mem.
Variable target : nat.
Variable ids : list nat.
Implicit Types (w : World).

Lemma modifies_only_refl w : modifies_only target ids w w.
Proof. by split_and!. Qed.

Lemma modifies_only_trans w1 w2 w3 :
  modifies_only target ids w1 w2 → modifies_only target ids w2 w3 →
  modifies_only target ids w1 w3.
Proof.
  intros (Hf1 & Hd1 & Hb1) (Hf2 & Hd2 & Hb2). split_and!.
  - intros a Ha. by rewrite Hf2, Hf1.
  - by rewrite Hd2.
  - intros id Hid. by rewrite Hb2, Hb1.
Qed.

(** A step that keeps the footprint keeps the protection if the frame at
    [target] still holds none of the protected buffers. *)
Lemma protects_step w w' :
  protects target ids w → modifies_only target ids w w' →
  (∀ id, id ∈ data (frame_at w' target) → id ∉ ids) →
  protects target ids w'.
Proof.
  intros [Hlive _] (_ & _ & Hb) Hout. split; [|done].
  intros id Hid. rewrite Hb by done. auto.
Qed.

Lemma call_footprint w :
  modifies_only target ids w (call w).2
  ∧ frame_at (call w).2 target = frame_at w target
  ∧ (protects target ids w → protects target ids (call w).2).
Proof.
  unfold call. destruct (Script.next (script w)) as [ok s]. cbn.
  split; [by split_and!|]. split; [done|]. by intros [??].
Qed.

Lemma update_frame_footprint g w :
  modifies_only target ids w (update_frame target g w)
  ∧ data (frame_at (update_frame target g w) target)
    = match frames w !! target with
      | Some _ => data (g (frame_at w target))
      | None => []
      end.
Proof.
  unfold update_frame, frame_at, modifies_only. cbn. split_and!.
  - intros a Ha. by rewrite lookup_alter_ne.
  - rewrite lookup_alter_eq. by rewrite fmap_is_Some.
  - done.
  - rewrite lookup_alter_eq. by destruct (frames w !! target).
Qed.

Lemma update_bytes_footprint id g w :
  id ∉ ids →
  modifies_only target ids w (update_bytes id g w)
  ∧ frames (update_bytes id g w) = frames w.
Proof.
  intros Hid. unfold update_bytes, modifies_only. cbn. split_and!; try done.
  intros id' Hid'. rewrite lookup_alter_ne; [done|]. by intros ->.
Qed.

Lemma release_buffers_lookup (released : list nat) (bs : gmap nat AVBuffer) id :
  id ∉ released → foldr release_buffer bs released !! id = bs !! id.
Proof.
  induction released as [|r released IH]; intros Hid; [done|].
  apply not_elem_of_cons in Hid as [Hne Hid]. cbn.
  unfold release_buffer at 1.
  destruct (foldr release_buffer bs released !! r) as [b|] eqn:Hr; [|by apply IH].
  destruct (refcount b <=? 1)%nat.
  - rewrite lookup_delete_ne by done. by apply IH.
  - rewrite lookup_insert_ne by done. by apply IH.
Qed.

Lemma av_frame_unref_footprint w :
  protects target ids w →
  modifies_only target ids w (av_frame_unref target w)
  ∧ protects target ids (av_frame_unref target w).
Proof.
  intros Hprot. pose proof Hprot as [Hlive Hout].
  assert (Hstep : modifies_only target ids w (av_frame_unref target w)).
  { unfold av_frame_unref.
    eapply modifies_only_trans; [|apply update_frame_footprint].
    unfold modifies_only. cbn. split_and!; try done.
    intros id Hid. apply release_buffers_lookup. intros Hin. by apply (Hout id). }
  split; [done|]. apply (protects_step w); [done|done|].
  unfold av_frame_unref.
  destruct (update_frame_footprint (λ _, blank_frame)
              (with_buffers (foldr release_buffer (buffers w) (data (frame_at w target))) w))
    as [_ ->].
  cbn. destruct (frames w !! target); cbn; by intros id ?%elem_of_nil.
Qed.

Lemma alloc_buffers_spec sizes : ∀ (bs : gmap nat AVBuffer),
  (∀ id, is_Some (bs !! id) → (alloc_buffers sizes bs).2 !! id = bs !! id)
  ∧ (∀ id, id ∈ (alloc_buffers sizes bs).1 → bs !! id = None).
Proof.
  induction sizes as [|n sizes IH]; intros bs; cbn; [split; [done|]|].
  { by intros id ?%elem_of_nil. }
  set (fresh_id := fresh (dom bs)).
  assert (Hfresh : bs !! fresh_id = None).
  { apply not_elem_of_dom. apply is_fresh. }
  destruct (IH (<[fresh_id := {| refcount := 1; bytes := replicate n 0%Z |}]> bs))
    as [Hkeep Hnew].
  destruct (alloc_buffers sizes _) as [new_ids bs']. cbn in *. split.
  - intros id Hid. rewrite Hkeep.
    + apply lookup_insert_ne. intros ->. rewrite Hfresh in Hid. by destruct Hid.
    + rewrite lookup_insert_ne; [done|]. intros ->. rewrite Hfresh in Hid. by destruct Hid.
  - intros id [->|Hid]%elem_of_cons; [done|].
    specialize (Hnew id Hid).
    destruct (decide (fresh_id = id)) as [->|Hne]; [done|].
    by rewrite lookup_insert_ne in Hnew.
Qed.

Lemma av_frame_get_buffer_footprint layout w :
  protects target ids w →
  modifies_only target ids w (av_frame_get_buffer target layout w).2
  ∧ protects target ids (av_frame_get_buffer target layout w).2.
Proof.
  intros Hprot. pose proof Hprot as [Hlive Hout].
  unfold av_frame_get_buffer.
  destruct (call_footprint w) as (Hcall & Hframe & Hcallprot).
  destruct (call w) as [ok w1]. cbn [snd] in *.
  destruct ok; cbn [snd]; [|by auto].
  pose proof (alloc_buffers_spec layout.*2 (buffers w1)) as [Hkeep Hnew].
  destruct (alloc_buffers layout.*2 (buffers w1)) as [new_ids bs]. cbn [fst snd] in *.
  set (g := λ f : AVFrame, mkFrame new_ids _ _ _ _ _ _ _ _).
  destruct (update_frame_footprint g (with_buffers bs w1)) as [Hupd Hdata].
  destruct (Hcallprot Hprot) as [Hlive1 Hout1].
  assert (Hstep : modifies_only target ids w (update_frame target g (with_buffers bs w1))).
  { eapply modifies_only_trans; [exact Hcall|].
    eapply modifies_only_trans; [|exact Hupd].
    unfold modifies_only. cbn. split_and!; try done.
    intros id Hid. apply Hkeep. by apply Hlive1. }
  split; [done|]. apply (protects_step w); [done|done|].
  rewrite Hdata. cbn. destruct (frames w1 !! target); [|by intros id ?%elem_of_nil].
  cbn. intros id Hid Hin. specialize (Hnew id Hid).
  destruct (Hlive1 id Hin) as [b Hb]. congruence.
Qed.

(** Steps that only touch buffers keep the protection. *)
Lemma protects_buffers_step w w' :
  protects target ids w → modifies_only target ids w w' → frames w' = frames w →
  protects target ids w'.
Proof.
  intros Hprot Hstep Hframes. apply (protects_step w); [done|done|].
  unfold frame_at. rewrite Hframes. apply Hprot.
Qed.

Lemma write_planes_footprint planes : ∀ contents w,
  (∀ id, id ∈ planes → id ∉ ids) →
  modifies_only target ids w (write_planes planes contents w)
  ∧ frames (write_planes planes contents w) = frames w.
Proof.
  induction planes as [|id planes IH]; intros contents w Hout; cbn.
  { split; [apply modifies_only_refl|done]. }
  destruct contents as [|c contents]; [split; [apply modifies_only_refl|done]|].
  destruct (update_bytes_footprint id (overwrite c) w) as [Hstep Hframes].
  { apply Hout. by left. }
  destruct (IH contents (update_bytes id (overwrite c) w)) as [Hrest Hframes'].
  { intros id' Hid'. apply Hout. by right. }
  split; [by eapply modifies_only_trans|congruence].
Qed.

Lemma keeps_refl w : protects target ids w → keeps target ids w w.
Proof. intros. split; [apply modifies_only_refl|done]. Qed.

Lemma keeps_trans w1 w2 w3 : keeps target ids w1 w2 → keeps target ids w2 w3 → keeps target ids w1 w3.
Proof. intros [??] [??]. split; [by eapply modifies_only_trans|done]. Qed.

Lemma keeps_call w : protects target ids w → keeps target ids w (call w).2.
Proof. intros. destruct (call_footprint w) as (? & ? & ?). split; auto. Qed.

Lemma keeps_write_planes contents w :
  protects target ids w →
  keeps target ids w (write_planes (data (frame_at w target)) contents w).
Proof.
  intros Hprot.
  destruct (write_planes_footprint (data (frame_at w target)) contents w) as [Hstep Hframes].
  { apply Hprot. }
  split; [done|]. by apply (protects_buffers_step w).
Qed.

(** Rewriting fields of the target frame other than its plane pointers. *)
Lemma keeps_update_frame g w :
  (∀ f, data (g f) = data f) →
  protects target ids w → keeps target ids w (update_frame target g w).
Proof.
  intros Hdata Hprot.
  destruct (update_frame_footprint g w) as [Hstep Hout].
  split; [done|]. apply (protects_step w); [done|done|].
  rewrite Hout. destruct (frames w !! target); [|by intros id ?%elem_of_nil].
  rewrite Hdata. apply Hprot.
Qed.
End Footprint.

Section VideoFootprint.
Import Mem VideoProcessor.
Variable plane_layout : Z → Z → Z → list (Z * nat).
Variable sws_scale_pixels : list (list Z) → list (list Z).
Variable gl_rotate_pixels : float → list (list Z) → list (list Z).
Variable adjust_pixel : float → float → Z → Z.
Variable output : nat.
Variable ids : list nat.
Implicit Types (w : World) (p : VideoProcessor.t).

Lemma keeps_on_plane i g w :
  protects output ids w → keeps output ids w (on_plane (frame_at w output) i g w).
Proof.
  intros Hprot. unfold on_plane, plane_ptr.
  destruct (data (frame_at w output) !! i) as [id|] eqn:Hid; [|by apply keeps_refl].
  destruct (update_bytes_footprint output ids id g w) as [Hstep Hframes].
  { apply Hprot. by eapply list_elem_of_lookup_2. }
  split; [done|]. by apply (protects_buffers_step output ids w).
Qed.

Lemma keeps_allocate_output_frame width height format w :
  protects output ids w →
  keeps output ids w (allocate_output_frame plane_layout output width height format w).2.
Proof.
  intros Hprot. unfold allocate_output_frame.
  destruct (av_frame_unref_footprint output ids w Hprot) as [Hs1 Hp1].
  match goal with
  | |- context [update_frame output ?g (av_frame_unref output w)] =>
      destruct (keeps_update_frame output ids g (av_frame_unref output w)
                  (λ f, eq_refl) Hp1) as [Hs2 Hp2]
  end.
  destruct (av_frame_get_buffer_footprint output ids
              (plane_layout format width height) _ Hp2) as [Hs3 Hp3].
  split; [|done]. eauto using modifies_only_trans.
Qed.

Lemma keeps_sws_scale input w :
  protects output ids w →
  keeps output ids w (sws_scale sws_scale_pixels input output w).2.
Proof.
  intros Hprot. unfold sws_scale.
  pose proof (keeps_call output ids w Hprot) as Hcall.
  destruct (call w) as [[] w1]; cbn [snd] in *; [|done].
  eapply keeps_trans; [exact Hcall|]. apply keeps_write_planes, Hcall.
Qed.

Lemma keeps_rotate_frame_opengl p input w :
  protects output ids w →
  keeps output ids w (rotate_frame_opengl gl_rotate_pixels p input output w).2.
Proof.
  intros Hprot. unfold rotate_frame_opengl.
  destruct (opengl_initialized_ p); cbn [negb snd]; [|by apply keeps_refl].
  pose proof (keeps_call output ids w Hprot) as Hcall.
  destruct (call w) as [[] w1]; cbn [snd] in *; [|done].
  eapply keeps_trans; [exact Hcall|]. apply keeps_write_planes, Hcall.
Qed.

Lemma keeps_apply_grayscale w :
  protects output ids w → keeps output ids w (apply_grayscale output w).
Proof.
  intros Hprot. unfold apply_grayscale.
  destruct (format (frame_at w output) =? AV_PIX_FMT_YUV420P)%Z; cbn [negb];
    [|by apply keeps_refl].
  pose proof (keeps_on_plane 1 (memset 128 (Z.quot (plane_linesize (frame_at w output) 1
                * height (frame_at w output)) 2)) w Hprot) as Hfirst.
  eapply keeps_trans; [exact Hfirst|].
  set (w1 := on_plane _ 1 _ w) in *.
  assert (Hsame : frame_at w1 output = frame_at w output).
  { unfold w1, on_plane, frame_at. by destruct (plane_ptr _ _). }
  rewrite <- Hsame. apply keeps_on_plane, Hfirst.
Qed.

Lemma keeps_apply_brightness_contrast p w :
  protects output ids w →
  keeps output ids w (apply_brightness_contrast adjust_pixel p output w).
Proof.
  intros Hprot. unfold apply_brightness_contrast.
  destruct (format (frame_at w output) =? AV_PIX_FMT_YUV420P)%Z; cbn [negb];
    [|by apply keeps_refl].
  by apply keeps_on_plane.
Qed.

Lemma keeps_apply_kernel kernel w :
  protects output ids w → keeps output ids w (apply_kernel kernel output w).
Proof.
  intros Hprot. unfold apply_kernel.
  destruct (format (frame_at w output) =? AV_PIX_FMT_YUV420P)%Z; cbn [negb];
    [|by apply keeps_refl].
  pose proof (keeps_call output ids w Hprot) as Hcall.
  destruct (call_footprint output ids w) as (_ & Hsame & _).
  destruct (call w) as [[] w1]; cbn [negb snd] in *; [|done].
  eapply keeps_trans; [exact Hcall|].
  rewrite <- Hsame. apply keeps_on_plane, Hcall.
Qed.

Lemma keeps_optional (enabled : bool) (filter : World → World) w :
  (∀ w, protects output ids w → keeps output ids w (filter w)) →
  protects output ids w → keeps output ids w (if enabled then filter w else w).
Proof. intros Hfilter Hprot. destruct enabled; [auto|by apply keeps_refl]. Qed.

Lemma should_process_frame_total frame_pts p :
  total_output_frames_ (should_process_frame frame_pts p).2 = total_output_frames_ p.
Proof.
  unfold should_process_frame.
  destruct (speed_processing_enabled_ p); cbn [negb]; [|done].
  repeat (match goal with |- context [if ?c then _ else _] => destruct c end);
    reflexivity.
Qed.

(** [process_frame] touches no frame but the output frame and none of the
    protected buffers; it advances the output counter exactly when it
    returns [true], and then the output frame carries the old counter value
    as pts and dts, and duration 1. *)
Lemma process_frame_footprint input p w :
  protects output ids w →
  let '(processed, p', w') :=
    process_frame plane_layout sws_scale_pixels gl_rotate_pixels adjust_pixel
      (Some input) (Some output) p w in
  keeps output ids w w'
  ∧ total_output_frames_ p'
    = (total_output_frames_ p + if processed then 1 else 0)%Z
  ∧ (processed = true → is_Some (frames w !! output) →
     ∃ f, frames w' !! output = Some f
          ∧ pts f = total_output_frames_ p ∧ pkt_dts f = total_output_frames_ p
          ∧ duration f = 1%Z).
Proof.
  intros Hprot. unfold process_frame.
  destruct (initialized_ p); cbn [negb];
    [|split_and!; [by apply keeps_refl|lia|done]].
  pose proof (should_process_frame_total (pts (frame_at w input)) p) as Hgate.
  destruct (if speed_processing_enabled_ p
            then should_process_frame (pts (frame_at w input)) p else (true, p))
    as [keep p1] eqn:Hkeep.
  assert (Htotal : total_output_frames_ p1 = total_output_frames_ p).
  { destruct (speed_processing_enabled_ p); [|by simplify_eq].
    rewrite Hkeep in Hgate. done. }
  clear Hgate Hkeep.
  destruct keep; cbn [negb]; [|split_and!; [by apply keeps_refl|lia|done]].
  pose proof (keeps_allocate_output_frame (output_width_ p1) (output_height_ p1)
                (output_format_ p1) w Hprot) as Halloc.
  destruct (allocate_output_frame _ _ _ _ _ w) as [allocated w1]. cbn [snd] in Halloc.
  destruct allocated; cbn [negb]; [|split_and!; [done|lia|done]].
  assert (Hconvert : ∀ c w2,
    (if negb (rotation_angle (params_ p1) =? 0)%float
     then let '(rotated, w) := rotate_frame_opengl gl_rotate_pixels p1 input output w1 in
          if rotated then (true, w) else sws_scale sws_scale_pixels input output w
     else sws_scale sws_scale_pixels input output w1) = (c, w2) →
    keeps output ids w1 w2).
  { intros c w2. destruct (negb _).
    - pose proof (keeps_rotate_frame_opengl p1 input w1 (proj2 Halloc)) as Hrot.
      destruct (rotate_frame_opengl _ _ _ _ w1) as [rotated w'].
      cbn [snd] in Hrot. destruct rotated; [by intros [= <- <-]|].
      pose proof (keeps_sws_scale input w' (proj2 Hrot)) as Hscale.
      intros Heq. rewrite Heq in Hscale. by eapply keeps_trans.
    - pose proof (keeps_sws_scale input w1 (proj2 Halloc)) as Hscale.
      intros Heq. by rewrite Heq in Hscale. }
  destruct (if negb (rotation_angle (params_ p1) =? 0)%float then _ else _)
    as [converted w2] eqn:Hconv.
  specialize (Hconvert converted w2 eq_refl).
  assert (Hk2 : keeps output ids w w2) by (by eapply keeps_trans).
  destruct converted; cbn [negb]; [|split_and!; [done|lia|done]].
  set (w3 := if enable_grayscale (params_ p1) then apply_grayscale output w2 else w2).
  assert (Hk3 : keeps output ids w w3).
  { eapply keeps_trans; [exact Hk2|].
    apply keeps_optional; [apply keeps_apply_grayscale|apply Hk2]. }
  set (w4 := if _ || _ then apply_brightness_contrast adjust_pixel p1 output w3 else w3).
  assert (Hk4 : keeps output ids w w4).
  { eapply keeps_trans; [exact Hk3|].
    apply (keeps_optional _ (apply_brightness_contrast adjust_pixel p1 output));
      [apply keeps_apply_brightness_contrast|apply Hk3]. }
  set (w5 := if enable_blur (params_ p1) then apply_blur output w4 else w4).
  assert (Hk5 : keeps output ids w w5).
  { eapply keeps_trans; [exact Hk4|].
    apply keeps_optional; [apply keeps_apply_kernel|apply Hk4]. }
  set (w6 := if enable_sharpen (params_ p1) then apply_sharpen output w5 else w5).
  assert (Hk6 : keeps output ids w w6).
  { eapply keeps_trans; [exact Hk5|].
    apply keeps_optional; [apply keeps_apply_kernel|apply Hk5]. }
  split_and!.
  - eapply keeps_trans; [exact Hk6|].
    apply keeps_update_frame; [done|apply Hk6].
  - cbn. lia.
  - intros _ Hlive. destruct Hk6 as [(_ & Hdom & _) _].
    apply Hdom in Hlive as [f Hf].
    exists (stamp p1 f). unfold update_frame. cbn.
    rewrite lookup_alter_eq, Hf. cbn. by rewrite Htotal.
Qed.
End VideoFootprint.

(** ** The time stamps of the video processor thread *)

Section VideoLoop.
Import Mem VideoProcessor.
Implicit Types (w : World) (p : VideoProcessor.t)
  (q : ThreadSafeQueue.t (option nat)) (inputs : list nat).
Local Open Scope Z_scope.

Lemma frames_agree_except_trans a w1 w2 w3 :
  frames_agree_except a w1 w2 → frames_agree_except a w2 w3 →
  frames_agree_except a w1 w3.
Proof. intros H12 H23 b Hb. by rewrite H23, H12. Qed.

Lemma call_frames w : frames (call w).2 = frames w.
Proof. unfold call. by destruct (Script.next _). Qed.

Lemma av_frame_alloc_spec w :
  match av_frame_alloc w with
  | (Some a, w') => frames w !! a = None ∧ frames w' = <[a := blank_frame]> (frames w)
  | (None, w') => frames w' = frames w
  end.
Proof.
  unfold av_frame_alloc. pose proof (call_frames w) as Hcall.
  destruct (call w) as [[] w1]; cbn in *; [|done].
  rewrite Hcall. split; [|done].
  apply not_elem_of_dom. rewrite <- Hcall. apply is_fresh.
Qed.

Lemma update_frame_agree a g w : frames_agree_except a w (update_frame a g w).
Proof. intros b Hb. unfold update_frame. cbn. by rewrite lookup_alter_ne. Qed.

Lemma av_frame_free_agree a w :
  frames_agree_except a w (av_frame_free a w)
  ∧ frames (av_frame_free a w) !! a = None.
Proof.
  unfold av_frame_free, av_frame_unref, update_frame. cbn. split.
  - intros b Hb. cbn. by rewrite lookup_delete_ne, lookup_alter_ne.
  - apply lookup_delete_eq.
Qed.

Lemma av_frame_ref_agree dst src w :
  frames_agree_except dst w (av_frame_ref dst src w).2
  ∧ (is_Some (frames (av_frame_ref dst src w).2 !! dst) ↔ is_Some (frames w !! dst)).
Proof.
  unfold av_frame_ref. pose proof (call_frames w) as Hcall.
  destruct (call w) as [[] w1]; cbn in *.
  - unfold update_frame. cbn. split.
    + intros b Hb. cbn. by rewrite lookup_alter_ne, Hcall.
    + by rewrite lookup_alter_eq, fmap_is_Some, Hcall.
  - split; [intros b Hb|]; by rewrite Hcall.
Qed.

(** The invariant does not depend on frames outside the queue and the inputs. *)
Lemma loop_invariant_agree a inputs p q w w' :
  loop_invariant inputs p q w → frames_agree_except a w w' →
  Some a ∉ ThreadSafeQueue.queue_ q → a ∉ inputs →
  loop_invariant inputs p q w'.
Proof.
  intros (Hstamped & Htotal & Hlive & Hinputs) Hagree Hq Hin. split_and!; try done.
  - intros k unit Hk. destruct (Hstamped k unit Hk) as (b & f & -> & Hf & Hrest).
    exists b, f. split; [done|]. split; [|done].
    rewrite Hagree; [done|]. intros ->. apply Hq. by eapply list_elem_of_lookup_2.
  - intros b Hb. destruct (Hinputs b Hb) as [Hl Hnq]. split; [|done].
    rewrite Hagree; [done|]. by intros ->.
Qed.

Lemma loop_invariant_same_frames inputs p q w w' :
  loop_invariant inputs p q w → frames w' = frames w → loop_invariant inputs p q w'.
Proof.
  intros (Hstamped & Htotal & Hlive & Hinputs) Hframes.
  unfold loop_invariant, stamped_queue. rewrite Hframes. done.
Qed.

Lemma loop_invariant_weaken inputs inputs' p q w :
  loop_invariant inputs p q w → inputs' ⊆ inputs → loop_invariant inputs' p q w.
Proof.
  intros (Hstamped & Htotal & Hlive & Hinputs) Hsub. split_and!; try done.
  intros a Ha. apply Hinputs, Hsub, Ha.
Qed.

(** A frame that is not live is neither in the queue nor among the inputs. *)
Lemma loop_invariant_fresh a inputs p q w :
  loop_invariant inputs p q w → frames w !! a = None →
  (Some a ∉ ThreadSafeQueue.queue_ q) ∧ a ∉ inputs.
Proof.
  intros (Hstamped & _ & _ & Hinputs) Hnone. split.
  - intros [k Hk]%list_elem_of_lookup.
    destruct (Hstamped k _ Hk) as (b & f & [= <-] & Hf & _). congruence.
  - intros Hin. destruct (Hinputs a Hin) as [[f Hf] _]. congruence.
Qed.

(** Pushing a frame stamped with the output counter. *)
Lemma loop_invariant_push a f inputs p q w :
  loop_invariant inputs p q w →
  frames w !! a = Some f →
  pts f = total_output_frames_ p → pkt_dts f = total_output_frames_ p →
  duration f = 1 → a ∉ inputs →
  loop_invariant inputs
    (set_counters (frame_counter_ p) (total_output_frames_ p + 1) p)
    (ThreadSafeQueue.push (Some a) q) w.
Proof.
  intros (Hstamped & Htotal & Hlive & Hinputs) Hf Hpts Hdts Hdur Hin.
  unfold loop_invariant, ThreadSafeQueue.push. rewrite Hlive. cbn.
  split_and!; try done.
  - intros k unit Hk.
    destruct (decide (k < length (ThreadSafeQueue.queue_ q))%nat) as [Hlt|Hge].
    + rewrite lookup_app_l in Hk by done. by apply Hstamped.
    + rewrite lookup_app_r in Hk by lia.
      destruct (k - length (ThreadSafeQueue.queue_ q))%nat as [|k'] eqn:Hk';
        [|by destruct k'].
      cbn in Hk. simplify_eq. exists a, f.
      assert (k = length (ThreadSafeQueue.queue_ q)) as -> by lia.
      split_and!; congruence.
  - rewrite length_app. cbn. lia.
  - intros b Hb. destruct (Hinputs b Hb) as [Hl Hnq]. split; [done|].
    intros [?|Heq%list_elem_of_singleton]%elem_of_app; [done|].
    by simplify_eq.
Qed.

(** Allocating a frame keeps the invariant, and the new frame is live,
    outside the queue and not an input. *)
Lemma av_frame_alloc_invariant inputs p q w :
  loop_invariant inputs p q w →
  match av_frame_alloc w with
  | (Some a, w') =>
      loop_invariant inputs p q w' ∧ frames w' !! a = Some blank_frame
      ∧ (Some a ∉ ThreadSafeQueue.queue_ q) ∧ a ∉ inputs
  | (None, w') => loop_invariant inputs p q w'
  end.
Proof.
  intros Hinv. pose proof (av_frame_alloc_spec w) as Hspec.
  destruct (av_frame_alloc w) as [[a|] w'];
    [|by apply (loop_invariant_same_frames inputs p q w)].
  destruct Hspec as [Hnone Hframes].
  destruct (loop_invariant_fresh a inputs p q w Hinv Hnone) as [Hq Hin].
  split_and!; try done.
  - apply (loop_invariant_agree a inputs p q w); try done.
    intros b Hb. rewrite Hframes. by rewrite lookup_insert_ne.
  - rewrite Hframes. apply lookup_insert_eq.
Qed.

Lemma duplicate_frames_invariant count : ∀ output inputs p q w,
  loop_invariant inputs p q w →
  let '(p', q', w') := duplicate_frames count output p q w in
  loop_invariant inputs p' q' w'.
Proof.
  induction count as [|count IH]; intros output inputs p q w Hinv; [done|].
  cbn [duplicate_frames].
  pose proof (av_frame_alloc_invariant inputs p q w Hinv) as Halloc.
  destruct (av_frame_alloc w) as [[dup|] w1]; [|done].
  destruct Halloc as (Hinv1 & Hdup & Hq & Hin).
  destruct (av_frame_ref_agree dup output w1) as [Hagree Hlive].
  destruct (av_frame_ref dup output w1) as [referenced w2]. cbn [snd] in *.
  assert (Hinv2 : loop_invariant inputs p q w2)
    by (by apply (loop_invariant_agree dup inputs p q w1)).
  destruct referenced.
  - cbn [get_next_frame_pts].
    destruct (proj2 Hlive (mk_is_Some _ _ Hdup)) as [f2 Hf2].
    match goal with
    | |- context [update_frame dup ?g w2] =>
        set (w3 := update_frame dup g w2);
        assert (Hf3 : frames w3 !! dup = Some (g f2))
          by (unfold w3, update_frame; cbn; by rewrite lookup_alter_eq, Hf2)
    end.
    apply IH.
    eapply (loop_invariant_push dup _ inputs p q w3); [|exact Hf3|done..].
    apply (loop_invariant_agree dup inputs p q w2); try done.
    apply update_frame_agree.
  - apply (loop_invariant_agree dup inputs p q w2); try done.
    apply av_frame_free_agree.
Qed.

Variable plane_layout : Z → Z → Z → list (Z * nat).
Variable sws_scale_pixels : list (list Z) → list (list Z).
Variable gl_rotate_pixels : float → list (list Z) → list (list Z).
Variable adjust_pixel : float → float → Z → Z.

(** One input frame: the body of the loop keeps the invariant and consumes
    the input. *)
Lemma process_loop_stamped params input_finished : ∀ pending p q w,
  NoDup (omap id pending) →
  loop_invariant (omap id pending) p q w →
  let r := process_loop plane_layout sws_scale_pixels gl_rotate_pixels adjust_pixel
             params pending input_finished p q w in
  stamped_queue (ThreadSafeQueue.queue_ (output_queue_ r)) (world_ r).
Proof.
  induction pending as [|unit rest IH]; intros p q w Hnodup Hinv; cbn [process_loop].
  { destruct input_finished; apply Hinv. }
  destruct unit as [input|]; [|apply Hinv].
  cbn [omap id] in Hnodup, Hinv.
  change (omap id (Some input :: rest)) with (input :: omap id rest) in *.
  apply NoDup_cons in Hnodup as [Hfirst Hnodup].
  assert (Hinput : Some input ∉ ThreadSafeQueue.queue_ q).
  { destruct Hinv as (_ & _ & _ & Hin). apply (Hin input). by left. }
  (* what remains to do once the output frame has been dealt with *)
  assert (Hfree : ∀ p' q' w',
    loop_invariant (input :: omap id rest) p' q' w' →
    stamped_queue
      (ThreadSafeQueue.queue_
         (output_queue_ (process_loop plane_layout sws_scale_pixels gl_rotate_pixels
                           adjust_pixel params rest input_finished p' q'
                           (av_frame_free input w'))))
      (world_ (process_loop plane_layout sws_scale_pixels gl_rotate_pixels
                 adjust_pixel params rest input_finished p' q'
                 (av_frame_free input w')))).
  { intros p' q' w' Hinv'. apply IH; [done|].
    apply (loop_invariant_agree input _ p' q' w'); [| |..|done].
    - apply (loop_invariant_weaken (input :: omap id rest)); [done|].
      intros a Ha. by right.
    - apply av_frame_free_agree.
    - destruct Hinv' as (_ & _ & _ & Hin). apply (Hin input). by left. }
  pose proof (av_frame_alloc_invariant _ p q w Hinv) as Halloc.
  destruct (av_frame_alloc w) as [[output|] w1]; [|by apply Hfree].
  destruct Halloc as (Hinv1 & Hblank & Hq & Hin).
  pose proof (process_frame_footprint plane_layout sws_scale_pixels gl_rotate_pixels
                adjust_pixel output [] input p w1) as Hfoot.
  destruct (process_frame _ _ _ _ (Some input) (Some output) p w1)
    as [[processed p1] w2].
  destruct Hfoot as ([(Hagree & _ & _) _] & Htotal & Hstamp).
  { split; [by intros id ?%elem_of_nil|]. intros id _. apply not_elem_of_nil. }
  assert (Hinv2 : loop_invariant (input :: omap id rest) p q w2)
    by (by apply (loop_invariant_agree output _ p q w1)).
  destruct processed.
  - destruct (Hstamp eq_refl (mk_is_Some _ _ Hblank)) as (f & Hf & Hpts & Hdts & Hdur).
    pose proof (loop_invariant_push output f _ p q w2 Hinv2 Hf Hpts Hdts Hdur Hin)
      as Hpushed.
    assert (Hp1 : loop_invariant (input :: omap id rest) p1
                    (ThreadSafeQueue.push (Some output) q) w2).
    { destruct Hpushed as (? & Hlen & ? & ?). split_and!; try done.
      rewrite Htotal. cbn in Hlen. lia. }
    destruct (enable_speed_change params && (speed_factor params <? 1)%float).
    + pose proof (duplicate_frames_invariant
                    (Z.to_nat (Numeric.double_to_int (1 / speed_factor params) - 1))
                    output _ p1 _ w2 Hp1) as Hdup.
      destruct (duplicate_frames _ output p1 _ w2) as [[p3 q3] w3].
      by apply Hfree.
    + by apply Hfree.
  - apply Hfree.
    assert (Hsame : loop_invariant (input :: omap id rest) p1 q w2).
    { destruct Hinv2 as (? & Hlen & ? & ?). split_and!; try done.
      rewrite Htotal. lia. }
    apply (loop_invariant_agree output _ p1 q w2); try done.
    apply av_frame_free_agree.
Qed.
End VideoLoop.

Lemma initialize_spec input_width input_height input_format params w :
  let '(ok, p, w') :=
    VideoProcessor.initialize input_width input_height input_format params
      VideoProcessor.new w in
  VideoProcessor.total_output_frames_ p = 0%Z ∧ Mem.frames w' = Mem.frames w.
Proof.
  unfold VideoProcessor.initialize.
  repeat match goal with
  | |- context [Mem.call ?w0] =>
      let H := fresh "Hcall" in
      pose proof (call_frames w0) as H;
      destruct (Mem.call w0) as [[] ?]; cbn [snd negb] in *
  | |- context [if negb ?c then _ else _] => destruct c; cbn [negb]
  | |- context [if ?c then _ else _] => destruct c
  end; cbn; split; congruence.
Qed.

(** C1: whatever the input frames (distinct live frames) and whatever the
    outcomes of the external calls, the k-th unit (from 0) that the video
    processor thread leaves in a fresh output queue is a live frame with
    pts = k, dts = pts and duration = 1 -- originals and duplicates alike. *)
Theorem video_output_pts_are_frame_indices
    (plane_layout : Z → Z → Z → list (Z * nat))
    (sws_scale_pixels : list (list Z) → list (list Z))
    (gl_rotate_pixels : float → list (list Z) → list (list Z))
    (adjust_pixel : float → float → Z → Z)
    (input_queue : ThreadSafeQueue.t (option nat))
    (params : VideoProcessor.VideoProcessParams)
    (input_width input_height input_format : Z) (w : Mem.World) :
  NoDup (omap id (ThreadSafeQueue.queue_ input_queue)) →
  Forall (λ a, is_Some (Mem.frames w !! a)) (omap id (ThreadSafeQueue.queue_ input_queue)) →
  let r := VideoProcessor.video_process_thread_func plane_layout sws_scale_pixels
             gl_rotate_pixels adjust_pixel input_queue ThreadSafeQueue.new params
             input_width input_height input_format w in
  ∀ (k : nat) unit,
    ThreadSafeQueue.queue_ (VideoProcessor.output_queue_ r) !! k = Some unit →
    ∃ a f, unit = Some a ∧ Mem.frames (VideoProcessor.world_ r) !! a = Some f
           ∧ Mem.pts f = Z.of_nat k ∧ Mem.pkt_dts f = Mem.pts f ∧ Mem.duration f = 1%Z.
Proof.
  intros Hnodup Hlive r.
  assert (Hstamped : VideoProcessor.stamped_queue
            (ThreadSafeQueue.queue_ (VideoProcessor.output_queue_ r))
            (VideoProcessor.world_ r)).
  { subst r. unfold VideoProcessor.video_process_thread_func.
    pose proof (initialize_spec input_width input_height input_format params w) as Hinit.
    destruct (VideoProcessor.initialize _ _ _ _ _ w) as [[initialized p] w1].
    destruct Hinit as [Htotal Hframes].
    destruct initialized; cbn [negb]; [|intros k unit Hk; by cbn in Hk].
    apply process_loop_stamped; [done|].
    split_and!; try done.
    intros a Ha. rewrite Hframes. split; [|apply not_elem_of_nil].
    by apply (proj1 (Forall_forall _ _) Hlive). }
  intros k unit Hk. destruct (Hstamped k unit Hk) as (a & f & ? & ? & ? & ? & ?).
  exists a, f. split_and!; congruence.
Qed.

Lemma video_output_pts_are_frame_indices_witness :
  ∃ a f,
    Some 4%nat = Some a
    ∧ Mem.frames
        (VideoProcessor.world_
           (VideoProcessor.video_process_thread_func Scenario.yuv420p_layout id (λ _, id)
              (λ _ _, id) (ThreadSafeQueue.mk [Some 0%nat; Some 1%nat] true)
              ThreadSafeQueue.new Scenario.slow_motion 4 4 0 Scenario.video_world))
      !! a = Some f
    ∧ Mem.pts f = Z.of_nat 1 ∧ Mem.pkt_dts f = Mem.pts f ∧ Mem.duration f = 1%Z.
Proof.
  refine (video_output_pts_are_frame_indices Scenario.yuv420p_layout id (λ _, id)
            (λ _ _, id) (ThreadSafeQueue.mk [Some 0%nat; Some 1%nat] true)
            Scenario.slow_motion 4 4 0 Scenario.video_world _ _ 1%nat (Some 4%nat) _).
  - apply (bool_decide_unpack _). vm_compute. exact I.
  - apply (bool_decide_unpack _). vm_compute. exact I.
  - vm_compute. reflexivity.
Defined.

(** At half speed two input frames (stamped 9000 and 12000) give four
    output frames stamped 0, 1, 2, 3. *)
Example slow_motion_pts :
  Scenario.output_pts
    (VideoProcessor.video_process_thread_func Scenario.yuv420p_layout id (λ _, id)
       (λ _ _, id) (ThreadSafeQueue.mk [Some 0%nat; Some 1%nat] true)
       ThreadSafeQueue.new Scenario.slow_motion 4 4 0 Scenario.video_world)
  = [Some 0; Some 1; Some 2; Some 3]%Z.
Proof. vm_compute. reflexivity. Qed.

(** C10: a call of [process_frame] on an input frame whose plane buffers
    are live and an output frame that is another frame and holds none of
    those buffers leaves the input frame as it was -- its structure
    (dimensions, format, time stamps, plane pointers) and the reference
    count and every byte of each of its planes -- whether the call
    succeeds, drops the frame or fails. *)
Theorem process_frame_leaves_input_unchanged
    (plane_layout : Z → Z → Z → list (Z * nat))
    (sws_scale_pixels : list (list Z) → list (list Z))
    (gl_rotate_pixels : float → list (list Z) → list (list Z))
    (adjust_pixel : float → float → Z → Z)
    (input output : nat) (p : VideoProcessor.t) (w : Mem.World) :
  input ≠ output →
  Forall (λ id, is_Some (Mem.buffers w !! id)) (Mem.data (Mem.frame_at w input)) →
  Forall (λ id, id ∉ Mem.data (Mem.frame_at w input)) (Mem.data (Mem.frame_at w output)) →
  Mem.frame_view input
    (VideoProcessor.process_frame plane_layout sws_scale_pixels gl_rotate_pixels
       adjust_pixel (Some input) (Some output) p w).2
  = Mem.frame_view input w.
Proof.
  intros Hne Hlive Hseparate.
  pose proof (process_frame_footprint plane_layout sws_scale_pixels gl_rotate_pixels
                adjust_pixel output (Mem.data (Mem.frame_at w input)) input p w) as Hfoot.
  destruct (VideoProcessor.process_frame _ _ _ _ _ _ p w) as [[processed p'] w'].
  destruct Hfoot as ([(Hframes & _ & Hbuffers) _] & _).
  { split; [by apply Forall_forall|by apply Forall_forall]. }
  cbn [snd]. unfold Mem.frame_view, Mem.frame_at.
  rewrite (Hframes input Hne). f_equal.
  apply list_fmap_ext. intros i id Hid. apply Hbuffers.
  by eapply list_elem_of_lookup_2.
Qed.

Lemma process_frame_leaves_input_unchanged_witness :
  Mem.frame_view 0
    (VideoProcessor.process_frame Scenario.yuv420p_layout id (λ _, id) (λ _ _, id)
       (Some 0%nat) (Some 2%nat) Scenario.initialized_processor Scenario.video_world).2
  = Mem.frame_view 0 Scenario.video_world.
Proof.
  apply (process_frame_leaves_input_unchanged Scenario.yuv420p_layout id (λ _, id)
           (λ _ _, id) 0%nat 2%nat Scenario.initialized_processor Scenario.video_world).
  - lia.
  - apply (bool_decide_unpack _). vm_compute. exact I.
  - apply (bool_decide_unpack _). vm_compute. exact I.
Defined.

(** * Further verified properties *)

(** ** The queue as a FIFO channel (include/queue.h) *)

Section QueueChannel.
Context {T : Type}.
Import ThreadSafeQueue.

Lemma push_all_live (values : list T) : ∀ q,
  finished_ q = false → push_all values q = mk (queue_ q ++ values) false.
Proof.
  induction values as [|v values IH]; intros [l f] Hlive; cbn in *; subst f.
  - by rewrite app_nil_r.
  - unfold push_all in IH. rewrite IH by done. cbn. by rewrite <- app_assoc.
Qed.

Lemma consume_all (finished : bool) (l : list T) : ∀ fuel,
  (length l < fuel)%nat →
  consume fuel (mk l finished)
  = (l, mk [] finished, Some (if finished then Closed else WouldBlock)).
Proof.
  induction l as [|v l IH]; intros [|fuel] Hfuel; cbn in *; try lia.
  - by destruct finished.
  - rewrite IH by lia. done.
Qed.

Lemma apply_op_finished (q : t T) (o : op T) :
  finished_ q = true →
  finished_ (apply_op q o) = true
  ∧ ∃ n, queue_ (apply_op q o) = drop n (queue_ q).
Proof.
  destruct q as [l f]. cbn. intros ->.
  destruct o as [v| |]; cbn.
  - split; [done|]. by exists 0%nat.
  - destruct l as [|v rest]; cbn.
    + split; [done|]. by exists 0%nat.
    + split; [done|]. by exists 1%nat.
  - split; [done|]. by exists 0%nat.
Qed.
End QueueChannel.

(** X1: the queue is a FIFO channel.  Whatever a live queue already holds
    and whatever the producer pushes afterwards, a consumer looping on
    [pop] obtains the old content followed by the pushed values, in push
    order and without loss or duplication; the loop then ends with [pop]
    returning [false] if the producer has called [finish], and otherwise
    the consumer stays suspended in [pop] on the emptied queue. *)
Theorem queue_delivers_in_push_order {T : Type} (q : ThreadSafeQueue.t T)
    (values : list T) (fuel : nat) :
  ThreadSafeQueue.finished_ q = false →
  (length (ThreadSafeQueue.queue_ q ++ values) < fuel)%nat →
  ThreadSafeQueue.consume fuel (ThreadSafeQueue.finish (ThreadSafeQueue.push_all values q))
  = (ThreadSafeQueue.queue_ q ++ values, ThreadSafeQueue.mk [] true,
     Some ThreadSafeQueue.Closed)
  ∧ ThreadSafeQueue.consume fuel (ThreadSafeQueue.push_all values q)
    = (ThreadSafeQueue.queue_ q ++ values, ThreadSafeQueue.mk [] false,
       Some ThreadSafeQueue.WouldBlock).
Proof.
  intros Hlive Hfuel. rewrite push_all_live by done.
  split; [apply (consume_all true)|apply (consume_all false)]; done.
Qed.

Lemma queue_delivers_in_push_order_witness :
  ThreadSafeQueue.consume 4
    (ThreadSafeQueue.finish
       (ThreadSafeQueue.push_all [2%Z; 3%Z] (ThreadSafeQueue.mk [1%Z] false)))
  = ([1%Z; 2%Z; 3%Z], ThreadSafeQueue.mk [] true, Some ThreadSafeQueue.Closed).
Proof.
  apply (queue_delivers_in_push_order (ThreadSafeQueue.mk [1%Z] false) [2%Z; 3%Z] 4);
    [reflexivity | simpl; lia].
Defined.

(** X2: [finish] is final.  After [finish], whatever sequence of [push],
    [pop] and [finish] calls follows, the queue stays finished and its
    content is a suffix of what it held when it was finished: every value
    pushed later is discarded, and nothing but [pop] changes the content. *)
Theorem finish_is_final {T : Type} (q : ThreadSafeQueue.t T)
    (ops : list (ThreadSafeQueue.op T)) :
  let q' := foldl ThreadSafeQueue.apply_op (ThreadSafeQueue.finish q) ops in
  ThreadSafeQueue.finished_ q' = true
  ∧ ∃ n, ThreadSafeQueue.queue_ q' = drop n (ThreadSafeQueue.queue_ q).
Proof.
  cbn zeta.
  assert (Hgen : ∀ q0 : ThreadSafeQueue.t T, ThreadSafeQueue.finished_ q0 = true →
    ThreadSafeQueue.finished_ (foldl ThreadSafeQueue.apply_op q0 ops) = true
    ∧ ∃ n, ThreadSafeQueue.queue_ (foldl ThreadSafeQueue.apply_op q0 ops)
           = drop n (ThreadSafeQueue.queue_ q0)).
  { induction ops as [|o ops IH]; intros q0 Hfin; cbn.
    - split; [done|]. by exists 0%nat.
    - destruct (apply_op_finished q0 o Hfin) as [Hfin' [n Hn]].
      destruct (IH _ Hfin') as [Hfin'' [m Hm]].
      split; [done|]. exists (n + m)%nat. rewrite Hm, Hn. by rewrite drop_drop. }
  apply (Hgen (ThreadSafeQueue.finish q)). reflexivity.
Qed.

(** ** Stream selection and packet dispatch of the demuxer (src/demuxer.cpp) *)

Section DemuxerFacts.
Import Demuxer.
Local Open Scope Z_scope.

Lemma stream_loop_snoc {A : Type} (body : A → Z → AVStream → A) ss : ∀ acc i stream,
  stream_loop body acc i (ss ++ [stream])
  = body (stream_loop body acc i ss) (i + Z.of_nat (length ss)) stream.
Proof.
  induction ss as [|s ss IH]; intros acc i stream; cbn [stream_loop app length].
  - by rewrite Z.add_0_r.
  - rewrite IH. f_equal. lia.
Qed.

Lemma first_stream_cons type stream ss :
  first_stream type (stream :: ss)
  = if decide (codec_type stream = type) then Some (0%nat, stream)
    else prod_map S id <$> first_stream type ss.
Proof. reflexivity. Qed.

(** The video half and the audio half of what the probe loop computes. *)
Lemma probe_loop_spec ss : ∀ info i, 0 ≤ i →
  let r := stream_loop probe_stream info i ss in
  video_summary r
  = (if video_stream_index info =? -1
     then match first_stream AVMEDIA_TYPE_VIDEO ss with
          | Some (k, stream) => video_summary_of (i + Z.of_nat k) stream (video_fps info)
          | None => video_summary info
          end
     else video_summary info)
  ∧ audio_summary r
    = (if audio_stream_index info =? -1
       then match first_stream AVMEDIA_TYPE_AUDIO ss with
            | Some (k, stream) => audio_summary_of (i + Z.of_nat k) stream
            | None => audio_summary info
            end
       else audio_summary info).
Proof.
  induction ss as [|stream ss IH]; intros info i Hi; cbn zeta.
  - cbn. by destruct (video_stream_index info =? -1), (audio_stream_index info =? -1).
  - cbn [stream_loop]. destruct (IH (probe_stream info i stream) (i + 1)) as [IHv IHa]; [lia|].
    cbn zeta in IHv, IHa. rewrite IHv, IHa. clear IHv IHa IH.
    rewrite !first_stream_cons. unfold probe_stream.
    destruct (video_stream_index info =? -1) eqn:Ev;
      destruct (audio_stream_index info =? -1) eqn:Ea;
      destruct (codec_type stream) eqn:Htype;
      repeat case_bool_decide; try done; repeat case_decide; try done;
      cbn [andb video_stream_index audio_stream_index];
      rewrite ?Ev, ?Ea; cbn [andb video_stream_index audio_stream_index];
      try (assert ((i =? -1) = false) as -> by lia);
      rewrite ?Ev, ?Ea, ?Z.add_0_r;
      (split; try reflexivity);
      destruct (first_stream _ ss) as [[k s]|]; cbn; try reflexivity;
      by replace (i + Z.of_nat (S k)) with (i + 1 + Z.of_nat k) by lia.
Qed.
Lemma last_stream_index_snoc type ss stream :
  last_stream_index type (ss ++ [stream])
  = if decide (codec_type stream = type) then Z.of_nat (length ss)
    else last_stream_index type ss.
Proof.
  unfold last_stream_index. rewrite reverse_snoc, length_app. cbn [list_find length].
  case_decide; cbn; [lia|].
  destruct (list_find _ (reverse ss)) as [[k s]|]; cbn; lia.
Qed.

(** The index loop of the dispatch function keeps the last stream of each
    enabled media type. *)
Lemma select_loop_spec params ss :
  stream_loop (select_stream params) (-1, -1) 0 ss
  = (if enable_video params then last_stream_index AVMEDIA_TYPE_VIDEO ss else -1,
     if enable_audio params then last_stream_index AVMEDIA_TYPE_AUDIO ss else -1).
Proof.
  induction ss as [|stream ss IH] using rev_ind.
  - cbn. by destruct (enable_video params), (enable_audio params).
  - rewrite stream_loop_snoc, IH, !last_stream_index_snoc. unfold select_stream.
    destruct (codec_type stream) eqn:Htype; repeat case_bool_decide; try done;
      repeat case_decide; try done;
      destruct (enable_video params), (enable_audio params); cbn; reflexivity.
Qed.

Lemma last_stream_indices_distinct ss :
  last_stream_index AVMEDIA_TYPE_VIDEO ss < Z.of_nat (length ss)
  ∧ last_stream_index AVMEDIA_TYPE_AUDIO ss < Z.of_nat (length ss)
  ∧ (last_stream_index AVMEDIA_TYPE_VIDEO ss = last_stream_index AVMEDIA_TYPE_AUDIO ss →
     last_stream_index AVMEDIA_TYPE_VIDEO ss = -1).
Proof.
  induction ss as [|stream ss (Hv & Ha & Hdiff)] using rev_ind.
  - cbn. lia.
  - rewrite !last_stream_index_snoc, length_app. cbn [length].
    destruct (codec_type stream); repeat case_decide; try done; lia.
Qed.

Lemma packets_on_cons index packet pending :
  packets_on index (packet :: pending)
  = if stream_index packet =? index then packet :: packets_on index pending
    else packets_on index pending.
Proof.
  unfold packets_on. rewrite filter_cons.
  case_decide; destruct (Z.eqb_spec (stream_index packet) index); done.
Qed.

(** Without a frame limit the read loop hands every packet of the two
    selected stream indices to its queue. *)
Lemma read_loop_dispatch params vi ai :
  vi ≠ ai → max_frames params ≤ 0 → ∀ pending vq aq vc ac,
  read_loop params (vi, ai) pending (mkResult vq aq vc ac)
  = mkResult
      (ThreadSafeQueue.push_all (Some <$> packets_on vi pending) <$> vq)
      (ThreadSafeQueue.push_all (Some <$> packets_on ai pending) <$> aq)
      (vc + match vq with
            | Some _ => Z.of_nat (length (packets_on vi pending))
            | None => 0
            end)
      (ac + match aq with
            | Some _ => Z.of_nat (length (packets_on ai pending))
            | None => 0
            end).
Proof.
  intros Hdiff Hmax.
  assert (Hlimit : (0 <? max_frames params) = false) by lia.
  induction pending as [|packet pending IH]; intros vq aq vc ac.
  - cbn. destruct vq, aq; cbn; f_equal; lia.
  - cbn [read_loop fst snd video_packet_queue_ audio_packet_queue_
         video_frame_count audio_frame_count].
    rewrite !packets_on_cons.
    destruct (Z.eqb_spec (stream_index packet) vi) as [Hv|Hv];
      destruct (Z.eqb_spec (stream_index packet) ai) as [Ha|Ha];
      try (exfalso; congruence);
      destruct vq as [vq|], aq as [aq|];
      repeat case_bool_decide;
      try match goal with H : ¬ is_Some (Some _) |- _ => destruct H; eauto end;
      try match goal with H : is_Some None |- _ => by destruct H end;
      cbn [andb video_frame_count]; rewrite Hlimit; cbn [andb];
      rewrite IH; cbn; f_equal; lia.
Qed.
(** With a frame limit the read loop stops right after the video packet
    that reaches the limit. *)
Lemma read_loop_limit params vi ai :
  0 < max_frames params → ∀ pending vq aq vc ac, vc < max_frames params →
  let r := read_loop params (vi, ai) pending (mkResult (Some vq) aq vc ac) in
  let taken := take (Z.to_nat (max_frames params - vc)) (packets_on vi pending) in
  video_packet_queue_ r = Some (ThreadSafeQueue.push_all (Some <$> taken) vq)
  ∧ video_frame_count r = vc + Z.of_nat (length taken).
Proof.
  intros Hmax.
  assert (Hlimit : (0 <? max_frames params) = true) by lia.
  induction pending as [|packet pending IH]; intros vq aq vc ac Hvc; cbn zeta.
  - cbn. rewrite take_nil. cbn. split; [done|lia].
  - cbn [read_loop fst snd video_packet_queue_ audio_packet_queue_
         video_frame_count audio_frame_count].
    rewrite packets_on_cons, Hlimit.
    rewrite (bool_decide_eq_true_2 (is_Some (Some vq))) by eauto.
    destruct (Z.eqb_spec (stream_index packet) vi) as [Hv|Hv]; cbn [andb].
    + cbn [video_frame_count].
      replace (Z.to_nat (max_frames params - vc))
        with (S (Z.to_nat (max_frames params - (vc + 1)))) by lia.
      cbn [take fmap list_fmap length].
      destruct (Z.leb_spec (max_frames params) (vc + 1)) as [Hstop|Hgo].
      * replace (Z.to_nat (max_frames params - (vc + 1))) with 0%nat by lia.
        rewrite take_0. cbn. split; [done|lia].
      * destruct (IH (ThreadSafeQueue.push (Some packet) vq) aq (vc + 1) ac) as [Hq Hc];
          [lia|].
        cbn zeta in Hq, Hc. cbn [push_to fmap option_fmap option_map].
        rewrite Hq, Hc. split; [done|lia].
    + assert (Hrest : ∀ aq' ac',
        let r := read_loop params (vi, ai) pending (mkResult (Some vq) aq' vc ac') in
        video_packet_queue_ r
        = Some (ThreadSafeQueue.push_all
                  (Some <$> take (Z.to_nat (max_frames params - vc))
                                 (packets_on vi pending)) vq)
        ∧ video_frame_count r
          = vc + Z.of_nat (length (take (Z.to_nat (max_frames params - vc))
                                        (packets_on vi pending)))).
      { intros aq' ac'. by apply IH. }
      destruct ((stream_index packet =? ai) && bool_decide (is_Some aq));
        cbn [video_frame_count];
        (destruct (Z.leb_spec (max_frames params) vc); [lia|]); apply Hrest.
Qed.
End DemuxerFacts.

(** X3: [get_stream_info] reports the first video stream and the first
    audio stream of the container.  Called on a [StreamInfo] whose two
    indices are still -1, for a file that opens and can be probed, it
    returns the index, the codec parameters, the size, the pixel or sample
    format, the frame rate (integer quotient of [r_frame_rate], kept as it
    was when a term is not positive), the sample rate and the channel
    count of the first stream of each type; what no stream has is left as
    it was; and the result is [true] exactly when the container has a
    video or an audio stream. *)
Theorem get_stream_info_reports_first_streams (input : Demuxer.Input)
    (info : Demuxer.StreamInfo) :
  Demuxer.opens input = true →
  Demuxer.has_stream_info input = true →
  Demuxer.video_stream_index info = (-1)%Z →
  Demuxer.audio_stream_index info = (-1)%Z →
  let video := Demuxer.first_stream Demuxer.AVMEDIA_TYPE_VIDEO (Demuxer.streams input) in
  let audio := Demuxer.first_stream Demuxer.AVMEDIA_TYPE_AUDIO (Demuxer.streams input) in
  let r := Demuxer.get_stream_info input info in
  Demuxer.video_summary r.2
  = match video with
    | Some (k, stream) =>
        Demuxer.video_summary_of (Z.of_nat k) stream (Demuxer.video_fps info)
    | None => Demuxer.video_summary info
    end
  ∧ Demuxer.audio_summary r.2
    = match audio with
      | Some (k, stream) => Demuxer.audio_summary_of (Z.of_nat k) stream
      | None => Demuxer.audio_summary info
      end
  ∧ (r.1 = true ↔ is_Some video ∨ is_Some audio).
Proof.
  intros Hopen Hinfo Hv Ha video audio r.
  subst r. unfold Demuxer.get_stream_info. rewrite Hopen, Hinfo. cbn [negb fst snd].
  destruct (probe_loop_spec (Demuxer.streams input) info 0) as [Hvideo Haudio]; [lia|].
  cbn zeta in Hvideo, Haudio. rewrite Hv, Ha in *. cbn [Z.eqb Pos.eqb] in *.
  fold video in Hvideo. fold audio in Haudio.
  split; [|split].
  - rewrite Hvideo. by destruct video as [[k s]|].
  - rewrite Haudio. by destruct audio as [[k s]|].
  - assert (Hvi : Demuxer.video_stream_index
                    (Demuxer.stream_loop Demuxer.probe_stream info 0 (Demuxer.streams input))
                  = match video with Some (k, _) => Z.of_nat k | None => (-1)%Z end).
    { unfold Demuxer.video_summary in Hvideo.
      destruct video as [[k s]|]; [|rewrite Hv in Hvideo]; by injection Hvideo. }
    assert (Hai : Demuxer.audio_stream_index
                    (Demuxer.stream_loop Demuxer.probe_stream info 0 (Demuxer.streams input))
                  = match audio with Some (k, _) => Z.of_nat k | None => (-1)%Z end).
    { unfold Demuxer.audio_summary in Haudio.
      destruct audio as [[k s]|]; [|rewrite Ha in Haudio]; by injection Haudio. }
    rewrite Hvi, Hai, orb_true_iff, !Z.leb_le.
    destruct video as [[kv sv]|], audio as [[ka sa]|]; split;
      try (intros _; eauto; lia); try (intros [?|?]; lia).
    intros [[? [=]]|[? [=]]].
Qed.

Lemma get_stream_info_reports_first_streams_witness :
  let r := Demuxer.get_stream_info Scenario.two_video_streams Demuxer.default_info in
  Demuxer.video_summary r.2
  = (0%Z, Some (Demuxer.mkStream Demuxer.AVMEDIA_TYPE_VIDEO 640 480 0 (24, 1) 0 0)%Z,
     640%Z, 480%Z, 24%Z, 0%Z)
  ∧ Demuxer.audio_summary r.2
    = (2%Z, Some (Demuxer.mkStream Demuxer.AVMEDIA_TYPE_AUDIO 0 0 8 (0, 0) 44100 2)%Z,
       44100%Z, 2%Z, 8%Z)
  ∧ (r.1 = true
     ↔ is_Some (Demuxer.first_stream Demuxer.AVMEDIA_TYPE_VIDEO
                  (Demuxer.streams Scenario.two_video_streams))
       ∨ is_Some (Demuxer.first_stream Demuxer.AVMEDIA_TYPE_AUDIO
                    (Demuxer.streams Scenario.two_video_streams))).
Proof.
  apply (get_stream_info_reports_first_streams
           Scenario.two_video_streams Demuxer.default_info); reflexivity.
Defined.

(** X4: what the demuxer thread dispatches.  For a file that opens and
    can be probed, and without a frame limit, the thread selects the last
    video stream and the last audio stream of the container (of the media
    types that are enabled).  If it selects none it returns with both
    queues untouched, and not finished.  Otherwise each queue that was
    given receives the packets of its stream, all of them and in file
    order, the packets of every other stream are dropped, both queues are
    finished, and the counters hold the numbers of packets dispatched. *)
Theorem demuxer_dispatches_selected_streams (params : Demuxer.DemuxerParams)
    (vq aq : Demuxer.packet_queue) :
  let input := Demuxer.input_filename params in
  let vi := if Demuxer.enable_video params
            then Demuxer.last_stream_index Demuxer.AVMEDIA_TYPE_VIDEO (Demuxer.streams input)
            else (-1)%Z in
  let ai := if Demuxer.enable_audio params
            then Demuxer.last_stream_index Demuxer.AVMEDIA_TYPE_AUDIO (Demuxer.streams input)
            else (-1)%Z in
  let dispatched index q :=
    ThreadSafeQueue.finish
      (ThreadSafeQueue.push_all (Some <$> Demuxer.packets_on index (Demuxer.packets input)) q) in
  let count index (q : Demuxer.packet_queue) :=
    match q with
    | Some _ => Z.of_nat (length (Demuxer.packets_on index (Demuxer.packets input)))
    | None => 0%Z
    end in
  Demuxer.opens input = true →
  Demuxer.has_stream_info input = true →
  (Demuxer.max_frames params ≤ 0)%Z →
  Demuxer.demux_thread_func_with_params params vq aq
  = if (vi =? -1)%Z && (ai =? -1)%Z then Demuxer.mkResult vq aq 0 0
    else Demuxer.mkResult (dispatched vi <$> vq) (dispatched ai <$> aq)
                          (count vi vq) (count ai aq).
Proof.
  intros input vi ai dispatched count Hopen Hinfo Hmax.
  unfold Demuxer.demux_thread_func_with_params. fold input.
  rewrite Hopen, Hinfo. cbn [negb].
  rewrite select_loop_spec. fold vi ai. cbn [fst snd].
  destruct ((vi =? -1)%Z && (ai =? -1)%Z) eqn:Hnone; [done|].
  assert (Hdiff : vi ≠ ai).
  { destruct (last_stream_indices_distinct (Demuxer.streams input)) as (_ & _ & Hd).
    subst vi ai. destruct (Demuxer.enable_video params), (Demuxer.enable_audio params); lia. }
  rewrite (read_loop_dispatch params vi ai Hdiff Hmax).
  cbn [Demuxer.video_packet_queue_ Demuxer.audio_packet_queue_
       Demuxer.video_frame_count Demuxer.audio_frame_count].
  subst dispatched count. destruct vq, aq; reflexivity.
Qed.

Lemma demuxer_dispatches_selected_streams_witness :
  Demuxer.demux_thread_func_with_params (Scenario.demux_all Scenario.movie)
    Scenario.fresh_packet_queue None
  = Demuxer.mkResult
      (Some (ThreadSafeQueue.mk
               [Some (Demuxer.mkPacket 0 0); Some (Demuxer.mkPacket 0 1);
                Some (Demuxer.mkPacket 0 2)] true))
      None 3 0.
Proof.
  apply (demuxer_dispatches_selected_streams (Scenario.demux_all Scenario.movie)
           Scenario.fresh_packet_queue None); [reflexivity | reflexivity | simpl; lia].
Defined.

(** X5: the frame limit of the demuxer.  With [max_frames = m > 0] and a
    video queue, the video queue receives exactly the first [m] packets of
    the selected video stream (all of them if there are fewer), in file
    order, and is then finished; the video counter is their number. *)
Theorem demuxer_respects_max_frames (params : Demuxer.DemuxerParams)
    (vq : ThreadSafeQueue.t (option Demuxer.AVPacket)) (aq : Demuxer.packet_queue) :
  let input := Demuxer.input_filename params in
  let vi := if Demuxer.enable_video params
            then Demuxer.last_stream_index Demuxer.AVMEDIA_TYPE_VIDEO (Demuxer.streams input)
            else (-1)%Z in
  let ai := if Demuxer.enable_audio params
            then Demuxer.last_stream_index Demuxer.AVMEDIA_TYPE_AUDIO (Demuxer.streams input)
            else (-1)%Z in
  let taken := take (Z.to_nat (Demuxer.max_frames params))
                    (Demuxer.packets_on vi (Demuxer.packets input)) in
  let r := Demuxer.demux_thread_func_with_params params (Some vq) aq in
  Demuxer.opens input = true →
  Demuxer.has_stream_info input = true →
  (0 < Demuxer.max_frames params)%Z →
  (vi ≠ -1 ∨ ai ≠ -1)%Z →
  Demuxer.video_packet_queue_ r
  = Some (ThreadSafeQueue.finish (ThreadSafeQueue.push_all (Some <$> taken) vq))
  ∧ Demuxer.video_frame_count r = Z.of_nat (length taken)
  ∧ (Demuxer.video_frame_count r ≤ Demuxer.max_frames params)%Z.
Proof.
  intros input vi ai taken r Hopen Hinfo Hmax Hsome. subst r.
  unfold Demuxer.demux_thread_func_with_params. fold input.
  rewrite Hopen, Hinfo. cbn [negb].
  rewrite select_loop_spec. fold vi ai. cbn [fst snd].
  assert (((vi =? -1)%Z && (ai =? -1)%Z) = false) as -> by lia.
  destruct (read_loop_limit params vi ai Hmax (Demuxer.packets input) vq aq 0 0 Hmax)
    as [Hq Hc].
  cbn zeta in Hq, Hc. rewrite Z.sub_0_r in Hq, Hc. fold input taken in Hq, Hc.
  cbn [Demuxer.video_packet_queue_ Demuxer.video_frame_count].
  rewrite Hq, Hc. split_and!; [done|lia|].
  subst taken. rewrite length_take. lia.
Qed.

Lemma demuxer_respects_max_frames_witness :
  let r := Demuxer.demux_thread_func_with_params
             (Demuxer.mkParams Scenario.movie 2 true true)
             (Some ThreadSafeQueue.new) Scenario.fresh_packet_queue in
  Demuxer.video_packet_queue_ r
  = Some (ThreadSafeQueue.mk [Some (Demuxer.mkPacket 0 0); Some (Demuxer.mkPacket 0 1)] true)
  ∧ Demuxer.video_frame_count r = 2%Z
  ∧ (Demuxer.video_frame_count r ≤ 2)%Z.
Proof.
  apply (demuxer_respects_max_frames (Demuxer.mkParams Scenario.movie 2 true true)
           ThreadSafeQueue.new Scenario.fresh_packet_queue);
    [reflexivity | reflexivity | simpl; lia | left; vm_compute; discriminate].
Defined.

(** ** The decoder threads on a codec with delay (video_decoder.cpp,
    audio_decoder.cpp) *)

Section DelayedDecoding.
Import Decoder.
Local Open Scope Z_scope.

Lemma video_receive_ready d held drain ready : ∀ fuel l count ex,
  (length ready < fuel)%nat →
  video_receive_loop fuel
    (mkResult ex (mkDelay d held ready drain) (ThreadSafeQueue.mk l false) [] count)
  = Some (mkResult ex (mkDelay d held [] drain)
            (ThreadSafeQueue.mk (l ++ (Some <$> ready)) false) []
            (count + Z.of_nat (length ready))).
Proof.
  induction ready as [|f ready IH]; intros [|fuel] l count ex Hfuel; cbn in Hfuel; try lia.
  - cbn. destruct drain; rewrite app_nil_r, Z.add_0_r; reflexivity.
  - cbn [video_receive_loop avcodec_receive_frame delay_codec codec_context
         Decoder.ready script_ Script.next exit_ frame_queue_ frame_count
         delay Decoder.held draining].
    unfold ThreadSafeQueue.push. cbn [ThreadSafeQueue.finished_ ThreadSafeQueue.queue_ negb].
    rewrite IH by lia. cbn [fmap list_fmap length].
    rewrite <- app_assoc. cbn. do 2 f_equal. lia.
Qed.

Lemma audio_receive_ready d held drain ready : ∀ fuel l count ex done,
  (length ready < fuel)%nat →
  audio_receive_loop fuel done
    (mkResult ex (mkDelay d held ready drain) (ThreadSafeQueue.mk l false) [] count)
  = Some (done || drain,
          mkResult ex (mkDelay d held [] drain)
            (ThreadSafeQueue.mk (l ++ (Some <$> ready)) false) []
            (count + Z.of_nat (length ready))).
Proof.
  induction ready as [|f ready IH]; intros [|fuel] l count ex done Hfuel;
    cbn in Hfuel; try lia.
  - cbn. destruct drain, done; rewrite app_nil_r, Z.add_0_r; reflexivity.
  - cbn [audio_receive_loop avcodec_receive_frame delay_codec codec_context
         Decoder.ready script_ Script.next exit_ frame_queue_ frame_count
         delay Decoder.held draining].
    unfold ThreadSafeQueue.push. cbn [ThreadSafeQueue.finished_ ThreadSafeQueue.queue_ negb].
    rewrite IH by lia. cbn [fmap list_fmap length].
    rewrite <- app_assoc. cbn. do 3 f_equal. lia.
Qed.
(** What sending one packet to the codec releases. *)
Lemma delay_send d held packet :
  (length held ≤ d)%nat →
  let held' := held ++ [decoded packet] in
  let released := (length held' - d)%nat in
  avcodec_send_packet (Some packet) (mkDelay d held [] false)
  = (0, mkDelay d (drop released held') (take released held') false)
  ∧ (length (drop released held') ≤ d)%nat.
Proof.
  intros Hheld. cbn zeta. split; [reflexivity|].
  rewrite length_drop, length_app. cbn. lia.
Qed.

Lemma delay_split {A} d (held : list A) (f : A) (rest : list A) :
  let held' := held ++ [f] in
  let released := (length held' - d)%nat in
  let all := held ++ f :: rest in
  let all' := drop released held' ++ rest in
  (length held ≤ d)%nat →
  take released held' ++ take (length all' - d) all' = take (length all - d) all
  ∧ drop (length all' - d) all' = drop (length all - d) all.
Proof.
  cbn zeta. intros Hheld.
  replace (held ++ f :: rest) with ((held ++ [f]) ++ rest) by (by rewrite <- app_assoc).
  set (held' := held ++ [f]).
  assert (Hlen : length held' = S (length held)) by (subst held'; rewrite length_app; cbn; lia).
  destruct (decide (length held' ≤ d)%nat) as [Hle|Hgt].
  - replace (length held' - d)%nat with 0%nat by lia. by rewrite take_0, drop_0.
  - assert (length held' - d = 1)%nat as -> by lia.
    rewrite !length_app, length_drop.
    replace (length held' - 1 + length rest - d)%nat with (length rest) by lia.
    replace (length held' + length rest - d)%nat with (1 + length rest)%nat by lia.
    rewrite <- take_take_drop, <- drop_drop.
    rewrite (take_app_le held' rest 1), (drop_app_le held' rest 1) by lia. done.
Qed.

(** The packet loop of the video decoder thread never flushes: it
    delivers what the codec releases by itself. *)
Lemma video_loop_delay d : ∀ (packets : list AVPacket) held l count fuel,
  (length held ≤ d)%nat → (2 ≤ fuel)%nat →
  let all := held ++ (decoded <$> packets) in
  video_decode_loop fuel (Some <$> packets) true
    (mkResult Stage.Returned (mkDelay d held [] false) (ThreadSafeQueue.mk l false) [] count)
  = Some (mkResult Stage.Returned (mkDelay d (drop (length all - d) all) [] false)
            (ThreadSafeQueue.mk (l ++ (Some <$> take (length all - d) all)) true) []
            (count + Z.of_nat (length (take (length all - d) all)))).
Proof.
  induction packets as [|packet packets IH]; intros held l count fuel Hheld Hfuel; cbn zeta.
  - cbn [fmap list_fmap video_decode_loop]. rewrite app_nil_r.
    replace (length held - d)%nat with 0%nat by lia.
    rewrite take_0, drop_0. cbn. by rewrite app_nil_r, Z.add_0_r.
  - cbn [fmap list_fmap video_decode_loop codec_context].
    destruct (delay_send d held packet Hheld) as [-> Hheld'].
    cbn [Z.ltb Z.compare exit_ frame_queue_ script_ frame_count].
    rewrite video_receive_ready
      by (rewrite length_take, length_app; cbn [length]; lia).
    rewrite IH by done. cbn zeta.
    destruct (delay_split d held (decoded packet) (decoded <$> packets) Hheld)
      as [Htake Hdrop].
    cbn zeta in Htake, Hdrop. rewrite Hdrop.
    rewrite <- app_assoc, <- fmap_app, Htake.
    do 2 f_equal. rewrite <- Htake, !length_app. lia.
Qed.

(** The loop of the audio decoder thread sends the flush request when its
    input has ended and drains the codec. *)
Lemma audio_loop_delay d : ∀ (packets : list AVPacket) held l count fuel,
  (length held ≤ d)%nat → (length packets + d + 2 ≤ fuel)%nat →
  audio_decode_loop fuel (Some <$> packets) true
    (mkResult Stage.Returned (mkDelay d held [] false) (ThreadSafeQueue.mk l false) [] count)
  = Some (mkResult Stage.Returned (mkDelay d [] [] true)
            (ThreadSafeQueue.mk (l ++ (Some <$> held ++ (decoded <$> packets))) true) []
            (count + Z.of_nat (length held + length packets))).
Proof.
  induction packets as [|packet packets IH]; intros held l count [|fuel] Hheld Hfuel;
    cbn [length] in Hfuel; try lia.
  - cbn [fmap list_fmap audio_decode_loop head mjoin option_join tail
         avcodec_send_packet delay_codec codec_context draining Decoder.held
         Decoder.ready delay Z.ltb Z.compare exit_ frame_queue_ script_ frame_count app].
    rewrite audio_receive_ready by lia.
    cbn. rewrite app_nil_r. do 3 f_equal. lia.
  - cbn [fmap list_fmap audio_decode_loop head mjoin option_join tail codec_context].
    destruct (delay_send d held packet Hheld) as [-> Hheld'].
    cbn [Z.ltb Z.compare exit_ frame_queue_ script_ frame_count].
    rewrite audio_receive_ready
      by (rewrite length_take, length_app; cbn [length]; lia).
    cbn [orb]. rewrite IH by (done || lia).
    rewrite <- !app_assoc, <- fmap_app, (app_assoc (take _ _)), take_drop.
    rewrite <- !app_assoc. cbn [app].
    do 2 f_equal. rewrite length_take, length_drop, length_app. cbn [length]. lia.
Qed.
End DelayedDecoding.

(** X6: the audio decoder thread loses no frame.  On a codec that holds
    back its last [d] frames until it is flushed, with every library call
    succeeding and an input queue of [n] packets that its producer has
    finished, the thread pushes the [n] decoded frames in packet order
    behind what the output queue already held, finishes the output queue
    and leaves the codec drained: the flush request is sent and answered. *)
Theorem audio_decoder_delivers_every_frame (d : nat) (packets : list Decoder.AVPacket)
    (l : list (option Decoder.AVFrame)) (fuel : nat) :
  (length packets + d + 2 ≤ fuel)%nat →
  Decoder.audio_decode_to_frames_thread_func fuel
    (ThreadSafeQueue.mk (Some <$> packets) true) (ThreadSafeQueue.mk l false)
    (Decoder.mkDelay d [] [] false) []
  = Some (Decoder.mkResult Stage.Returned (Decoder.mkDelay d [] [] true)
            (ThreadSafeQueue.mk (l ++ (Some <$> (Decoder.decoded <$> packets))) true) []
            (Z.of_nat (length packets))).
Proof.
  intros Hfuel. unfold Decoder.audio_decode_to_frames_thread_func.
  cbn [Decoder.setup Script.next negb ThreadSafeQueue.queue_ ThreadSafeQueue.finished_].
  rewrite (audio_loop_delay d packets [] l 0 fuel) by (cbn; lia).
  reflexivity.
Qed.

Lemma audio_decoder_delivers_every_frame_witness :
  Decoder.audio_decode_to_frames_thread_func 6
    (ThreadSafeQueue.mk (Some <$> [Decoder.mkPacket 10; Decoder.mkPacket 20]) true)
    (ThreadSafeQueue.mk [] false) (Decoder.mkDelay 2 [] [] false) []
  = Some (Decoder.mkResult Stage.Returned (Decoder.mkDelay 2 [] [] true)
            (ThreadSafeQueue.mk [Some (Decoder.mkFrame 10); Some (Decoder.mkFrame 20)] true)
            [] 2).
Proof.
  apply (audio_decoder_delivers_every_frame 2
           [Decoder.mkPacket 10; Decoder.mkPacket 20] [] 6).
  simpl. lia.
Defined.

(** X7: the video decoder thread drops the frames that the codec holds
    back.  Under the same conditions the video decoder thread pushes only
    the first [n - d] decoded frames (none if [n <= d]) and finishes the
    output queue while the last [min n d] frames are still inside the
    codec, which was never asked to flush. *)
Theorem video_decoder_drops_delayed_frames (d : nat) (packets : list Decoder.AVPacket)
    (l : list (option Decoder.AVFrame)) (fuel : nat) :
  (2 ≤ fuel)%nat →
  let frames := Decoder.decoded <$> packets in
  let delivered := take (length packets - d) frames in
  Decoder.video_decode_to_frames_thread_func fuel
    (ThreadSafeQueue.mk (Some <$> packets) true) (ThreadSafeQueue.mk l false)
    (Decoder.mkDelay d [] [] false) []
  = Some (Decoder.mkResult Stage.Returned
            (Decoder.mkDelay d (drop (length packets - d) frames) [] false)
            (ThreadSafeQueue.mk (l ++ (Some <$> delivered)) true) []
            (Z.of_nat (length delivered)))
  ∧ length delivered = (length packets - d)%nat.
Proof.
  intros Hfuel frames delivered. unfold Decoder.video_decode_to_frames_thread_func.
  cbn [Decoder.setup Script.next negb ThreadSafeQueue.queue_ ThreadSafeQueue.finished_].
  rewrite (video_loop_delay d packets [] l 0 fuel) by (cbn; lia).
  cbn [app]. subst delivered frames. rewrite !length_fmap. split; [reflexivity|].
  rewrite length_take, length_fmap. lia.
Qed.

Lemma video_decoder_drops_delayed_frames_witness :
  Decoder.video_decode_to_frames_thread_func 2
    (ThreadSafeQueue.mk
       (Some <$> [Decoder.mkPacket 10; Decoder.mkPacket 20; Decoder.mkPacket 30]) true)
    (ThreadSafeQueue.mk [] false) (Decoder.mkDelay 2 [] [] false) []
  = Some (Decoder.mkResult Stage.Returned
            (Decoder.mkDelay 2 [Decoder.mkFrame 20; Decoder.mkFrame 30] [] false)
            (ThreadSafeQueue.mk [Some (Decoder.mkFrame 10)] true) [] 1).
Proof.
  apply (video_decoder_drops_delayed_frames 2
           [Decoder.mkPacket 10; Decoder.mkPacket 20; Decoder.mkPacket 30] [] 2).
  lia.
Defined.

(** ** The ring buffer of the audio processor (audio_processor.cpp) *)

Section RingBuffer.
Import AudioProcessor.
Local Open Scope Z_scope.

Lemma contents_of_snoc buffer r a x :
  0 ≤ a < Z.of_nat (length buffer) →
  0 ≤ r →
  contents_of (<[Z.to_nat ((r + a) mod Z.of_nat (length buffer)) := x]> buffer) r (a + 1)
  = contents_of buffer r a ++ [x].
Proof.
  intros Ha Hr. unfold contents_of. rewrite length_insert.
  set (N := Z.of_nat (length buffer)) in *.
  rewrite seqZ_app by lia. rewrite fmap_app. cbn [seqZ]. f_equal.
  - apply list_fmap_ext. intros k i Hi.
    apply lookup_seqZ in Hi as [-> Hk]. unfold sample.
    rewrite list_lookup_insert_ne; [done|].
    intros Heq. apply Z2Nat.inj in Heq; try (apply Z.mod_pos_bound; lia).
    assert (Hmod : (r + a) mod N = (r + (0 + Z.of_nat k)) mod N) by done.
    apply (f_equal (λ v, (v - r) mod N)) in Hmod.
    rewrite !Zminus_mod_idemp_l in Hmod.
    replace (r + a - r) with a in Hmod by lia.
    replace (r + (0 + Z.of_nat k) - r) with (Z.of_nat k) in Hmod by lia.
    rewrite !Z.mod_small in Hmod by lia. lia.
  - rewrite Z.add_0_l. change (seqZ a 1) with [a]. cbn [fmap list_fmap]. unfold sample.
    rewrite list_lookup_insert_eq; [done|].
    pose proof (Z.mod_pos_bound (r + a) N). lia.
Qed.
Lemma sample_seqZ (samples : list float) (n : Z) :
  0 ≤ n ≤ Z.of_nat (length samples) →
  sample samples <$> seqZ 0 n = take (Z.to_nat n) samples.
Proof.
  intros Hn. apply list_eq. intros k.
  rewrite list_lookup_fmap, lookup_take.
  destruct (decide (k < Z.to_nat n)%nat) as [Hk|Hk].
  - rewrite (lookup_seqZ_lt _ _ k) by lia. cbn. unfold sample.
    rewrite Z.add_0_l, Nat2Z.id.
    destruct (lookup_lt_is_Some_2 samples k) as [x Hx]; [lia|]. by rewrite Hx.
  - rewrite lookup_seqZ_ge by lia. done.
Qed.

(** The store loop of [write_samples], started at the write position that
    the invariant prescribes. *)
Lemma write_loop_spec (samples : list float) N : ∀ (indices : list Z) buffer r a,
  Z.of_nat (length buffer) = N → 0 ≤ r < N → 0 ≤ a →
  a + Z.of_nat (length indices) ≤ N →
  ∃ buffer',
    foldl (λ '(buffer, write_pos) i,
             (<[Z.to_nat write_pos := sample samples i]> buffer, Z.rem (write_pos + 1) N))
          (buffer, (r + a) mod N) indices
    = (buffer', (r + (a + Z.of_nat (length indices))) mod N)
    ∧ length buffer' = length buffer
    ∧ contents_of buffer' r (a + Z.of_nat (length indices))
      = contents_of buffer r a ++ (sample samples <$> indices).
Proof.
  induction indices as [|i indices IH]; intros buffer r a HN Hr Ha Hfit.
  - exists buffer. cbn. by rewrite !Z.add_0_r, app_nil_r.
  - cbn [length] in Hfit. cbn [foldl].
    rewrite Z.rem_mod_nonneg by (pose proof (Z.mod_pos_bound (r + a) N); lia).
    rewrite Zplus_mod_idemp_l.
    replace (r + a + 1) with (r + (a + 1)) by lia.
    destruct (IH (<[Z.to_nat ((r + a) mod N) := sample samples i]> buffer) r (a + 1))
      as (buffer' & Hrun & Hlen & Hcontents); try lia.
    { by rewrite length_insert. }
    exists buffer'. rewrite length_insert in Hlen.
    replace (a + Z.of_nat (length (i :: indices)))
      with (a + 1 + Z.of_nat (length indices)) by (cbn [length]; lia).
    split; [exact Hrun|]. split; [exact Hlen|].
    rewrite Hcontents. subst N. rewrite contents_of_snoc by lia.
    by rewrite <- app_assoc.
Qed.

(** The copy loop of [read_frame]. *)
Lemma read_loop_spec buffer N r : ∀ (n : nat),
  Z.of_nat (length buffer) = N → 0 ≤ r < N →
  foldl (λ '(output_samples, read_pos) (_ : Z),
           (output_samples ++ [sample buffer read_pos], Z.rem (read_pos + 1) N))
        ([], r) (seqZ 0 (Z.of_nat n))
  = ((λ i, sample buffer ((r + i) mod N)) <$> seqZ 0 (Z.of_nat n),
     (r + Z.of_nat n) mod N).
Proof.
  intros n HN Hr. induction n as [|n IH].
  - cbn. by rewrite Z.add_0_r, Z.mod_small.
  - rewrite Nat2Z.inj_succ, <- Z.add_1_r, seqZ_app by lia.
    rewrite foldl_app, IH, fmap_app. rewrite Z.add_0_l.
    change (seqZ (Z.of_nat n) 1) with [Z.of_nat n]. cbn [foldl fmap list_fmap].
    rewrite Z.rem_mod_nonneg by (pose proof (Z.mod_pos_bound (r + Z.of_nat n) N); lia).
    rewrite Zplus_mod_idemp_l. do 2 f_equal. lia.
Qed.
End RingBuffer.



(** X9: reading from the ring buffer.  On a buffer that satisfies its
    invariant, [read_frame] succeeds exactly when [has_complete_frame]
    holds; it then returns the oldest [frame_size * channels] stored
    samples in the order they were written, removes them and nothing
    else, and keeps the invariant; otherwise it returns [false] and
    leaves the buffer unchanged. *)
Theorem ring_buffer_read_frame_is_fifo (rb : AudioProcessor.AudioRingBuffer) :
  let frame_total := (AudioProcessor.frame_size_ rb * AudioProcessor.channels_ rb)%Z in
  let r := AudioProcessor.read_frame rb in
  AudioProcessor.ring_invariant rb →
  (0 ≤ frame_total)%Z →
  if AudioProcessor.has_complete_frame rb
  then r.1 = Some (take (Z.to_nat frame_total) (AudioProcessor.contents rb))
       ∧ AudioProcessor.contents r.2
         = drop (Z.to_nat frame_total) (AudioProcessor.contents rb)
       ∧ AudioProcessor.ring_invariant r.2
       ∧ AudioProcessor.available_ r.2 = (AudioProcessor.available_ rb - frame_total)%Z
       ∧ AudioProcessor.buffer_ r.2 = AudioProcessor.buffer_ rb
  else r = (None, rb).
Proof.
  intros frame_total r (Hr & Ha & Hw) Hframe. subst r.
  unfold AudioProcessor.read_frame, AudioProcessor.has_complete_frame. fold frame_total.
  set (N := Z.of_nat (length (AudioProcessor.buffer_ rb))) in *.
  destruct (Z.leb_spec frame_total (AudioProcessor.available_ rb)) as [Hfull|Hshort].
  - assert ((AudioProcessor.available_ rb <? frame_total)%Z = false) as -> by lia.
    pose proof (read_loop_spec (AudioProcessor.buffer_ rb) N (AudioProcessor.read_pos_ rb)
                  (Z.to_nat frame_total) eq_refl Hr) as Hloop.
    rewrite Z2Nat.id in Hloop by lia. rewrite Hloop. cbn [fst snd].
    unfold AudioProcessor.contents, AudioProcessor.ring_invariant, AudioProcessor.contents_of.
    cbn [AudioProcessor.buffer_ AudioProcessor.read_pos_ AudioProcessor.available_
         AudioProcessor.write_pos_]. fold N.
    set (f := λ i, AudioProcessor.sample (AudioProcessor.buffer_ rb)
                     ((AudioProcessor.read_pos_ rb + i) mod N)%Z).
    assert (Hsplit : f <$> seqZ 0 (AudioProcessor.available_ rb)
                     = (f <$> seqZ 0 frame_total)
                       ++ (f <$> seqZ frame_total (AudioProcessor.available_ rb - frame_total))).
    { replace (AudioProcessor.available_ rb)
        with (frame_total + (AudioProcessor.available_ rb - frame_total))%Z at 1 by lia.
      by rewrite seqZ_app, fmap_app, Z.add_0_l by lia. }
    assert (Hlen : length (f <$> seqZ 0 frame_total) = Z.to_nat frame_total)
      by (by rewrite length_fmap, length_seqZ).
    rewrite Hsplit, take_app_length', drop_app_length' by done.
    pose proof (Z.mod_pos_bound (AudioProcessor.read_pos_ rb + frame_total) N).
    split_and!; try done; try lia.
    + rewrite <- (Z.add_0_r frame_total) at 2.
      rewrite <- (fmap_add_seqZ frame_total 0), <- list_fmap_compose.
      apply list_fmap_ext. intros k i _. subst f. cbn.
      rewrite Zplus_mod_idemp_l. do 2 f_equal. lia.
    + rewrite Zplus_mod_idemp_l, Hw. f_equal. lia.
  - by assert ((AudioProcessor.available_ rb <? frame_total)%Z = true) as -> by lia.
Qed.

Lemma ring_buffer_read_frame_is_fifo_witness :
  let rb := (AudioProcessor.write_samples [1; 2; 3]%float 3
               (AudioProcessor.new_ring 2 1 48000)).2 in
  let r := AudioProcessor.read_frame rb in
  r.1 = Some (take 2 (AudioProcessor.contents rb))
  ∧ AudioProcessor.contents r.2 = drop 2 (AudioProcessor.contents rb)
  ∧ AudioProcessor.ring_invariant r.2
  ∧ AudioProcessor.available_ r.2 = (3 - 2)%Z
  ∧ AudioProcessor.buffer_ r.2 = AudioProcessor.buffer_ rb.
Proof.
  apply (ring_buffer_read_frame_is_fifo
           (AudioProcessor.write_samples [1; 2; 3]%float 3
              (AudioProcessor.new_ring 2 1 48000)).2).
  - unfold AudioProcessor.ring_invariant. simpl. split_and!; (lia || reflexivity).
  - simpl. lia.
Defined.

(** ** Sample layout conversions of the audio processor *)

Section SampleLayout.
Import AudioProcessor.
Local Open Scope Z_scope.

Lemma sample_fmap_seqZ (f : Z → float) (n i : Z) :
  0 ≤ i < n → sample (f <$> seqZ 0 n) i = f i.
Proof.
  intros Hi. unfold sample. rewrite list_lookup_fmap.
  rewrite (lookup_seqZ_lt _ _ (Z.to_nat i)) by lia. cbn. f_equal. lia.
Qed.

Lemma interleave_pairs (samples : list float) (n : nat) :
  (2 * n ≤ length samples)%nat →
  mjoin ((λ i, [sample samples (i * 2); sample samples (i * 2 + 1)]) <$> seqZ 0 (Z.of_nat n))
  = take (2 * n) samples.
Proof.
  induction n as [|n IH]; intros Hlen; [done|].
  rewrite Nat2Z.inj_succ, <- Z.add_1_r, seqZ_app, fmap_app, join_app by lia.
  rewrite IH by lia. rewrite Z.add_0_l. change (seqZ (Z.of_nat n) 1) with [Z.of_nat n].
  cbn [fmap list_fmap mjoin list_join app].
  destruct (lookup_lt_is_Some_2 samples (2 * n)) as [x Hx]; [lia|].
  destruct (lookup_lt_is_Some_2 samples (S (2 * n))) as [y Hy]; [lia|].
  unfold sample.
  replace (Z.to_nat (Z.of_nat n * 2)) with (2 * n)%nat by lia.
  replace (Z.to_nat (Z.of_nat n * 2 + 1)) with (S (2 * n))%nat by lia.
  rewrite Hx, Hy. cbn [default from_option].
  replace (2 * S n)%nat with (S (S (2 * n))) by lia.
  rewrite (take_S_r _ _ y Hy), (take_S_r _ _ x Hx), <- app_assoc. done.
Qed.
End SampleLayout.

(** X10: the two sample layout conversions are inverse to each other for
    mono and stereo.  A frame that [create_output_frame] builds from
    interleaved samples, converted back by the conversion at the head of
    [process_frame_with_speed], yields the first [num_samples * channels]
    samples it was built from, unchanged and in order. *)
Theorem planar_frame_round_trip {Tempo : Type} (samples : list float)
    (num_samples pts : Z) (p : AudioProcessor.t Tempo) (frame : AudioProcessor.AVFrame)
    (script : Script.t) :
  (AudioProcessor.input_channels_ p = 1 ∨ AudioProcessor.input_channels_ p = 2)%Z →
  (0 ≤ num_samples)%Z →
  (num_samples * AudioProcessor.input_channels_ p ≤ Z.of_nat (length samples))%Z →
  AudioProcessor.create_output_frame samples num_samples pts p = (Some frame, script) →
  AudioProcessor.interleaved (AudioProcessor.input_channels_ p) frame
  = take (Z.to_nat (num_samples * AudioProcessor.input_channels_ p)) samples
  ∧ AudioProcessor.nb_samples frame = num_samples
  ∧ AudioProcessor.pts frame = pts.
Proof.
  intros Hch Hn Hlen Hframe. unfold AudioProcessor.create_output_frame in Hframe.
  destruct (Script.next (AudioProcessor.script p)) as [[] script1]; [|done].
  destruct (Script.next script1) as [[] script2]; [|done].
  cbn [negb] in Hframe. injection Hframe as <- <-.
  split; [|done].
  unfold AudioProcessor.interleaved, AudioProcessor.planar.
  cbn [AudioProcessor.data AudioProcessor.nb_samples].
  destruct Hch as [Hch | Hch]; rewrite Hch in *;
    cbn [Z.eqb Pos.eqb lookup list_lookup default from_option]; unfold id.
  - rewrite Z.mul_1_r. by rewrite take_take, Nat.min_id.
  - replace (Z.to_nat (num_samples * 2)) with (2 * Z.to_nat num_samples)%nat by lia.
    rewrite <- (interleave_pairs samples (Z.to_nat num_samples)) by lia.
    rewrite Z2Nat.id by lia. f_equal.
    apply list_fmap_ext. intros k i Hi. apply lookup_seqZ in Hi as [-> Hk].
    by rewrite !sample_fmap_seqZ by lia.
Qed.


Lemma planar_frame_round_trip_witness :
  ∃ frame script,
    AudioProcessor.create_output_frame [1; 2; 3; 4]%float 2 7 Scenario.stereo_processor
    = (Some frame, script)
    ∧ AudioProcessor.interleaved 2 frame = [1; 2; 3; 4]%float
    ∧ AudioProcessor.nb_samples frame = 2%Z
    ∧ AudioProcessor.pts frame = 7%Z.
Proof.
  eexists _, _. split; [reflexivity|].
  apply (planar_frame_round_trip [1; 2; 3; 4]%float 2 7 Scenario.stereo_processor
           _ []); [right; reflexivity | lia | simpl; lia | reflexivity].
Defined.

(** ** The pixel filters of the video processor (src/Transcoder.cpp) *)

Section PixelFilters.
Import Mem VideoProcessor.
Local Open Scope Z_scope.

Lemma store_all_length {A : Type} (idx : A → nat) val l : ∀ row,
  length (store_all idx val row l) = length row.
Proof.
  induction l as [|a l IH]; intros row; cbn; [done|].
  unfold store_all in IH. by rewrite IH, length_insert.
Qed.

Lemma store_all_other {A : Type} (idx : A → nat) val l i : ∀ row,
  (∀ a, a ∈ l → idx a ≠ i) → store_all idx val row l !! i = row !! i.
Proof.
  induction l as [|a l IH]; intros row Hother; cbn; [done|].
  unfold store_all in IH. rewrite IH.
  - apply list_lookup_insert_ne, Hother. left.
  - intros b Hb. apply Hother. by right.
Qed.

Lemma store_all_snoc {A : Type} (idx : A → nat) val l b row :
  store_all idx val row (l ++ [b]) = <[idx b := val b]> (store_all idx val row l).
Proof. unfold store_all. by rewrite foldl_app. Qed.

Lemma store_all_at {A : Type} (idx : A → nat) val l : ∀ row a,
  a ∈ l → (idx a < length row)%nat →
  ∃ a', a' ∈ l ∧ idx a' = idx a ∧ store_all idx val row l !! idx a = Some (val a').
Proof.
  induction l as [|b l IH] using rev_ind; intros row a Hin Hlen.
  - by apply elem_of_nil in Hin.
  - rewrite store_all_snoc.
    destruct (decide (idx b = idx a)) as [Heq|Hne].
    + exists b. split; [apply elem_of_app; right; left|]. split; [done|].
      rewrite Heq. apply list_lookup_insert_eq.
      by rewrite store_all_length.
    + apply elem_of_app in Hin as [Hin|Hin%list_elem_of_singleton]; [|congruence].
      destruct (IH row a Hin Hlen) as (a' & Ha' & Hidx & Hval).
      exists a'. split; [apply elem_of_app; by left|]. split; [done|].
      by rewrite list_lookup_insert_ne.
Qed.

Lemma elem_of_interior width height x y :
  (x, y) ∈ interior width height ↔ 1 ≤ x ≤ width - 2 ∧ 1 ≤ y ≤ height - 2.
Proof.
  unfold interior. rewrite list_elem_of_bind. split.
  - intros (y' & Hx & Hy). apply list_elem_of_fmap in Hx as (x' & [= -> ->] & Hx).
    apply elem_of_seqZ in Hx, Hy. lia.
  - intros [Hx Hy]. exists y. split.
    + apply list_elem_of_fmap. exists x. split; [done|]. apply elem_of_seqZ. lia.
    + apply elem_of_seqZ. lia.
Qed.

Lemma convolve_flat kernel width height linesize y_data :
  convolve kernel width height linesize y_data
  = store_all (λ '(x, y), Z.to_nat (y * linesize + x)) (λ '(x, y), kernel y_data x y)
      y_data (interior width height).
Proof.
  unfold convolve, interior, store_all.
  generalize (seqZ 1 (height - 2)) as ys. generalize y_data at 2 4 as row.
  intros row ys. revert row.
  induction ys as [|y ys IH]; intros row; cbn [foldl mbind list_bind]; [done|].
  rewrite foldl_app, <- IH. f_equal. by rewrite foldl_fmap.
Qed.
(** What the loop nest of a filter leaves in the plane. *)
Lemma convolve_spec kernel width height linesize y_data :
  width ≤ linesize →
  let out := convolve kernel width height linesize y_data in
  length out = length y_data
  ∧ (∀ x y, 1 ≤ x ≤ width - 2 → 1 ≤ y ≤ height - 2 →
       (Z.to_nat (y * linesize + x) < length y_data)%nat →
       out !! Z.to_nat (y * linesize + x) = Some (kernel y_data x y))
  ∧ (∀ i, (∀ x y, 1 ≤ x ≤ width - 2 → 1 ≤ y ≤ height - 2 →
             i ≠ Z.to_nat (y * linesize + x)) →
       out !! i = y_data !! i).
Proof.
  intros Hwidth. cbn zeta. rewrite convolve_flat. split_and!.
  - apply store_all_length.
  - intros x y Hx Hy Hlen.
    destruct (store_all_at (λ '(x, y), Z.to_nat (y * linesize + x))
                (λ '(x, y), kernel y_data x y) (interior width height) y_data (x, y))
      as ([x' y'] & Hin & Hidx & Hval); [by apply elem_of_interior|done|].
    apply elem_of_interior in Hin. cbn in Hidx, Hval.
    assert (Heq : y' * linesize + x' = y * linesize + x)
      by (apply Z2Nat.inj in Hidx; nia).
    assert (y' = y) as ->.
    { destruct (Z.lt_trichotomy y' y) as [Hlt|[?|Hgt]]; [exfalso|done|exfalso].
      - assert (0 ≤ (y - y' - 1) * linesize) by nia. nia.
      - assert (0 ≤ (y' - y - 1) * linesize) by nia. nia. }
    assert (x' = x) as -> by lia.
    exact Hval.
  - intros i Hother. apply store_all_other. intros [x y] [Hx Hy]%elem_of_interior Heq.
    by apply (Hother x y Hx Hy).
Qed.

Lemma convolve_bytes kernel width height linesize y_data :
  (∀ x y, is_byte (kernel y_data x y)) →
  Forall is_byte y_data →
  Forall is_byte (convolve kernel width height linesize y_data).
Proof.
  intros Hkernel Hdata. rewrite convolve_flat. unfold store_all.
  generalize (interior width height) as l. intros l.
  revert Hdata. generalize y_data at 1 3 as row. intros row Hrow. revert row Hrow.
  induction l as [|[x y] l IH]; intros row Hrow; cbn [foldl]; [done|].
  apply IH. by apply Forall_insert.
Qed.

Lemma px_byte buf i : Forall is_byte buf → is_byte (px buf i).
Proof.
  intros Hbuf. unfold px. destruct (buf !! Z.to_nat i) as [v|] eqn:Hv; cbn.
  - by eapply Forall_lookup_1.
  - unfold is_byte. lia.
Qed.

Lemma blur_kernel_byte linesize temp_data x y :
  Forall is_byte temp_data → is_byte (blur_kernel linesize temp_data x y).
Proof.
  intros Hdata. unfold blur_kernel. cbn [foldl].
  repeat match goal with
         | |- context [px temp_data ?i] =>
             let H := fresh "Hpx" in
             pose proof (px_byte temp_data i Hdata) as H;
             generalize dependent (px temp_data i); intros
         end.
  unfold is_byte in *.
  split; [apply Z.quot_pos; lia|apply Z.quot_le_upper_bound; lia].
Qed.

Lemma sharpen_kernel_byte linesize temp_data x y :
  is_byte (sharpen_kernel linesize temp_data x y).
Proof. unfold sharpen_kernel, clamp_byte, is_byte. lia. Qed.
Lemma memset_lookup value n old (i : nat) :
  memset value n old !! i
  = if decide (i < Z.to_nat n)%nat then (λ _, value) <$> old !! i else old !! i.
Proof.
  unfold memset, overwrite. rewrite length_replicate, take_replicate.
  destruct (decide (i < length old `min` Z.to_nat n)%nat) as [Hi|Hi].
  - rewrite lookup_app_l by (by rewrite length_replicate).
    rewrite lookup_replicate_2 by done.
    rewrite decide_True by lia.
    destruct (lookup_lt_is_Some_2 old i) as [x ->]; [lia|]. done.
  - rewrite lookup_app_r by (rewrite length_replicate; lia).
    rewrite length_replicate, lookup_drop.
    case_decide as Hn.
    + rewrite !lookup_ge_None_2 by lia. done.
    + destruct (decide (Z.to_nat n ≤ length old)%nat).
      * f_equal. lia.
      * by rewrite !lookup_ge_None_2 by lia.
Qed.

Lemma memset_length value n old : length (memset value n old) = length old.
Proof.
  unfold memset, overwrite.
  rewrite length_app, length_take, length_drop, !length_replicate. lia.
Qed.

Lemma memset_bytes value n old :
  is_byte value → Forall is_byte old → Forall is_byte (memset value n old).
Proof.
  intros Hvalue Hold. unfold memset, overwrite. apply Forall_app. split.
  - apply Forall_take, Forall_replicate, Hvalue.
  - by apply Forall_drop.
Qed.

Lemma update_bytes_lookup id g w id' :
  buffers (update_bytes id g w) !! id'
  = if decide (id = id')
    then (λ b, {| refcount := refcount b; bytes := g (bytes b) |}) <$> buffers w !! id
    else buffers w !! id'.
Proof. unfold update_bytes. cbn. apply lookup_alter. Qed.

Lemma on_plane_frames f i g w : frames (on_plane f i g w) = frames w.
Proof. unfold on_plane. by destruct (plane_ptr f i). Qed.

(** A filter that maps byte planes to byte planes keeps every buffer a
    byte buffer. *)
Lemma on_plane_bytes f i g w :
  (∀ old, Forall is_byte old → Forall is_byte (g old)) →
  (∀ id b, buffers w !! id = Some b → Forall is_byte (bytes b)) →
  ∀ id b, buffers (on_plane f i g w) !! id = Some b → Forall is_byte (bytes b).
Proof.
  intros Hg Hw id b. unfold on_plane. destruct (plane_ptr f i) as [plane|]; [|apply Hw].
  rewrite update_bytes_lookup. case_decide as Hid; [subst id|apply Hw].
  destruct (buffers w !! plane) as [b0|] eqn:Hb0; [|done].
  intros [= <-]. cbn. eauto.
Qed.
End PixelFilters.

(** X11: [apply_grayscale] neutralises the chroma planes and nothing else.
    On a YUV420P frame whose planes are the buffers [y_plane], [u_plane]
    and [v_plane], with distinct chroma buffers, the first
    [linesize[1] * height / 2] bytes of the U and of the V buffer become
    128 (as far as the buffers reach), every later byte of these buffers,
    their length and their reference count stay as they were, and the
    luma buffer, every other buffer and every frame structure are
    untouched.  On a frame of any other pixel format nothing changes. *)
Theorem apply_grayscale_neutralises_chroma (frame : nat) (w : Mem.World)
    (y_plane u_plane v_plane : nat) :
  let f := Mem.frame_at w frame in
  let uv_size := Z.to_nat (Z.quot (VideoProcessor.plane_linesize f 1 * Mem.height f) 2) in
  let w' := VideoProcessor.apply_grayscale frame w in
  (Mem.format f ≠ Mem.AV_PIX_FMT_YUV420P → w' = w)
  ∧ (Mem.format f = Mem.AV_PIX_FMT_YUV420P →
     Mem.data f = [y_plane; u_plane; v_plane] →
     u_plane ≠ v_plane →
     Mem.frames w' = Mem.frames w
     ∧ (∀ id, id ≠ u_plane → id ≠ v_plane → Mem.buffers w' !! id = Mem.buffers w !! id)
     ∧ ∀ id, id = u_plane ∨ id = v_plane →
         Mem.refcount <$> Mem.buffers w' !! id = Mem.refcount <$> Mem.buffers w !! id
         ∧ length (Mem.plane_bytes w' id) = length (Mem.plane_bytes w id)
         ∧ ∀ i : nat,
             Mem.plane_bytes w' id !! i
             = if decide (i < uv_size)%nat
               then (λ _, 128%Z) <$> Mem.plane_bytes w id !! i
               else Mem.plane_bytes w id !! i).
Proof.
  intros f uv_size w'. subst w'. unfold VideoProcessor.apply_grayscale. fold f.
  split.
  - intros Hformat. by destruct (Z.eqb_spec (Mem.format f) Mem.AV_PIX_FMT_YUV420P).
  - intros Hformat Hdata Hdistinct. rewrite Hformat, Z.eqb_refl. cbn [negb].
    unfold VideoProcessor.on_plane, VideoProcessor.plane_ptr. rewrite Hdata.
    cbn [lookup list_lookup]. split; [done|]. split.
    + intros id Hu Hv. rewrite !update_bytes_lookup.
      by rewrite !decide_False by done.
    + assert (Hone : ∀ id, id = u_plane ∨ id = v_plane →
        Mem.buffers
          (Mem.update_bytes v_plane
             (VideoProcessor.memset 128
                (Z.quot (VideoProcessor.plane_linesize f 1 * Mem.height f) 2))
             (Mem.update_bytes u_plane
                (VideoProcessor.memset 128
                   (Z.quot (VideoProcessor.plane_linesize f 1 * Mem.height f) 2)) w)) !! id
        = (λ b, {| Mem.refcount := Mem.refcount b;
                   Mem.bytes := VideoProcessor.memset 128
                     (Z.quot (VideoProcessor.plane_linesize f 1 * Mem.height f) 2)
                     (Mem.bytes b) |}) <$> Mem.buffers w !! id).
      { intros id [-> | ->]; rewrite !update_bytes_lookup.
        - rewrite decide_False by done. by rewrite decide_True by done.
        - rewrite decide_True by done. by rewrite decide_False by done. }
      intros id Hid. unfold Mem.plane_bytes. rewrite (Hone id Hid).
      destruct (Mem.buffers w !! id) as [b|]; cbn.
      * split; [done|]. split; [apply memset_length|]. intros i. apply memset_lookup.
      * split; [done|]. split; [done|]. intros i. by case_decide.
Qed.

Lemma apply_grayscale_neutralises_chroma_witness :
  let w' := VideoProcessor.apply_grayscale 0 Scenario.video_world in
  Mem.frames w' = Mem.frames Scenario.video_world
  ∧ Mem.plane_bytes w' 10 = Mem.plane_bytes Scenario.video_world 10
  ∧ Mem.plane_bytes w' 11 !! 0%nat = Some 128%Z.
Proof.
  destruct (apply_grayscale_neutralises_chroma 0 Scenario.video_world 10 11 12)
    as [_ Hgray].
  destruct Hgray as (Hframes & Hother & Hchroma); [reflexivity | reflexivity | done |].
  cbn zeta. split; [exact Hframes|]. split.
  - unfold Mem.plane_bytes. by rewrite Hother.
  - destruct (Hchroma 11%nat) as (_ & _ & Hbytes); [by left|].
    rewrite Hbytes. reflexivity.
Defined.

(** X12: [apply_blur] and [apply_sharpen] rewrite the interior of the luma
    plane from a snapshot.  For either kernel, on a YUV420P frame whose
    luma plane is a live buffer and whose width does not exceed its line
    size, and when the temporary copy can be allocated: every pixel
    [(x, y)] with [1 <= x <= width - 2] and [1 <= y <= height - 2] that
    lies inside the buffer receives the kernel value computed from the
    plane as it was before the call (not from pixels already rewritten);
    the border rows and columns, the line padding and everything behind
    the image keep their bytes; the buffer keeps its length and reference
    count; no other buffer and no frame structure changes.  When the
    allocation fails, no buffer and no frame changes. *)
Theorem filter_rewrites_interior_from_snapshot (kernel : Z → list Z → Z → Z → Z)
    (frame : nat) (w : Mem.World) (plane : nat) (b : Mem.AVBuffer) :
  let f := Mem.frame_at w frame in
  let linesize0 := VideoProcessor.plane_linesize f 0 in
  let w' := VideoProcessor.apply_kernel kernel frame w in
  Mem.format f = Mem.AV_PIX_FMT_YUV420P →
  Mem.data f !! 0%nat = Some plane →
  Mem.buffers w !! plane = Some b →
  (Mem.width f ≤ linesize0)%Z →
  Mem.frames w' = Mem.frames w
  ∧ if (Mem.call w).1 then
      (∀ id, id ≠ plane → Mem.buffers w' !! id = Mem.buffers w !! id)
      ∧ ∃ b', Mem.buffers w' !! plane = Some b'
          ∧ Mem.refcount b' = Mem.refcount b
          ∧ length (Mem.bytes b') = length (Mem.bytes b)
          ∧ (∀ x y, (1 ≤ x ≤ Mem.width f - 2)%Z → (1 ≤ y ≤ Mem.height f - 2)%Z →
               (Z.to_nat (y * linesize0 + x) < length (Mem.bytes b))%nat →
               Mem.bytes b' !! Z.to_nat (y * linesize0 + x)
               = Some (kernel linesize0 (Mem.bytes b) x y))
          ∧ (∀ i : nat,
               (∀ x y, (1 ≤ x ≤ Mem.width f - 2)%Z → (1 ≤ y ≤ Mem.height f - 2)%Z →
                  i ≠ Z.to_nat (y * linesize0 + x)) →
               Mem.bytes b' !! i = Mem.bytes b !! i)
    else Mem.buffers w' = Mem.buffers w.
Proof.
  intros f linesize0 w' Hformat Hplane Hb Hwidth. subst w'.
  unfold VideoProcessor.apply_kernel. fold f. rewrite Hformat, Z.eqb_refl. cbn [negb].
  unfold Mem.call. destruct (Script.next (Mem.script w)) as [[] script']; cbn [negb fst].
  - fold linesize0. unfold VideoProcessor.on_plane, VideoProcessor.plane_ptr.
    rewrite Hplane. split; [done|]. split.
    + intros id Hid. rewrite update_bytes_lookup. by rewrite decide_False by done.
    + destruct (convolve_spec (kernel linesize0) (Mem.width f) (Mem.height f)
                  linesize0 (Mem.bytes b) Hwidth) as (Hlen & Hinner & Houter).
      eexists. rewrite update_bytes_lookup, decide_True by done. cbn [Mem.buffers].
      rewrite Hb. cbn [fmap option_fmap option_map]. split; [reflexivity|].
      cbn [Mem.refcount Mem.bytes]. split_and!; done.
  - done.
Qed.

Lemma filter_rewrites_interior_from_snapshot_witness :
  let w' := VideoProcessor.apply_blur 0 Scenario.video_world in
  Mem.frames w' = Mem.frames Scenario.video_world
  ∧ (∀ id, id ≠ 10%nat → Mem.buffers w' !! id = Mem.buffers Scenario.video_world !! id).
Proof.
  destruct (filter_rewrites_interior_from_snapshot VideoProcessor.blur_kernel 0
              Scenario.video_world 10 (Mem.mkBuffer 1 (replicate 16 77%Z)))
    as (Hframes & Hother & _);
    [reflexivity | reflexivity | reflexivity | apply Z.leb_le; vm_compute; reflexivity |].
  cbn zeta. split; [exact Hframes | exact Hother].
Defined.

(** X13: the filters of the processor's own arithmetic store bytes.  If
    every buffer holds values in [0, 255] before [apply_grayscale],
    [apply_blur] or [apply_sharpen], then every buffer does afterwards:
    the constant 128, the truncated mean of nine bytes and the clamped
    sharpening sum all fit the [uint8_t] they are stored in. *)
Theorem own_filters_store_bytes (frame : nat) (w : Mem.World) :
  (∀ id b, Mem.buffers w !! id = Some b → Forall VideoProcessor.is_byte (Mem.bytes b)) →
  ∀ filter,
    filter ∈ [VideoProcessor.apply_grayscale; VideoProcessor.apply_blur;
              VideoProcessor.apply_sharpen] →
    ∀ id b, Mem.buffers (filter frame w) !! id = Some b →
            Forall VideoProcessor.is_byte (Mem.bytes b).
Proof.
  intros Hw filter Hfilter.
  assert (Hkernel : ∀ kernel,
    (∀ linesize data x y, Forall VideoProcessor.is_byte data →
       VideoProcessor.is_byte (kernel linesize data x y)) →
    ∀ id b, Mem.buffers (VideoProcessor.apply_kernel kernel frame w) !! id = Some b →
            Forall VideoProcessor.is_byte (Mem.bytes b)).
  { intros kernel Hk. unfold VideoProcessor.apply_kernel.
    destruct (negb _); [exact Hw|].
    unfold Mem.call. destruct (Script.next (Mem.script w)) as [[] script']; cbn [negb].
    - apply on_plane_bytes; [|exact Hw].
      intros old Hold. apply convolve_bytes; [|done]. intros x y. by apply Hk.
    - exact Hw. }
  repeat (apply elem_of_cons in Hfilter as [->|Hfilter]).
  - unfold VideoProcessor.apply_grayscale. destruct (negb _); [exact Hw|].
    assert (Hmemset : ∀ n old, Forall VideoProcessor.is_byte old →
                               Forall VideoProcessor.is_byte (VideoProcessor.memset 128 n old)).
    { intros n old. apply memset_bytes. unfold VideoProcessor.is_byte. lia. }
    apply on_plane_bytes; [apply Hmemset|]. apply on_plane_bytes; [apply Hmemset|exact Hw].
  - apply Hkernel. intros. by apply blur_kernel_byte.
  - apply Hkernel. intros. apply sharpen_kernel_byte.
  - by apply elem_of_nil in Hfilter.
Qed.

Lemma own_filters_store_bytes_witness :
  ∃ b, Mem.buffers (VideoProcessor.apply_sharpen 0 Scenario.video_world) !! 10%nat = Some b
       ∧ Forall VideoProcessor.is_byte (Mem.bytes b).
Proof.
  eexists. split; [reflexivity|].
  apply (own_filters_store_bytes 0 Scenario.video_world) with
    (filter := VideoProcessor.apply_sharpen) (id := 10%nat).
  - apply (map_Forall_lookup (λ _ b, Forall VideoProcessor.is_byte (Mem.bytes b))).
    apply (bool_decide_unpack _). vm_compute. exact I.
  - set_solver.
  - reflexivity.
Defined.

(** ** The single-stream muxers (src/muxer.cpp) *)

Section SingleStream.
Import Muxer SingleStreamMuxer.
Local Open Scope Z_scope.

Lemma packet_loop_spec src dst (units : list (option AVPacket)) finished :
  ∀ count out script,
  let packets := leading_packets units in
  let oks := outcomes (length packets) script in
  let ends := finished || bool_decide (None ∈ units) in
  let r := packet_loop src dst units finished count out script in
  exit_ r = (if ends then Stage.Returned else Stage.BlockedInPop)
  ∧ output r
    = out ++ zip_with (λ packet ok, WriteFrame (outgoing src dst packet) ok) packets oks
          ++ (if ends then [WriteTrailer] else [])
  ∧ packet_count r
    = count + Z.of_nat (sum_list_with (λ ok : bool, if ok then 1 else 0)%nat oks).
Proof.
  induction units as [|[packet|] units IH]; intros count out script; cbn zeta.
  - cbn. rewrite orb_false_r. destruct finished; cbn; rewrite ?app_nil_r; split_and!; (done || lia).
  - cbn [packet_loop leading_packets length outcomes zip_with sum_list_with].
    destruct (Script.next script) as [written script'] eqn:Hnext. cbn [fst snd].
    destruct (IH (if written then count + 1 else count)
                 (out ++ [WriteFrame (av_packet_rescale_ts
                                        (mkPacket 0 (pts packet) (dts packet) (duration packet))
                                        src dst) written]) script')
      as (Hexit & Hout & Hcount).
    cbn zeta in Hexit, Hout, Hcount. rewrite Hexit, Hout, Hcount.
    assert (Hnull : bool_decide (None ∈ Some packet :: units)
                    = bool_decide (None ∈ units)).
    { apply bool_decide_ext. rewrite elem_of_cons. split; [by intros [[=]|?]|by right]. }
    rewrite Hnull. split_and!; [done| |destruct written; lia].
    by rewrite <- !app_assoc.
  - cbn. rewrite (bool_decide_eq_true_2 (None ∈ None :: units)) by left.
    rewrite orb_true_r. split_and!; (done || lia).
Qed.
End SingleStream.

(** X14: the single-stream muxer threads.  Once the four set-up calls
    have succeeded, [video_mux_thread_func] and [audio_mux_thread_func]
    write the packets of their queue up to the first null unit, in queue
    order, each stamped with stream index 0 and rescaled from the time
    base of the queue to that of the stream; a null unit ends the loop, so
    packets queued behind it are never written.  The trailer is written
    once, after the last packet, when the loop ends by a null unit or by a
    finished queue; on an exhausted queue that was not finished the thread
    stays suspended in [pop] and writes no trailer.  The packet counter
    counts the writes that succeeded. *)
Theorem single_stream_muxers_write_leading_packets
    (units : list (option Muxer.AVPacket)) (finished : bool) (script : Script.t)
    (video : SingleStreamMuxer.VideoMuxerParams)
    (audio : SingleStreamMuxer.AudioMuxerParams) :
  (Decoder.setup 4 script).1 = true →
  let packets := SingleStreamMuxer.leading_packets units in
  let oks := SingleStreamMuxer.outcomes (length packets) (Decoder.setup 4 script).2 in
  let ends := finished || bool_decide (None ∈ units) in
  let spec src dst (r : SingleStreamMuxer.Result) :=
    SingleStreamMuxer.exit_ r = (if ends then Stage.Returned else Stage.BlockedInPop)
    ∧ SingleStreamMuxer.output r
      = zip_with (λ packet ok,
                    Muxer.WriteFrame (SingleStreamMuxer.outgoing src dst packet) ok)
                 packets oks
        ++ (if ends then [Muxer.WriteTrailer] else [])
    ∧ SingleStreamMuxer.packet_count r
      = Z.of_nat (sum_list_with (λ ok : bool, if ok then 1 else 0)%nat oks) in
  spec (Muxer.mkQ 1 (SingleStreamMuxer.video_fps video))
       (SingleStreamMuxer.video_time_base video)
       (SingleStreamMuxer.video_mux_thread_func
          (ThreadSafeQueue.mk units finished) video script)
  ∧ spec (Muxer.mkQ 1 (SingleStreamMuxer.audio_sample_rate audio))
         (SingleStreamMuxer.audio_time_base audio)
         (SingleStreamMuxer.audio_mux_thread_func
            (ThreadSafeQueue.mk units finished) audio script).
Proof.
  intros Hsetup. cbn zeta.
  unfold SingleStreamMuxer.video_mux_thread_func, SingleStreamMuxer.audio_mux_thread_func.
  destruct (Decoder.setup 4 script) as [ready script'].
  cbn [fst snd] in *. subst ready. cbn [negb ThreadSafeQueue.queue_ ThreadSafeQueue.finished_].
  split; apply (packet_loop_spec _ _ units finished 0 [] script').
Qed.

Lemma single_stream_muxers_write_leading_packets_witness :
  SingleStreamMuxer.output
    (SingleStreamMuxer.video_mux_thread_func
       (ThreadSafeQueue.mk [Some (Muxer.mkPacket 7 0 0 1); None; Some (Muxer.mkPacket 7 1 1 1)]
                           false)
       (SingleStreamMuxer.mkVideoParams 25 (Muxer.mkQ 1 25)) [])
  = [Muxer.WriteFrame (Muxer.mkPacket 0 0 0 1) true; Muxer.WriteTrailer].
Proof.
  apply (single_stream_muxers_write_leading_packets
           [Some (Muxer.mkPacket 7 0 0 1); None; Some (Muxer.mkPacket 7 1 1 1)] false []
           (SingleStreamMuxer.mkVideoParams 25 (Muxer.mkQ 1 25))
           (SingleStreamMuxer.mkAudioParams 48000 (Muxer.mkQ 1 48000))).
  reflexivity.
Defined.

(** ** The order of the packets of each stream in the muxer (src/muxer.cpp) *)

Section MuxerOrder.
Import Muxer.
Variable params : MuxerParams.
Hypothesis Hbases : keeps_time_bases params.
Local Open Scope Z_scope.

Lemma av_rescale_q_same (a d : Z) : 0 < d → av_rescale_q a (mkQ 1 d) (mkQ 1 d) = a.
Proof.
  intros Hd. unfold av_rescale_q. cbn [num den]. rewrite !Z.mul_1_l.
  assert (Hhalf : 0 ≤ Z.quot d 2 < d).
  { rewrite Z.quot_div_nonneg by lia. split; [apply Z.div_pos; lia|].
    apply Z.div_lt_upper_bound; lia. }
  assert (Hq : Z.quot (Z.abs a * d + Z.quot d 2) d = Z.abs a).
  { rewrite Z.quot_div_nonneg by lia.
    symmetry. apply (Z.div_unique_pos _ _ _ (Z.quot d 2)); lia. }
  rewrite Hq. lia.
Qed.

Lemma av_packet_rescale_ts_same pkt (d : Z) :
  0 < d → av_packet_rescale_ts pkt (mkQ 1 d) (mkQ 1 d) = pkt.
Proof.
  intros Hd. destruct pkt as [i p t dur]. unfold av_packet_rescale_ts. cbn [pts dts duration stream_index].
  rewrite !av_rescale_q_same by done.
  by destruct (p =? _), (t =? _), (0 <? dur).
Qed.

Lemma packets_written_on_snoc index out pkt written :
  packets_written_on index (out ++ [WriteFrame pkt written])
  = packets_written_on index out ++ (if stream_index pkt =? index then [pkt] else []).
Proof.
  unfold packets_written_on. rewrite omap_app. cbn. by destruct (stream_index pkt =? index).
Qed.

(** With the time bases kept, the packet that an iteration writes is the
    popped packet stamped with its stream index and position. *)
Lemma write_packet_stamped is_video pkt st :
  video_stream_index st = 0 → audio_stream_index st = 1 →
  write_packet params is_video pkt st
  = with_output
      (output st
       ++ [WriteFrame
             (stamped (if is_video then 0 else 1)
                      (if is_video then video_packet_count st else audio_packet_count st) pkt)
             (Script.next (script st)).1])
      {| video_packet_queue := video_packet_queue st;
         audio_packet_queue := audio_packet_queue st;
         video_stream_index := video_stream_index st;
         audio_stream_index := audio_stream_index st;
         video_done := video_done st; audio_done := audio_done st;
         video_pts :=
           if is_video
           then pts (stamped 0 (video_packet_count st) pkt) else video_pts st;
         audio_pts :=
           if is_video
           then audio_pts st else pts (stamped 1 (audio_packet_count st) pkt);
         video_packet_count := video_packet_count st;
         audio_packet_count := audio_packet_count st;
         output := output st; script := (Script.next (script st)).2 |}.
Proof.
  destruct Hbases as (Hfps & Hrate & Hvtb & Hatb).
  intros Hvi Hai. unfold write_packet, with_output, stamped. rewrite Hvi, Hai, Hvtb, Hatb.
  destruct (Script.next (script st)) as [written script'].
  destruct is_video; cbn [Z.eqb pts dts duration stream_index];
    destruct (pts pkt =? Mem.AV_NOPTS_VALUE);
    rewrite av_packet_rescale_ts_same by done; reflexivity.
Qed.
Lemma iteration_keeps_order video_units audio_units st st' :
  loop_invariant st → order_invariant video_units audio_units st →
  iteration params st = Some st' →
  order_invariant video_units audio_units st'.
Proof.
  intros ((qv & Hqv & Hvfin & _) & (qa & Hqa & Hafin & _) & Hvi & Hai & _)
         [Hvideo Haudio] Hstep.
  unfold order_invariant in *. rewrite Hqv in Hvideo. rewrite Hqa in Haudio.
  cbn [from_option] in Hvideo, Haudio.
  unfold iteration in Hstep. rewrite Hqv, Hqa in Hstep. cbn [pop_from] in Hstep.
  unfold ThreadSafeQueue.pop in Hstep. rewrite Hvfin, Hafin in Hstep.
  destruct (select_video st && negb (video_done st)).
  - destruct (ThreadSafeQueue.queue_ qv) as [|[pkt|] rest] eqn:Hunits;
      injection Hstep as <-; cbn [stamped_units] in Hvideo.
    + cbn. rewrite ?Hqv, ?Hqa, ?Hunits. cbn [from_option]. done.
    + rewrite write_packet_stamped by done.
      cbn [with_output set_video output video_packet_queue audio_packet_queue
           video_packet_count audio_packet_count from_option ThreadSafeQueue.queue_].
      rewrite ?Hqa. cbn [from_option].
      rewrite !packets_written_on_snoc.
      assert (Hindex : ∀ c, stream_index (stamped 0 c pkt) = 0)
        by (intros c; unfold stamped; by destruct (pts pkt =? _)).
      rewrite Hindex. cbn [Z.eqb]. rewrite app_nil_r, <- app_assoc. done.
    + cbn. rewrite ?Hqa. cbn [from_option]. done.
  - destruct (negb (select_video st) && negb (audio_done st));
      [|simplify_eq; rewrite Hqv, Hqa; done].
    destruct (ThreadSafeQueue.queue_ qa) as [|[pkt|] rest] eqn:Hunits;
      injection Hstep as <-; cbn [stamped_units] in Haudio.
    + cbn. rewrite ?Hqv, ?Hqa, ?Hunits. cbn [from_option]. done.
    + rewrite write_packet_stamped by done.
      cbn [with_output set_audio output video_packet_queue audio_packet_queue
           video_packet_count audio_packet_count from_option ThreadSafeQueue.queue_].
      rewrite ?Hqv. cbn [from_option].
      rewrite !packets_written_on_snoc.
      assert (Hindex : ∀ c, stream_index (stamped 1 c pkt) = 1)
        by (intros c; unfold stamped; by destruct (pts pkt =? _)).
      rewrite Hindex. cbn [Z.eqb Pos.eqb]. rewrite app_nil_r, <- app_assoc. done.
    + cbn. rewrite ?Hqv. cbn [from_option]. done.
Qed.

Lemma main_loop_keeps_order video_units audio_units fuel : ∀ st,
  loop_invariant st → order_invariant video_units audio_units st →
  (remaining st ≤ fuel)%nat →
  ∃ st', main_loop params fuel st
         = Finished (with_output (output st' ++ [WriteTrailer]) st')
         ∧ loop_invariant st' ∧ order_invariant video_units audio_units st'
         ∧ video_done st' = true ∧ audio_done st' = true.
Proof.
  induction fuel as [|fuel IH]; intros st Hinv Horder Hfuel.
  - assert (video_done st = true ∧ audio_done st = true) as [Hvd Had].
    { unfold remaining in Hfuel.
      destruct (video_done st), (audio_done st); split; first [done | lia]. }
    exists st. cbn. rewrite Hvd, Had. done.
  - cbn. destruct (video_done st && audio_done st) eqn:Hlive.
    + apply andb_true_iff in Hlive as [Hvd Had]. by exists st.
    + destruct (iteration_progress params st Hinv Hlive)
        as (st1 & Hstep & Hinv1 & Hrem & _).
      rewrite Hstep.
      apply IH; [done| |lia].
      exact (iteration_keeps_order video_units audio_units st st1 Hinv Horder Hstep).
Qed.
End MuxerOrder.

(** X15: the muxer preserves the order and the time stamps of each
    stream.  With both queues given and finished by their producers, the
    set-up calls succeeding and the streams keeping the time bases
    [{1, video_fps}] and [{1, audio_sample_rate}] that the thread gave
    them, the packets written on the video stream are exactly the packets
    of the video queue, in queue order, each with stream index 0 and with
    its pts, dts and duration unchanged -- except that a packet without
    pts gets its position among the units of its queue (counted from 1,
    null units included) as pts and dts; the same holds for the audio
    queue and stream index 1; and the trailer follows the last packet. *)
Theorem mux_preserves_stream_order (params : Muxer.MuxerParams)
    (vq aq : Muxer.packet_queue) (script : Script.t) :
  ThreadSafeQueue.finished_ vq = true →
  ThreadSafeQueue.finished_ aq = true →
  (Decoder.setup 5 script).1 = true →
  Muxer.keeps_time_bases params →
  ∃ st writes,
    Muxer.mux_thread_func (Muxer.enough_fuel (Some vq) (Some aq))
      (Some vq) (Some aq) params script = Muxer.Finished st
    ∧ Muxer.output st = writes ++ [Muxer.WriteTrailer]
    ∧ Muxer.packets_written_on 0 writes
      = Muxer.stamped_units 0 0 (ThreadSafeQueue.queue_ vq)
    ∧ Muxer.packets_written_on 1 writes
      = Muxer.stamped_units 1 0 (ThreadSafeQueue.queue_ aq).
Proof.
  intros Hvfin Hafin Hsetup Hbases.
  set (start := Muxer.init (Some vq) (Some aq) (Decoder.setup 5 script).2).
  pose proof (init_invariant vq aq (Decoder.setup 5 script).2 Hvfin Hafin) as Hinit.
  assert (Horder : Muxer.order_invariant (ThreadSafeQueue.queue_ vq)
                     (ThreadSafeQueue.queue_ aq) start) by (by split).
  destruct (main_loop_keeps_order params Hbases (ThreadSafeQueue.queue_ vq)
              (ThreadSafeQueue.queue_ aq) (Muxer.enough_fuel (Some vq) (Some aq))
              start Hinit Horder)
    as (st & Hrun & Hinv & [Hvideo Haudio] & Hvd & Had).
  { unfold Muxer.remaining, Muxer.enough_fuel, ThreadSafeQueue.size. cbn. lia. }
  destruct Hinv as ((qv & Hqv & _ & Hvempty) & (qa & Hqa & _ & Haempty) & _).
  exists (Muxer.with_output (Muxer.output st ++ [Muxer.WriteTrailer]) st), (Muxer.output st).
  unfold Muxer.mux_thread_func.
  change (3 + length (option_list (Some vq)) + length (option_list (Some aq)))%nat
    with 5%nat.
  subst start. destruct (Decoder.setup 5 script) as [ready script'] eqn:Hs.
  cbn [fst snd] in *. subst ready. cbn [negb].
  split; [exact Hrun|]. split; [reflexivity|].
  rewrite Hqv in Hvideo. rewrite Hqa in Haudio. cbn [from_option] in Hvideo, Haudio.
  rewrite (Hvempty Hvd) in Hvideo. rewrite (Haempty Had) in Haudio.
  cbn [Muxer.stamped_units] in Hvideo, Haudio. rewrite app_nil_r in Hvideo, Haudio.
  done.
Qed.

Lemma mux_preserves_stream_order_witness :
  ∃ st writes,
    Muxer.mux_thread_func
      (Muxer.enough_fuel (Some (Scenario.video_packets 3)) (Some (Scenario.audio_packets 2)))
      (Some (Scenario.video_packets 3)) (Some (Scenario.audio_packets 2))
      Scenario.mux_params [] = Muxer.Finished st
    ∧ Muxer.output st = writes ++ [Muxer.WriteTrailer]
    ∧ Muxer.packets_written_on 0 writes
      = Muxer.stamped_units 0 0 (ThreadSafeQueue.queue_ (Scenario.video_packets 3))
    ∧ Muxer.packets_written_on 1 writes
      = Muxer.stamped_units 1 0 (ThreadSafeQueue.queue_ (Scenario.audio_packets 2)).
Proof.
  apply (mux_preserves_stream_order Scenario.mux_params
           (Scenario.video_packets 3) (Scenario.audio_packets 2) []);
    [reflexivity | reflexivity | reflexivity |].
  unfold Muxer.keeps_time_bases. simpl. split_and!; (lia || reflexivity).
Defined.

(** ** The video processor thread when no external call fails *)

Section CalmWorld.
Import Mem VideoProcessor.
Local Open Scope Z_scope.

Variable plane_layout : Z → Z → Z → list (Z * nat).
Variable sws_scale_pixels : list (list Z) → list (list Z).
Variable gl_rotate_pixels : float → list (list Z) → list (list Z).
Variable adjust_pixel : float → float → Z → Z.

Lemma call_calm w : script w = [] → (call w).1 = true ∧ script (call w).2 = [].
Proof. intros Hw. unfold call. rewrite Hw. done. Qed.



Lemma av_frame_free_script a w : script (av_frame_free a w) = script w.
Proof. reflexivity. Qed.











End CalmWorld.



(** The number of copies for some speed factors: 0.5 doubles every frame,
    0.3 triples it, and 0.7 leaves the video at its original speed. *)
Example copies_per_frame_values :
  (λ speed, VideoProcessor.copies_per_frame
              (VideoProcessor.mkParams 0 false false false 1 1 0 0 true speed))
  <$> [0.5; 0.3; 0.7; 0.25; 1]%float
  = [2; 3; 1; 4; 1]%nat.
Proof. vm_compute. reflexivity. Qed.

(** ** Ownership of frames in the video processor thread *)

Section FrameAccounting.
Import Mem VideoProcessor.
Implicit Types (w : World) (p : VideoProcessor.t)
  (q : ThreadSafeQueue.t (option nat)) (inputs : list nat).
Local Open Scope Z_scope.

Lemma size_agree (m m' : gmap nat AVFrame) (target : nat) :
  (∀ a, a ≠ target → m' !! a = m !! a) →
  (is_Some (m' !! target) ↔ is_Some (m !! target)) →
  size m' = size m.
Proof.
  intros Hother Htarget. rewrite <- !size_dom. f_equal. apply set_eq. intros a.
  rewrite !elem_of_dom. destruct (decide (a = target)) as [->|Hne]; [done|].
  by rewrite Hother.
Qed.

Lemma av_frame_alloc_size w :
  match av_frame_alloc w with
  | (Some a, w') => size (frames w') = S (size (frames w))
  | (None, w') => size (frames w') = size (frames w)
  end.
Proof.
  pose proof (av_frame_alloc_spec w) as Hspec.
  destruct (av_frame_alloc w) as [[a|] w']; [|by rewrite Hspec].
  destruct Hspec as [Hnone ->]. by apply map_size_insert_None.
Qed.

Lemma av_frame_free_size a w :
  is_Some (frames w !! a) → S (size (frames (av_frame_free a w))) = size (frames w).
Proof.
  intros [f Hf]. unfold av_frame_free, av_frame_unref, update_frame. cbn.
  set (m := alter (λ _, blank_frame) a (frames w)).
  assert (Hm : m !! a = Some blank_frame) by (unfold m; by rewrite lookup_alter_eq, Hf).
  assert (Hsize : size m = size (frames w)).
  { apply (size_agree _ _ a).
    - intros b Hb. unfold m. by rewrite lookup_alter_ne.
    - rewrite Hm, Hf. split; eauto. }
  assert (Hdelete : size m = S (size (delete a m))).
  { rewrite <- (insert_delete_id m a blank_frame Hm) at 1.
    apply map_size_insert_None, lookup_delete_eq. }
  lia.
Qed.

Lemma update_frame_size a g w : size (frames (update_frame a g w)) = size (frames w).
Proof.
  apply (size_agree _ _ a).
  - apply update_frame_agree.
  - unfold update_frame. cbn. by rewrite lookup_alter_eq, fmap_is_Some.
Qed.

Lemma av_frame_ref_size dst src w :
  size (frames (av_frame_ref dst src w).2) = size (frames w).
Proof.
  destruct (av_frame_ref_agree dst src w) as [Hagree Hlive].
  by apply (size_agree _ _ dst).
Qed.
Lemma unaccounted_push a inputs q w :
  ThreadSafeQueue.finished_ q = false →
  unaccounted inputs (ThreadSafeQueue.push (Some a) q) w = unaccounted inputs q w - 1.
Proof.
  intros Hlive. unfold unaccounted, ThreadSafeQueue.push. rewrite Hlive. cbn.
  rewrite length_app. cbn. lia.
Qed.

(** The duplication loop owns nothing when it ends: every frame it
    allocated is in the queue or freed. *)
Lemma duplicate_frames_accounts count : ∀ output inputs p q w,
  loop_invariant inputs p q w →
  let '(p', q', w') := duplicate_frames count output p q w in
  loop_invariant inputs p' q' w' ∧ unaccounted inputs q' w' = unaccounted inputs q w.
Proof.
  induction count as [|count IH]; intros output inputs p q w Hinv; [done|].
  cbn [duplicate_frames].
  pose proof (av_frame_alloc_invariant inputs p q w Hinv) as Halloc.
  pose proof (av_frame_alloc_size w) as Hsize.
  destruct (av_frame_alloc w) as [[dup|] w1];
    [|split; [done|]; unfold unaccounted; by rewrite Hsize].
  destruct Halloc as (Hinv1 & Hdup & Hq & Hin).
  destruct (av_frame_ref_agree dup output w1) as [Hagree Hlive].
  pose proof (av_frame_ref_size dup output w1) as Hsize2.
  destruct (av_frame_ref dup output w1) as [referenced w2]. cbn [snd] in *.
  assert (Hinv2 : loop_invariant inputs p q w2)
    by (by apply (loop_invariant_agree dup inputs p q w1)).
  destruct (proj2 Hlive (mk_is_Some _ _ Hdup)) as [f2 Hf2].
  destruct referenced.
  - cbn [get_next_frame_pts].
    match goal with
    | |- context [update_frame dup ?g w2] =>
        set (w3 := update_frame dup g w2);
        assert (Hf3 : frames w3 !! dup = Some (g f2))
          by (unfold w3, update_frame; cbn; by rewrite lookup_alter_eq, Hf2);
        assert (Hsize3 : size (frames w3) = size (frames w2))
          by apply update_frame_size
    end.
    assert (Hinv3 : loop_invariant inputs
                      (set_counters (frame_counter_ p) (total_output_frames_ p + 1) p)
                      (ThreadSafeQueue.push (Some dup) q) w3).
    { eapply (loop_invariant_push dup _ inputs p q w3); [|exact Hf3|done..].
      apply (loop_invariant_agree dup inputs p q w2); try done.
      apply update_frame_agree. }
    specialize (IH output inputs _ _ w3 Hinv3).
    destruct (duplicate_frames count output _ _ w3) as [[p' q'] w'].
    destruct IH as [Hinv' Hacc]. split; [done|].
    rewrite Hacc, unaccounted_push by apply Hinv.
    unfold unaccounted. lia.
  - split.
    + apply (loop_invariant_agree dup inputs p q w2); try done.
      apply av_frame_free_agree.
    + pose proof (av_frame_free_size dup w2 (mk_is_Some _ _ Hf2)).
      unfold unaccounted. lia.
Qed.

Variable plane_layout : Z → Z → Z → list (Z * nat).
Variable sws_scale_pixels : list (list Z) → list (list Z).
Variable gl_rotate_pixels : float → list (list Z) → list (list Z).
Variable adjust_pixel : float → float → Z → Z.

(** The processing loop owns nothing when it ends: every input frame it
    popped is freed, and every frame it allocated is in the output queue
    or freed, whatever the outcomes of the external calls. *)
Lemma process_loop_accounts params input_finished : ∀ inputs p q w,
  NoDup inputs →
  loop_invariant inputs p q w →
  let r := process_loop plane_layout sws_scale_pixels gl_rotate_pixels adjust_pixel
             params (Some <$> inputs) input_finished p q w in
  unaccounted [] (output_queue_ r) (world_ r) = unaccounted inputs q w.
Proof.
  induction inputs as [|input inputs IH]; intros p q w Hnodup Hinv;
    cbn [fmap list_fmap process_loop].
  { destruct input_finished; cbn; unfold unaccounted; cbn; lia. }
  apply NoDup_cons in Hnodup as [Hfirst Hnodup].
  assert (Hfree : ∀ p' q' w',
    loop_invariant (input :: inputs) p' q' w' →
    unaccounted []
      (output_queue_ (process_loop plane_layout sws_scale_pixels gl_rotate_pixels
                        adjust_pixel params (Some <$> inputs) input_finished p' q'
                        (av_frame_free input w')))
      (world_ (process_loop plane_layout sws_scale_pixels gl_rotate_pixels
                 adjust_pixel params (Some <$> inputs) input_finished p' q'
                 (av_frame_free input w')))
    = unaccounted (input :: inputs) q' w').
  { intros p' q' w' Hinv'. rewrite IH; [|done|].
    - destruct Hinv' as (_ & _ & _ & Hin). destruct (Hin input) as [Hlive _]; [by left|].
      pose proof (av_frame_free_size input w' Hlive).
      unfold unaccounted. cbn [length]. lia.
    - apply (loop_invariant_agree input _ p' q' w'); [| |..|done].
      + apply (loop_invariant_weaken (input :: inputs)); [done|].
        intros a Ha. by right.
      + apply av_frame_free_agree.
      + destruct Hinv' as (_ & _ & _ & Hin). apply (Hin input). by left. }
  pose proof (av_frame_alloc_invariant _ p q w Hinv) as Halloc.
  pose proof (av_frame_alloc_size w) as Hsize.
  destruct (av_frame_alloc w) as [[output|] w1].
  2: { rewrite Hfree by done. unfold unaccounted. by rewrite Hsize. }
  destruct Halloc as (Hinv1 & Hblank & Hq & Hin).
  pose proof (process_frame_footprint plane_layout sws_scale_pixels gl_rotate_pixels
                adjust_pixel output [] input p w1) as Hfoot.
  destruct (process_frame _ _ _ _ (Some input) (Some output) p w1)
    as [[processed p1] w2].
  destruct Hfoot as ([(Hagree & Hdom & _) _] & Htotal & Hstamp).
  { split; [by intros id ?%elem_of_nil|]. intros id _. apply not_elem_of_nil. }
  assert (Hsize2 : size (frames w2) = size (frames w1)) by (by apply (size_agree _ _ output)).
  assert (Hinv2 : loop_invariant (input :: inputs) p q w2)
    by (by apply (loop_invariant_agree output _ p q w1)).
  destruct processed.
  - destruct (Hstamp eq_refl (mk_is_Some _ _ Hblank)) as (f & Hf & Hpts & Hdts & Hdur).
    pose proof (loop_invariant_push output f _ p q w2 Hinv2 Hf Hpts Hdts Hdur Hin)
      as Hpushed.
    assert (Hp1 : loop_invariant (input :: inputs) p1
                    (ThreadSafeQueue.push (Some output) q) w2).
    { destruct Hpushed as (? & Hlen & ? & ?). split_and!; try done.
      rewrite Htotal. cbn in Hlen. lia. }
    assert (Hacc1 : unaccounted (input :: inputs) (ThreadSafeQueue.push (Some output) q) w2
                    = unaccounted (input :: inputs) q w).
    { rewrite unaccounted_push by apply Hinv. unfold unaccounted. lia. }
    destruct (enable_speed_change params && (speed_factor params <? 1)%float).
    + pose proof (duplicate_frames_accounts
                    (Z.to_nat (Numeric.double_to_int (1 / speed_factor params) - 1))
                    output _ p1 _ w2 Hp1) as Hdup.
      destruct (duplicate_frames _ output p1 _ w2) as [[p3 q3] w3].
      destruct Hdup as [Hinv3 Hacc3]. rewrite Hfree by done. congruence.
    + rewrite Hfree by done. done.
  - rewrite Hfree.
    + destruct (proj2 Hdom (mk_is_Some _ _ Hblank)) as [f2 Hf2].
      pose proof (av_frame_free_size output w2 (mk_is_Some _ _ Hf2)).
      unfold unaccounted. lia.
    + assert (Hsame : loop_invariant (input :: inputs) p1 q w2).
      { destruct Hinv2 as (? & Hlen & ? & ?). split_and!; try done.
        rewrite Htotal. lia. }
      apply (loop_invariant_agree output _ p1 q w2); try done.
      apply av_frame_free_agree.
Qed.
End FrameAccounting.

(** X17: the video processor thread leaks no frame.  For distinct live
    input frames and whatever the outcomes of the external calls (failed
    allocations, conversions, references), once the processor is
    initialised the thread frees every input frame it pops and, of the
    frames it allocates, keeps exactly those it pushes: the number of live
    frames afterwards is the number before, less the inputs, plus the
    length of the output queue.  When the initialisation fails, the thread
    returns without touching any frame or queue. *)
Theorem video_thread_leaks_no_frame
    (plane_layout : Z → Z → Z → list (Z * nat))
    (sws_scale_pixels : list (list Z) → list (list Z))
    (gl_rotate_pixels : float → list (list Z) → list (list Z))
    (adjust_pixel : float → float → Z → Z)
    (inputs : list nat) (input_finished : bool)
    (params : VideoProcessor.VideoProcessParams)
    (input_width input_height input_format : Z) (w : Mem.World) :
  NoDup inputs →
  Forall (λ a, is_Some (Mem.frames w !! a)) inputs →
  let r := VideoProcessor.video_process_thread_func plane_layout sws_scale_pixels
             gl_rotate_pixels adjust_pixel
             (ThreadSafeQueue.mk (Some <$> inputs) input_finished) ThreadSafeQueue.new
             params input_width input_height input_format w in
  if (VideoProcessor.initialize input_width input_height input_format params
        VideoProcessor.new w).1.1
  then (Z.of_nat (size (Mem.frames (VideoProcessor.world_ r)))
        = Z.of_nat (size (Mem.frames w)) - Z.of_nat (length inputs)
          + Z.of_nat (length (ThreadSafeQueue.queue_ (VideoProcessor.output_queue_ r))))%Z
  else Mem.frames (VideoProcessor.world_ r) = Mem.frames w
       ∧ VideoProcessor.output_queue_ r = ThreadSafeQueue.new.
Proof.
  intros Hnodup Hlive. cbn zeta. unfold VideoProcessor.video_process_thread_func.
  pose proof (initialize_spec input_width input_height input_format params w) as Hinit.
  destruct (VideoProcessor.initialize _ _ _ _ _ w) as [[initialized p] w1].
  destruct Hinit as [Htotal Hframes]. cbn [fst snd].
  destruct initialized; cbn [negb]; [|done].
  cbn [ThreadSafeQueue.queue_ ThreadSafeQueue.finished_].
  pose proof (process_loop_accounts plane_layout sws_scale_pixels gl_rotate_pixels
                adjust_pixel params input_finished inputs p ThreadSafeQueue.new w1 Hnodup)
    as Hacc.
  cbn zeta in Hacc. unfold VideoProcessor.unaccounted in Hacc.
  cbn [length ThreadSafeQueue.queue_ ThreadSafeQueue.new] in Hacc.
  rewrite Hframes in Hacc. rewrite <- Hframes at 1.
  assert (Hinv : VideoProcessor.loop_invariant inputs p ThreadSafeQueue.new w1).
  { split_and!; try done.
    intros a Ha. rewrite Hframes. split; [|apply not_elem_of_nil].
    by apply (proj1 (Forall_forall _ _) Hlive). }
  specialize (Hacc Hinv). rewrite Hframes. lia.
Qed.

Lemma video_thread_leaks_no_frame_witness :
  let r := VideoProcessor.video_process_thread_func Scenario.yuv420p_layout id (λ _, id)
             (λ _ _, id) (ThreadSafeQueue.mk (Some <$> [0; 1]%nat) true)
             ThreadSafeQueue.new Scenario.slow_motion 4 4 0 Scenario.video_world in
  (Z.of_nat (size (Mem.frames (VideoProcessor.world_ r)))
   = Z.of_nat (size (Mem.frames Scenario.video_world)) - Z.of_nat (length [0; 1]%nat)
     + Z.of_nat (length (ThreadSafeQueue.queue_ (VideoProcessor.output_queue_ r))))%Z.
Proof.
  apply (video_thread_leaks_no_frame Scenario.yuv420p_layout id (λ _, id) (λ _ _, id)
           [0; 1]%nat true Scenario.slow_motion 4 4 0 Scenario.video_world).
  - apply (bool_decide_unpack _). vm_compute. exact I.
  - apply (bool_decide_unpack _). vm_compute. exact I.
Defined.

(** ** The encoder threads on a codec with delay (video_encoder.cpp,
    audio_encoder.cpp) *)

Section DelayedEncoding.
Import Encoder.
Local Open Scope Z_scope.

Lemma receive_loop_ready fs d held drain ready : ∀ fuel l count,
  (length ready < fuel)%nat →
  receive_loop fuel
    (mkSink (mkDelay fs d held ready drain) (ThreadSafeQueue.mk l false) [] count)
  = Some (if drain then AVERROR_EOF else EAGAIN,
          mkSink (mkDelay fs d held [] drain)
            (ThreadSafeQueue.mk (l ++ (Some <$> ready)) false) []
            (count + Z.of_nat (length ready))).
Proof.
  induction ready as [|p ready IH]; intros [|fuel] l count Hfuel; cbn in Hfuel; try lia.
  - cbn. destruct drain; rewrite app_nil_r, Z.add_0_r; reflexivity.
  - cbn [receive_loop avcodec_receive_packet delay_codec codec_context
         Encoder.ready script_ Script.next output_queue pushed
         delay Encoder.held draining frame_size_].
    unfold ThreadSafeQueue.push. cbn [ThreadSafeQueue.finished_ ThreadSafeQueue.queue_ negb].
    rewrite IH by lia. cbn [fmap list_fmap length].
    rewrite <- app_assoc. cbn. do 3 f_equal. lia.
Qed.

(** Flushing hands over everything the codec held back. *)
Lemma drain_delay fs d held l count fuel :
  (length held < fuel)%nat →
  drain fuel (mkSink (mkDelay fs d held [] false) (ThreadSafeQueue.mk l false) [] count)
  = Some (mkSink (mkDelay fs d [] [] true)
            (ThreadSafeQueue.mk (l ++ (Some <$> held)) false) []
            (count + Z.of_nat (length held))).
Proof.
  intros Hfuel. unfold drain.
  cbn [avcodec_send_frame delay_codec codec_context draining Encoder.held Encoder.ready
       delay frame_size_ app with_context output_queue script_ pushed].
  unfold with_context. cbn [codec_context output_queue script_ pushed].
  by rewrite receive_loop_ready.
Qed.

(** What sending one frame to the codec releases. *)
Lemma delay_send_frame fs d held frame :
  (length held ≤ d)%nat →
  let held' := held ++ [encoded frame] in
  let released := (length held' - d)%nat in
  avcodec_send_frame (Some frame) (mkDelay fs d held [] false)
  = (0, mkDelay fs d (drop released held') (take released held') false)
  ∧ (length (drop released held') ≤ d)%nat.
Proof.
  intros Hheld. cbn zeta. split; [reflexivity|].
  rewrite length_drop, length_app. cbn. lia.
Qed.

Lemma send_and_receive fs d held frame l count fuel :
  (length held ≤ d)%nat → (2 ≤ fuel)%nat →
  let held' := held ++ [encoded frame] in
  let released := (length held' - d)%nat in
  let s := mkSink (mkDelay fs d held [] false) (ThreadSafeQueue.mk l false) [] count in
  (avcodec_send_frame (Some frame) (codec_context s)).1 = 0
  ∧ receive_loop fuel
      (with_context (avcodec_send_frame (Some frame) (codec_context s)).2 s)
    = Some (EAGAIN,
            mkSink (mkDelay fs d (drop released held') [] false)
              (ThreadSafeQueue.mk (l ++ (Some <$> take released held')) false) []
              (count + Z.of_nat (length (take released held'))))
  ∧ (length (drop released held') ≤ d)%nat.
Proof.
  intros Hheld Hfuel. cbn zeta. cbn [codec_context].
  destruct (delay_send_frame fs d held frame Hheld) as [-> Hheld'].
  cbn [fst snd]. split; [done|]. split; [|done].
  unfold with_context. cbn [output_queue script_ pushed].
  rewrite receive_loop_ready; [done|].
  rewrite length_take, length_app. cbn [length]. lia.
Qed.

(** The frame loop of the video encoder thread numbers the frames of the
    right size from [n] on and passes by the others. *)
Lemma video_encode_loop_delay params fs d : ∀ (frames : list AVFrame) held l count n fuel,
  (length held ≤ d)%nat → (2 ≤ fuel)%nat →
  let fit := filter (λ f, fits params f) frames in
  let all := held ++ (mkPacket <$> seqZ n (Z.of_nat (length fit))) in
  video_encode_loop params fuel (Some <$> frames) true n
    (mkSink (mkDelay fs d held [] false) (ThreadSafeQueue.mk l false) [] count)
  = Some (true, n + Z.of_nat (length fit),
          mkSink (mkDelay fs d (drop (length all - d) all) [] false)
            (ThreadSafeQueue.mk (l ++ (Some <$> take (length all - d) all)) false) []
            (count + Z.of_nat (length (take (length all - d) all)))).
Proof.
  induction frames as [|frame frames IH]; intros held l count n fuel Hheld Hfuel; cbn zeta.
  - cbn [fmap list_fmap video_encode_loop filter list_filter length seqZ Z.of_nat].
    change (seqZ n 0) with (@nil Z). cbn [fmap list_fmap]. rewrite app_nil_r.
    replace (length held - d)%nat with 0%nat by lia.
    rewrite take_0, drop_0. cbn. by rewrite app_nil_r, !Z.add_0_r.
  - cbn [fmap list_fmap video_encode_loop].
    rewrite filter_cons.
    change (negb (width (restamped n frame) =? params_width params)
            || negb (height (restamped n frame) =? params_height params))
      with (negb (width frame =? params_width params)
            || negb (height frame =? params_height params)).
    rewrite <- negb_andb. fold (fits params frame).
    destruct (fits params frame) eqn:Hfits; cbn [negb].
    + rewrite decide_True by done.
      destruct (send_and_receive fs d held (restamped n frame) l count fuel Hheld Hfuel)
        as (Hret & Hloop & Hheld').
      cbn zeta in Hret, Hloop, Hheld'.
      destruct (avcodec_send_frame _ _) as [ret ctx]. cbn [fst snd] in Hret, Hloop.
      subst ret. cbn [Z.ltb Z.compare]. rewrite Hloop.
      rewrite IH by done. cbn zeta. cbn [length].
      rewrite Nat2Z.inj_succ. rewrite (seqZ_cons n (Z.succ _)) by lia.
      rewrite Z.pred_succ. cbn [fmap list_fmap].
      change (encoded (restamped n frame)) with (mkPacket n) in *.
      change (Z.succ n) with (n + 1).
      destruct (delay_split d held (mkPacket n)
                  (mkPacket <$> seqZ (n + 1) (Z.of_nat (length (filter (λ f, fits params f) frames))))
                  Hheld) as [Htake Hdrop].
      cbn zeta in Htake, Hdrop. rewrite Hdrop.
      rewrite <- app_assoc, <- fmap_app, Htake.
      f_equal. f_equal; [f_equal; lia|].
      f_equal. rewrite <- Htake, !length_app. lia.
    + rewrite decide_False by (intros []).
      by rewrite IH.
Qed.

(** [encode_frame] on this codec: a frame is either passed by or sent,
    and then the packets that the codec releases are pushed. *)
Lemma encode_frame_delay encoder fs d held frame l count fuel :
  (length held ≤ d)%nat → (2 ≤ fuel)%nat →
  let held' := held ++ [encoded frame] in
  let released := (length held' - d)%nat in
  let s := mkSink (mkDelay fs d held [] false) (ThreadSafeQueue.mk l false) [] count in
  encode_frame encoder fuel (Some frame) s
  = Some (accepted encoder fs frame,
          if accepted encoder fs frame then
            mkSink (mkDelay fs d (drop released held') [] false)
              (ThreadSafeQueue.mk (l ++ (Some <$> take released held')) false) []
              (count + Z.of_nat (length (take released held')))
          else s).
Proof.
  intros Hheld Hfuel. cbn zeta.
  destruct (send_and_receive fs d held frame l count fuel Hheld Hfuel)
    as (Hret & Hloop & _).
  cbn zeta in Hret, Hloop. cbn [codec_context] in Hret, Hloop.
  destruct encoder; cbn [encode_frame accepted checks_frame_size Script.next script_ negb
                         codec_context output_queue pushed andb from_option
                         frame_size delay_codec frame_size_]; try done.
  - destruct (nb_samples frame =? fs); cbn [negb]; [|done].
    destruct (avcodec_send_frame _ _) as [ret ctx]. cbn [fst snd] in Hret, Hloop.
    subst ret. cbn [Z.ltb Z.compare]. by rewrite Hloop.
  - destruct (avcodec_send_frame _ _) as [ret ctx]. cbn [fst snd] in Hret, Hloop.
    subst ret. cbn [Z.ltb Z.compare]. by rewrite Hloop.
  - destruct (avcodec_send_frame _ _) as [ret ctx]. cbn [fst snd] in Hret, Hloop.
    subst ret. cbn [Z.ltb Z.compare]. by rewrite Hloop.
Qed.

Lemma factory_loop_delay encoder fs d :
  ∀ (frames : list AVFrame) held l count frame_count encoded_frames fuel,
  (length held ≤ d)%nat → (2 ≤ fuel)%nat →
  let taken := filter (λ f, accepted encoder fs f) frames in
  let all := held ++ (encoded <$> taken) in
  factory_loop encoder fuel (Some <$> frames) true frame_count encoded_frames
    (mkSink (mkDelay fs d held [] false) (ThreadSafeQueue.mk l false) [] count)
  = Some (true, frame_count + Z.of_nat (length frames),
          encoded_frames + Z.of_nat (length taken),
          mkSink (mkDelay fs d (drop (length all - d) all) [] false)
            (ThreadSafeQueue.mk (l ++ (Some <$> take (length all - d) all)) false) []
            (count + Z.of_nat (length (take (length all - d) all)))).
Proof.
  induction frames as [|frame frames IH];
    intros held l count frame_count encoded_frames fuel Hheld Hfuel; cbn zeta.
  - cbn [fmap list_fmap factory_loop filter list_filter length Z.of_nat].
    rewrite app_nil_r. replace (length held - d)%nat with 0%nat by lia.
    rewrite take_0, drop_0. cbn. by rewrite app_nil_r, !Z.add_0_r.
  - cbn [fmap list_fmap factory_loop]. rewrite filter_cons.
    pose proof (encode_frame_delay encoder fs d held frame l count fuel Hheld Hfuel)
      as Hencode.
    cbn zeta in Hencode. rewrite Hencode.
    destruct (accepted encoder fs frame) eqn:Haccepted.
    + rewrite decide_True by done.
      rewrite IH; [|rewrite length_drop, length_app; cbn [length]; lia|done].
      cbn zeta. cbn [length fmap list_fmap].
      destruct (delay_split d held (encoded frame)
                  (encoded <$> filter (λ f, accepted encoder fs f) frames) Hheld)
        as [Htake Hdrop].
      cbn zeta in Htake, Hdrop. rewrite Hdrop.
      rewrite <- app_assoc, <- fmap_app, Htake.
      f_equal. f_equal; [f_equal; [f_equal|]; lia|].
      f_equal. rewrite <- Htake, !length_app. lia.
    + rewrite decide_False by (intros []).
      rewrite IH by done. cbn zeta. cbn [length].
      by replace (frame_count + Z.of_nat (S (length frames)))
        with (frame_count + 1 + Z.of_nat (length frames)) by lia.
Qed.

Lemma copy_accepts_nothing fs (frames : list AVFrame) :
  filter (λ f, accepted COPY fs f) frames = [].
Proof.
  induction frames as [|f frames IH]; [done|].
  rewrite filter_cons. cbn [accepted]. by rewrite decide_False by (intros []).
Qed.

End DelayedEncoding.

(** X18: the video encoder thread numbers the frames it encodes.  On a
    codec that holds back the packets of its last [d] frames until it is
    flushed, with every library call succeeding and a finished input queue
    of fewer than [2^31] frames (the counters are C [int]s), the thread
    passes by every frame whose width or height differs from the
    configured one, overwrites the pts of the others with 0, 1, 2, ... in
    queue order, whatever pts they came with, and delivers one packet for
    each of them: the flush request is sent and answered, the output queue
    is finished, and both counters hold the number of frames encoded. *)
Theorem video_encoder_renumbers_fitting_frames (params : Encoder.VideoEncoderParams)
    (fs : Z) (d : nat) (frames : list Encoder.AVFrame)
    (l : list (option Encoder.AVPacket)) (fuel : nat) :
  (d + 2 ≤ fuel)%nat →
  (Z.of_nat (length frames) < 2 ^ 31)%Z →
  let fitting := filter (λ f, Encoder.fits params f) frames in
  let count := Z.of_nat (length fitting) in
  Encoder.video_encode_thread_func fuel
    (ThreadSafeQueue.mk (Some <$> frames) true) (ThreadSafeQueue.mk l false)
    params (Encoder.mkDelay fs d [] [] false) []
  = Some (Encoder.mkResult Stage.Returned
            (Encoder.mkSink (Encoder.mkDelay fs d [] [] true)
               (ThreadSafeQueue.mk (l ++ (Some <$> (Encoder.mkPacket <$> seqZ 0 count))) true)
               [] count)
            count count).
Proof.
  intros Hfuel _. cbn zeta. unfold Encoder.video_encode_thread_func.
  cbn [Decoder.setup Script.next negb ThreadSafeQueue.queue_ ThreadSafeQueue.finished_].
  rewrite (video_encode_loop_delay params fs d frames [] l 0 0 fuel) by (cbn; lia).
  cbn zeta. cbn [app]. unfold Encoder.flush_and_finish.
  rewrite drain_delay by (rewrite length_drop; lia).
  cbn [mbind option_bind Encoder.codec_context Encoder.output_queue Encoder.script_
       Encoder.pushed ThreadSafeQueue.finish ThreadSafeQueue.queue_].
  rewrite <- app_assoc, <- fmap_app, take_drop.
  rewrite length_take, length_drop, !length_fmap, length_seqZ.
  do 2 f_equal; [f_equal|]; lia.
Qed.

Lemma video_encoder_renumbers_fitting_frames_witness :
  Encoder.video_encode_thread_func 4
    (ThreadSafeQueue.mk
       (Some <$> [Encoder.mkFrame 4 4 0 0 40 40; Encoder.mkFrame 8 4 0 0 41 41;
                  Encoder.mkFrame 4 4 0 0 42 42]) true)
    (ThreadSafeQueue.mk [] false) (Encoder.mkVideoParams 4 4 0)
    (Encoder.mkDelay 0 2 [] [] false) []
  = Some (Encoder.mkResult Stage.Returned
            (Encoder.mkSink (Encoder.mkDelay 0 2 [] [] true)
               (ThreadSafeQueue.mk [Some (Encoder.mkPacket 0); Some (Encoder.mkPacket 1)] true)
               [] 2)
            2 2).
Proof.
  apply (video_encoder_renumbers_fitting_frames (Encoder.mkVideoParams 4 4 0) 0 2
           [Encoder.mkFrame 4 4 0 0 40 40; Encoder.mkFrame 8 4 0 0 41 41;
            Encoder.mkFrame 4 4 0 0 42 42] [] 4).
  - lia.
  - simpl. lia.
Defined.

(** X19: what the audio encoder thread of the factory delivers.  On the
    same kind of codec, with every library call succeeding and a finished
    input queue, the thread consumes every frame and delivers, in queue
    order and with the pts of its frame, one packet for each frame that
    its encoder accepts: [AC3Encoder] only the frames whose [nb_samples]
    equals [frame_size] of the codec, [AACEncoder] and [MP3Encoder] every
    frame, [CopyEncoder] none.  The three codecs are flushed, the output
    queue is finished; [frame_count] counts the frames consumed and
    [encoded_frames] those accepted. *)
Theorem audio_encoder_factory_delivers_accepted_frames
    (encoder : Encoder.TargetAudioFormat) (fs : Z) (d : nat)
    (frames : list Encoder.AVFrame) (l : list (option Encoder.AVPacket)) (fuel : nat) :
  (d + 2 ≤ fuel)%nat →
  (Z.of_nat (length frames) < 2 ^ 31)%Z →
  let taken := filter (λ f, Encoder.accepted encoder fs f) frames in
  let flushed := match encoder with Encoder.COPY => false | _ => true end in
  Encoder.audio_encode_thread_func_factory fuel
    (ThreadSafeQueue.mk (Some <$> frames) true) (ThreadSafeQueue.mk l false)
    encoder (Encoder.mkDelay fs d [] [] false) []
  = Some (Encoder.mkResult Stage.Returned
            (Encoder.mkSink (Encoder.mkDelay fs d [] [] flushed)
               (ThreadSafeQueue.mk (l ++ (Some <$> (Encoder.encoded <$> taken))) true)
               [] (Z.of_nat (length taken)))
            (Z.of_nat (length frames)) (Z.of_nat (length taken))).
Proof.
  intros Hfuel _. cbn zeta. unfold Encoder.audio_encode_thread_func_factory.
  assert (Hinit : Encoder.initialize encoder [] = (true, [])) by (by destruct encoder).
  rewrite Hinit. cbn [negb ThreadSafeQueue.queue_ ThreadSafeQueue.finished_].
  rewrite (factory_loop_delay encoder fs d frames [] l 0 0 0 fuel) by (cbn; lia).
  cbn zeta. cbn [app].
  set (taken := filter (λ f, Encoder.accepted encoder fs f) frames).
  set (packets := Encoder.encoded <$> taken).
  assert (Hflush :
    Encoder.flush encoder fuel
      (Encoder.mkSink (Encoder.mkDelay fs d (drop (length packets - d) packets) [] false)
         (ThreadSafeQueue.mk (l ++ (Some <$> take (length packets - d) packets)) false) []
         (0 + Z.of_nat (length (take (length packets - d) packets))))
    = Some (true,
            Encoder.mkSink
              (Encoder.mkDelay fs d [] [] (match encoder with Encoder.COPY => false | _ => true end))
              (ThreadSafeQueue.mk (l ++ (Some <$> packets)) false) []
              (Z.of_nat (length packets)))).
  { assert (Hdrained :
      Encoder.drain fuel
        (Encoder.mkSink (Encoder.mkDelay fs d (drop (length packets - d) packets) [] false)
           (ThreadSafeQueue.mk (l ++ (Some <$> take (length packets - d) packets)) false) []
           (0 + Z.of_nat (length (take (length packets - d) packets))))
      = Some (Encoder.mkSink (Encoder.mkDelay fs d [] [] true)
                (ThreadSafeQueue.mk (l ++ (Some <$> packets)) false) []
                (Z.of_nat (length packets)))).
    { rewrite drain_delay by (rewrite length_drop; lia).
      rewrite <- app_assoc, <- fmap_app, take_drop.
      do 2 f_equal. rewrite length_take, length_drop. lia. }
    destruct encoder;
      cbn [Encoder.flush Script.next Encoder.script_ negb Encoder.codec_context
           Encoder.output_queue Encoder.pushed];
      try (by rewrite Hdrained).
    subst packets taken. rewrite copy_accepts_nothing.
    cbn [fmap list_fmap length]. by rewrite take_nil, drop_nil. }
  rewrite Hflush. cbn [fmap option_fmap option_map snd mbind option_bind
                       Encoder.codec_context Encoder.output_queue Encoder.script_
                       Encoder.pushed ThreadSafeQueue.finish ThreadSafeQueue.queue_].
  subst packets. rewrite !length_fmap, !Z.add_0_l. done.
Qed.

Lemma audio_encoder_factory_delivers_accepted_frames_witness :
  Encoder.audio_encode_thread_func_factory 3
    (ThreadSafeQueue.mk
       (Some <$> [Encoder.mkFrame 0 0 8 1536 0 0; Encoder.mkFrame 0 0 8 1024 1536 0;
                  Encoder.mkFrame 0 0 8 1536 2560 0]) true)
    (ThreadSafeQueue.mk [] false) Encoder.AC3 (Encoder.mkDelay 1536 1 [] [] false) []
  = Some (Encoder.mkResult Stage.Returned
            (Encoder.mkSink (Encoder.mkDelay 1536 1 [] [] true)
               (ThreadSafeQueue.mk [Some (Encoder.mkPacket 0); Some (Encoder.mkPacket 2560)]
                                   true)
               [] 2)
            3 2).
Proof.
  apply (audio_encoder_factory_delivers_accepted_frames Encoder.AC3 1536 1
           [Encoder.mkFrame 0 0 8 1536 0 0; Encoder.mkFrame 0 0 8 1024 1536 0;
            Encoder.mkFrame 0 0 8 1536 2560 0] [] 3).
  - lia.
  - simpl. lia.
Defined.

(** ** The two audio encoder threads (audio_encoder.cpp) *)

Section EncoderThreads.
Import Encoder.
Local Open Scope Z_scope.
Context {C : Type} `{Codec C}.

Lemma receive_loop_calm : ∀ fuel (s : Sink C) last s',
  script_ s = [] →
  receive_loop fuel s = Some (last, s') →
  script_ s' = [].
Proof.
  induction fuel as [|fuel IH]; intros s last s' Hscript Hloop; [done|].
  cbn [receive_loop] in Hloop.
  destruct (avcodec_receive_packet (codec_context s)) as [received ctx].
  rewrite Hscript in Hloop. cbn [Script.next] in Hloop.
  destruct received; try (by simplify_eq).
  by apply IH in Hloop.
Qed.

Lemma drain_calm fuel (s s' : Sink C) :
  script_ s = [] → drain fuel s = Some s' → script_ s' = [].
Proof.
  unfold drain. intros Hscript Hdrain.
  destruct (avcodec_send_frame None (codec_context s)) as [ret ctx].
  destruct (receive_loop fuel (with_context ctx s)) as [[last s'']|] eqn:Hloop;
    [|done].
  cbn in Hdrain. simplify_eq.
  by apply (receive_loop_calm fuel (with_context ctx s) last).
Qed.

(** Without a size check, [encode_frame] is the body of the loop of
    [audio_encode_thread_func]. *)
Lemma loops_agree encoder fuel input_finished :
  encoder = AAC ∨ encoder = MP3 →
  ∀ pending frame_count frame_count' encoded_frames (s : Sink C),
  script_ s = [] →
  (λ r, (r.1.1.1, r.2)) <$> factory_loop encoder fuel pending input_finished
                              frame_count encoded_frames s
  = (λ r, (r.1.1, r.2)) <$> audio_encode_loop fuel pending input_finished frame_count' s.
Proof.
  intros Hencoder.
  induction pending as [|[frame|] pending IH];
    intros frame_count frame_count' encoded_frames s Hscript; [done| |done].
  cbn [factory_loop audio_encode_loop].
  assert (Hencode :
    encode_frame encoder fuel (Some frame) s
    = let '(ret, ctx) := avcodec_send_frame (Some frame) (codec_context s) in
      if ret <? 0 then Some (false, with_context ctx s)
      else match receive_loop fuel (with_context ctx s) with
           | Some (AVERROR_OTHER, s) => Some (false, s)
           | Some (_, s) => Some (true, s)
           | None => None
           end).
  { destruct s as [ctx queue script count]. cbn [script_] in Hscript. subst script.
    by destruct Hencoder as [-> | ->]. }
  rewrite Hencode.
  destruct (avcodec_send_frame (Some frame) (codec_context s)) as [ret ctx].
  destruct (ret <? 0).
  - apply IH. by destruct s.
  - destruct (receive_loop fuel (with_context ctx s)) as [[last s']|] eqn:Hloop; [|done].
    assert (Hscript' : script_ s' = []).
    { apply (receive_loop_calm fuel (with_context ctx s) last); [|done]. by destruct s. }
    destruct last; by apply IH.
Qed.

Lemma audio_encode_loop_calm fuel input_finished :
  ∀ pending frame_count (s : Sink C) ended frame_count' s',
  script_ s = [] →
  audio_encode_loop fuel pending input_finished frame_count s
  = Some (ended, frame_count', s') →
  script_ s' = [].
Proof.
  induction pending as [|[frame|] pending IH];
    intros frame_count s ended frame_count' s' Hscript Hloop;
    cbn [audio_encode_loop] in Hloop; [by simplify_eq| |by simplify_eq].
  destruct (avcodec_send_frame (Some frame) (codec_context s)) as [ret ctx].
  destruct (ret <? 0).
  - apply IH in Hloop; [done|by destruct s].
  - destruct (receive_loop fuel (with_context ctx s)) as [[last s1]|] eqn:Hreceive;
      [|done].
    apply IH in Hloop; [done|].
    apply (receive_loop_calm fuel (with_context ctx s) last); [by destruct s|done].
Qed.

End EncoderThreads.

(** X20: the factory thread with [AACEncoder] or [MP3Encoder] encodes as
    [audio_encode_thread_func] does.  For every codec, every input queue
    (null units and unfinished queues included) and every number of
    receive calls granted, with the allocator succeeding, the two thread
    functions end in the same way and leave the same output queue and the
    same codec state. *)
Theorem factory_thread_agrees_with_plain_thread {C : Type} `{Encoder.Codec C}
    (encoder : Encoder.TargetAudioFormat) (fuel : nat)
    (audio_frame_queue : ThreadSafeQueue.t (option Encoder.AVFrame))
    (encoded_audio_queue : ThreadSafeQueue.t (option Encoder.AVPacket)) (ctx : C) :
  encoder = Encoder.AAC ∨ encoder = Encoder.MP3 →
  (λ r, (Encoder.exit_ r, Encoder.sink r))
    <$> Encoder.audio_encode_thread_func_factory fuel audio_frame_queue
          encoded_audio_queue encoder ctx []
  = (λ r, (Encoder.exit_ r, Encoder.sink r))
      <$> Encoder.audio_encode_thread_func fuel audio_frame_queue encoded_audio_queue ctx [].
Proof.
  intros Hencoder.
  unfold Encoder.audio_encode_thread_func_factory, Encoder.audio_encode_thread_func.
  assert (Hinit : Encoder.initialize encoder [] = (true, []))
    by (by destruct Hencoder as [-> | ->]).
  rewrite Hinit. cbn [Decoder.setup Script.next negb].
  set (s := Encoder.mkSink ctx encoded_audio_queue [] 0).
  pose proof (loops_agree encoder fuel (ThreadSafeQueue.finished_ audio_frame_queue)
                Hencoder (ThreadSafeQueue.queue_ audio_frame_queue) 0 0 0 s eq_refl)
    as Hloops.
  destruct (Encoder.factory_loop _ _ _ _ _ _ _) as [[[[ended n] m] s1]|] eqn:Hfactory;
    destruct (Encoder.audio_encode_loop _ _ _ _ _) as [[[ended' n'] s2]|] eqn:Hplain;
    cbn in Hloops; simplify_eq; [|done].
  destruct ended'; [|done].
  assert (Hscript : Encoder.script_ s2 = [])
    by (by apply (audio_encode_loop_calm _ _ _ _ s _ _ _ eq_refl Hplain)).
  unfold Encoder.flush_and_finish.
  assert (Hflush : Encoder.flush encoder fuel s2 = pair true <$> Encoder.drain fuel s2).
  { destruct s2 as [ctx2 queue2 script2 count2]. cbn [Encoder.script_] in Hscript.
    subst script2. by destruct Hencoder as [-> | ->]. }
  rewrite Hflush.
  by destruct (Encoder.drain fuel s2).
Qed.

Lemma factory_thread_agrees_with_plain_thread_witness :
  (λ r, (Encoder.exit_ r, Encoder.sink r))
    <$> Encoder.audio_encode_thread_func_factory 3
          (ThreadSafeQueue.mk [Some (Encoder.mkFrame 0 0 8 1024 0 0); None] false)
          (ThreadSafeQueue.mk [] false) Encoder.AAC (Encoder.mkDelay 1024 1 [] [] false) []
  = (λ r, (Encoder.exit_ r, Encoder.sink r))
      <$> Encoder.audio_encode_thread_func 3
            (ThreadSafeQueue.mk [Some (Encoder.mkFrame 0 0 8 1024 0 0); None] false)
            (ThreadSafeQueue.mk [] false) (Encoder.mkDelay 1024 1 [] [] false) [].
Proof.
  apply (factory_thread_agrees_with_plain_thread Encoder.AAC 3
           (ThreadSafeQueue.mk [Some (Encoder.mkFrame 0 0 8 1024 0 0); None] false)
           (ThreadSafeQueue.mk [] false) (Encoder.mkDelay 1024 1 [] [] false)).
  by left.
Defined.

(** ** The samples through the repacketizer (audio_processor.cpp) *)

Section Conservation.
Import AudioProcessor.
Local Open Scope Z_scope.
Context {Tempo : Type}.
Variable tempo_put : Tempo → list float → Tempo * list float.
Variable tempo_flush : Tempo → Tempo * list float.
Variable C : Z.
Hypothesis C_mono_or_stereo : C = 1 ∨ C = 2.
Variable units : list (option AVFrame).
Variable filter_frames : AVFrame → list AVFrame.
Variable filter_flush_frames : list AVFrame.
Implicit Types (p : t Tempo) (ring : AudioRingBuffer) (touch : SoundTouch Tempo).

Lemma length_contents ring :
  0 ≤ available_ ring → Z.of_nat (length (contents ring)) = available_ ring.
Proof.
  intros Ha. unfold contents, contents_of. rewrite length_fmap, length_seqZ. lia.
Qed.

Lemma write_samples_fits samples n ring :
  ring_ok C ring →
  n * C = Z.of_nat (length samples) →
  available_ ring + n * C ≤ 1536 * C * 4 →
  ∃ ring', write_samples samples n ring = (true, ring')
    ∧ ring_ok C ring'
    ∧ contents ring' = contents ring ++ samples
    ∧ available_ ring' = available_ ring + n * C.
Proof.
  intros (Hfs & Hchannels & Hsize & (Hr & Ha & Hw) & Hwhole) Hn Hfit.
  unfold write_samples. rewrite Hchannels.
  set (N := Z.of_nat (length (buffer_ ring))) in *.
  assert ((N <? available_ ring + n * C) = false) as -> by lia.
  destruct (write_loop_spec samples N (seqZ 0 (n * C)) (buffer_ ring)
              (read_pos_ ring) (available_ ring))
    as (buffer' & Hrun & Hlen & Hcontents); try (rewrite ?length_seqZ; lia).
  rewrite Hw, Hrun. rewrite length_seqZ, Z2Nat.id in * by lia.
  eexists. split; [reflexivity|].
  unfold ring_ok, contents, ring_invariant.
  cbn [buffer_ read_pos_ available_ write_pos_ frame_size_ channels_].
  rewrite Hcontents, sample_seqZ, Hlen by lia. fold N.
  rewrite Hn, Nat2Z.id, firstn_all.
  split_and!; try done; try lia.
  rewrite <- Hn, Z.add_mod, Hwhole, Z_mod_mult by lia. by rewrite Z.mod_0_l by lia.
Qed.

Lemma read_frame_short ring :
  ring_ok C ring → available_ ring < 1536 * C → read_frame ring = (None, ring).
Proof.
  intros (Hfs & Hchannels & _) Hshort. unfold read_frame.
  rewrite Hfs, Hchannels. by assert ((available_ ring <? 1536 * C) = true) as -> by lia.
Qed.

Lemma read_frame_full ring :
  ring_ok C ring → 1536 * C ≤ available_ ring →
  ∃ ring', read_frame ring = (Some (take (Z.to_nat (1536 * C)) (contents ring)), ring')
    ∧ ring_ok C ring'
    ∧ contents ring' = drop (Z.to_nat (1536 * C)) (contents ring)
    ∧ available_ ring' = available_ ring - 1536 * C.
Proof.
  intros (Hfs & Hchannels & Hsize & (Hr & Ha & Hw) & Hwhole) Hfull.
  unfold read_frame. rewrite Hfs, Hchannels.
  set (total := 1536 * C) in *.
  set (N := Z.of_nat (length (buffer_ ring))) in *.
  assert ((available_ ring <? total) = false) as -> by lia.
  pose proof (read_loop_spec (buffer_ ring) N (read_pos_ ring) (Z.to_nat total) eq_refl Hr)
    as Hloop.
  rewrite Z2Nat.id in Hloop by lia. rewrite Hloop.
  eexists. split.
  { f_equal. f_equal. unfold contents, contents_of. fold N.
    rewrite <- fmap_take. f_equal.
    apply list_eq. intros k. rewrite lookup_take.
    destruct (decide (k < Z.to_nat total)%nat).
    - by rewrite !lookup_seqZ_lt by lia.
    - by rewrite lookup_seqZ_ge by lia. }
  unfold ring_ok, contents, ring_invariant, contents_of.
  cbn [buffer_ read_pos_ available_ write_pos_ frame_size_ channels_]. fold N.
  pose proof (Z.mod_pos_bound (read_pos_ ring + total) N).
  split_and!; try done; try lia.
  - rewrite Zplus_mod_idemp_l, Hw. f_equal. lia.
  - subst total. replace (available_ ring - 1536 * C)
      with (available_ ring + (-1536) * C) by lia.
    by rewrite Z_mod_plus_full.
  - rewrite <- fmap_drop.
    assert (Hseq : drop (Z.to_nat total) (seqZ 0 (available_ ring))
                   = seqZ total (available_ ring - total)).
    { replace (available_ ring) with (total + (available_ ring - total)) at 1 by lia.
      rewrite seqZ_app by lia.
      rewrite drop_app_length' by (rewrite length_seqZ; lia). by rewrite Z.add_0_l. }
    rewrite Hseq.
    rewrite <- (Z.add_0_r total) at 2.
    rewrite <- (fmap_add_seqZ total 0), <- list_fmap_compose.
    apply list_fmap_ext. intros k i _. cbn.
    rewrite Zplus_mod_idemp_l. do 2 f_equal. lia.
Qed.

(** The two layout conversions undo each other on a buffer of
    [n * channels] samples. *)
Lemma interleaved_planar (samples : list float) n fmt rate stamp :
  0 ≤ n → Z.of_nat (length samples) = n * C →
  interleaved C (mkFrame n fmt C rate stamp (planar C n samples)) = samples.
Proof.
  intros Hn Hlen. unfold interleaved, planar. cbn [data nb_samples].
  destruct C_mono_or_stereo as [HC | HC]; rewrite HC in *;
    cbn [Z.eqb Pos.eqb lookup list_lookup default from_option]; unfold id.
  - rewrite take_take, Nat.min_id. apply firstn_all2. lia.
  - transitivity (take (2 * Z.to_nat n) samples); [|apply firstn_all2; lia].
    rewrite <- (interleave_pairs samples (Z.to_nat n)) by lia.
    rewrite Z2Nat.id by lia. f_equal.
    apply list_fmap_ext. intros k i Hi. apply lookup_seqZ in Hi as [-> Hk].
    by rewrite !sample_fmap_seqZ by lia.
Qed.

Lemma calm_update p touch ring frames count touch' ring' :
  calm C units touch ring frames p →
  calm C units touch' ring' frames
    (update count (Some touch') (Some ring') (output_queue p) (script p) p).
Proof.
  intros (? & ? & ? & ? & ? & ? & ? & ? & ?). unfold calm. cbn. done.
Qed.

Lemma emit_frame_calm samples p touch ring frames :
  calm C units touch ring frames p →
  Z.of_nat (length samples) = 1536 * C →
  ∃ frame,
    calm C units touch ring (frames ++ [frame]) (emit_frame samples 1536 p)
    ∧ interleaved C frame = samples
    ∧ nb_samples frame = 1536.
Proof.
  intros (Hchannels & Htemp & Hgraph & Hspeed & Hformat & Hscript & Htouch & Hring & Hqueue)
    Hlen.
  unfold emit_frame, create_output_frame. rewrite Hscript. cbn [Script.next negb].
  exists (mkFrame 1536 AV_SAMPLE_FMT_FLTP (input_channels_ p) (input_sample_rate_ p)
            (processed_samples_count_ p) (planar (input_channels_ p) 1536 samples)).
  split; [|split; [|reflexivity]].
  - unfold calm. cbn. rewrite Hqueue. unfold ThreadSafeQueue.push. cbn.
    rewrite fmap_app, app_assoc. done.
  - rewrite Hchannels. apply interleaved_planar; lia.
Qed.

(** The frame loop empties the ring buffer down to an incomplete frame
    and pushes what it read, in order. *)
Lemma drain_frames_calm : ∀ fuel p touch ring frames,
  calm C units touch ring frames p → ring_ok C ring →
  (Z.to_nat (available_ ring) < fuel)%nat →
  ∃ p' ring' frames',
    drain_frames fuel p = Some p'
    ∧ calm C units touch ring' (frames ++ frames') p'
    ∧ ring_ok C ring'
    ∧ available_ ring' < 1536 * C
    ∧ carried C frames' ++ contents ring' = contents ring
    ∧ Forall (full_frame C) frames'.
Proof.
  induction fuel as [|fuel IH]; intros p touch ring frames Hcalm Hok Hfuel; [lia|].
  pose proof Hcalm as (_ & _ & _ & _ & _ & _ & Htouch & Hring & _).
  cbn [drain_frames]. rewrite Hring, Htouch.
  destruct (decide (available_ ring < 1536 * C)) as [Hshort|Hfull].
  - rewrite read_frame_short by done.
    exists p, ring, []. rewrite app_nil_r. by split_and!.
  - destruct (read_frame_full ring Hok) as (ring1 & -> & Hok1 & Hcontents1 & Havail1);
      [lia|].
    pose proof Hok as (_ & _ & _ & (_ & Ha & _) & _).
    pose proof Hok1 as (Hfs1 & _ & _ & (_ & Ha1 & _) & _).
    rewrite Hfs1.
    set (samples := take (Z.to_nat (1536 * C)) (contents ring)).
    assert (Hlen : Z.of_nat (length samples) = 1536 * C).
    { subst samples. rewrite length_take. pose proof (length_contents ring). lia. }
    destruct (emit_frame_calm samples _ touch ring1 frames
                (calm_update p touch ring frames (processed_samples_count_ p) touch ring1
                   Hcalm) Hlen)
      as (frame & Hcalm1 & Hframe & Hnb).
    destruct (IH _ touch ring1 (frames ++ [frame]) Hcalm1 Hok1)
      as (p' & ring' & frames' & Hrun & Hcalm' & Hok' & Hshort' & Hcarried & Hfull');
      [lia|].
    exists p', ring', (frame :: frames').
    split; [exact Hrun|].
    rewrite <- app_assoc in Hcalm'. split_and!; try done.
    + unfold carried in *. rewrite fmap_cons.
      change (mjoin (interleaved C frame :: (interleaved C <$> frames')))
        with (interleaved C frame ++ mjoin (interleaved C <$> frames')).
      rewrite <- app_assoc, Hcarried, Hframe, Hcontents1. apply take_drop.
    + constructor; [|done]. split; [done|]. by rewrite Hframe.
Qed.

Lemma receive_loop_empty skip fuel p state ring frames :
  calm C units (mkTouch state [] C) ring frames p → (0 < fuel)%nat →
  ∃ p', receive_loop fuel skip p = Some p'
        ∧ calm C units (mkTouch state [] C) ring frames p'.
Proof.
  intros Hcalm Hfuel. destruct fuel as [|fuel]; [lia|].
  pose proof Hcalm as (Hchannels & Htemp & _ & _ & _ & _ & Htouch & Hring & _).
  cbn [receive_loop]. rewrite Htouch, Hring, Htemp, Hchannels.
  unfold receiveSamples. cbn [fifo touch_channels tempo length Z.of_nat].
  rewrite Z.quot_0_l by lia. rewrite Z.quot_mul by lia.
  cbn [Z.min Z.compare Z.mul Z.to_nat take drop Z.ltb negb].
  eexists. split; [reflexivity|].
  by apply calm_update with (touch := mkTouch state [] C) (ring := ring).
Qed.

Lemma write_samples_overflow samples n ring :
  ring_ok C ring →
  1536 * C * 4 < available_ ring + n * C →
  write_samples samples n ring = (false, ring).
Proof.
  intros (_ & Hchannels & Hsize & _) Hover. unfold write_samples.
  rewrite Hchannels, Hsize.
  by assert ((1536 * C * 4 <? available_ ring + n * C) = true) as -> by lia.
Qed.

Lemma calm_note_input_pts input_pts p touch ring frames :
  calm C units touch ring frames p →
  calm C units touch ring frames (note_input_pts input_pts p).
Proof.
  intros Hcalm. unfold note_input_pts.
  destruct (input_pts =? Mem.AV_NOPTS_VALUE); [done|].
  destruct Hcalm as (? & ? & ? & ? & ? & ? & ? & ? & ?). unfold calm. cbn. done.
Qed.

Lemma carried_app (frames frames' : list AVFrame) :
  carried C (frames ++ frames') = carried C frames ++ carried C frames'.
Proof. unfold carried. by rewrite fmap_app, join_app. Qed.

Lemma length_carried (frames : list AVFrame) :
  Forall (full_frame C) frames →
  Z.of_nat (length (carried C frames)) = 1536 * C * Z.of_nat (length frames).
Proof.
  induction 1 as [|frame frames [_ Hframe] _ IH]; [cbn; lia|].
  change (carried C (frame :: frames)) with (interleaved C frame ++ carried C frames).
  rewrite length_app. cbn [length]. lia.
Qed.

(** The fill level that whole frames leave behind. *)
Lemma level_after ring ring' (frames' : list AVFrame) (kept : list float) :
  0 ≤ available_ ring → 0 ≤ available_ ring' < 1536 * C →
  Forall (full_frame C) frames' →
  carried C frames' ++ contents ring' = contents ring ++ kept →
  available_ ring' = (available_ ring + Z.of_nat (length kept)) mod (1536 * C).
Proof.
  intros Ha Ha' Hfull Hcarried.
  apply (f_equal length) in Hcarried. rewrite !length_app in Hcarried.
  pose proof (length_carried frames' Hfull).
  pose proof (length_contents ring Ha).
  pose proof (length_contents ring' (proj1 Ha')).
  apply (Z.mod_unique_pos _ _ (Z.of_nat (length frames'))); lia.
Qed.

(** One pass of the receive loop over a chunk that the tempo processor
    has produced: a chunk that fits goes through the ring buffer into
    frames, in order, and what does not fill a frame stays in the ring
    buffer; a chunk that does not fit is taken out of the tempo processor
    and goes nowhere. *)
Lemma repacketize_chunk skip fuel p state chunk ring frames :
  let kept := if fits_ring C (available_ ring) chunk then chunk else [] in
  calm C units (mkTouch state chunk C) ring frames p →
  ring_ok C ring → available_ ring < 1536 * C →
  whole_chunk C chunk → (length chunk < fuel)%nat →
  ∃ p' ring' frames',
    receive_loop fuel skip p = Some p'
    ∧ calm C units (mkTouch state [] C) ring' (frames ++ frames') p'
    ∧ ring_ok C ring'
    ∧ available_ ring' < 1536 * C
    ∧ available_ ring' = (available_ ring + Z.of_nat (length kept)) mod (1536 * C)
    ∧ carried C frames' ++ contents ring' = contents ring ++ kept
    ∧ Forall (full_frame C) frames'.
Proof.
  intros kept Hcalm Hok Hshort [Hsmall Hwhole] Hfuel.
  pose proof Hok as (_ & _ & _ & (_ & Ha & _) & _).
  assert (Hgoal : ∃ p' ring' frames',
    receive_loop fuel skip p = Some p'
    ∧ calm C units (mkTouch state [] C) ring' (frames ++ frames') p'
    ∧ ring_ok C ring'
    ∧ available_ ring' < 1536 * C
    ∧ carried C frames' ++ contents ring' = contents ring ++ kept
    ∧ Forall (full_frame C) frames').
  { destruct (decide (chunk = [])) as [->|Hchunk].
    { destruct (receive_loop_empty skip fuel p state ring frames Hcalm)
        as (p' & Hrun & Hcalm'); [lia|].
      exists p', ring, []. subst kept. rewrite !app_nil_r.
      split_and!; try done. destruct (fits_ring _ _ _); by rewrite app_nil_r. }
    destruct fuel as [|fuel]; [lia|].
    pose proof Hcalm as (Hchannels & Htemp & _ & _ & _ & _ & Htouch & Hring & _).
    set (len := Z.of_nat (length chunk)) in *.
    assert (Hlen : 0 < len) by (subst len; destruct chunk; [done|cbn; lia]).
    assert (Hquot : len `quot` C * C = len).
    { rewrite Z.quot_div_nonneg by lia.
      pose proof (Z.div_mod len C). lia. }
    assert (Hnum : 0 < len `quot` C ≤ 8192) by nia.
    cbn [receive_loop]. rewrite Htouch, Hring, Htemp, Hchannels.
    unfold receiveSamples. cbn [fifo touch_channels tempo]. fold len.
    rewrite Z.quot_mul by lia. rewrite Z.min_r by lia. rewrite Hquot.
    assert (Htaken : Z.to_nat len = length chunk) by (subst len; lia).
    rewrite Htaken, firstn_all, drop_all.
    assert ((0 <? len `quot` C) = true) as -> by lia.
    cbn [negb]. subst kept. unfold fits_ring. fold len.
    destruct (Z.leb_spec (available_ ring + len) (1536 * C * 4)) as [Hfits|Hover].
    - destruct (write_samples_fits chunk (len `quot` C) ring Hok)
        as (ring1 & -> & Hok1 & Hcontents1 & Havail1); [lia|lia|].
      cbn [negb andb].
      set (p1 := update _ _ (Some ring1) _ _ p).
      assert (Hcalm1 : calm C units (mkTouch state [] C) ring1 frames p1)
        by (by apply calm_update with (touch := mkTouch state chunk C) (ring := ring)).
      destruct (drain_frames_calm (drain_fuel p1) p1 (mkTouch state [] C) ring1 frames
                  Hcalm1 Hok1)
        as (p2 & ring2 & frames2 & -> & Hcalm2 & Hok2 & Hshort2 & Hcarried2 & Hfull2).
      { unfold drain_fuel. subst p1. cbn. lia. }
      destruct (receive_loop_empty skip fuel p2 state ring2 (frames ++ frames2) Hcalm2)
        as (p3 & Hrun3 & Hcalm3); [lia|].
      exists p3, ring2, frames2. split_and!; try done.
      by rewrite Hcarried2, Hcontents1.
    - rewrite write_samples_overflow by (done || lia).
      cbn [negb andb].
      set (p1 := update _ _ (Some ring) _ _ p).
      assert (Hcalm1 : calm C units (mkTouch state [] C) ring frames p1)
        by (by apply calm_update with (touch := mkTouch state chunk C) (ring := ring)).
      rewrite app_nil_r.
      destruct skip.
      + destruct (receive_loop_empty true fuel p1 state ring frames Hcalm1)
          as (p3 & Hrun3 & Hcalm3); [lia|].
        exists p3, ring, []. rewrite !app_nil_r. by split_and!.
      + destruct (drain_frames_calm (drain_fuel p1) p1 (mkTouch state [] C) ring frames
                    Hcalm1 Hok)
          as (p2 & ring2 & frames2 & -> & Hcalm2 & Hok2 & Hshort2 & Hcarried2 & Hfull2).
        { unfold drain_fuel. subst p1. cbn. lia. }
        destruct (receive_loop_empty false fuel p2 state ring2 (frames ++ frames2) Hcalm2)
          as (p3 & Hrun3 & Hcalm3); [lia|].
        exists p3, ring2, frames2. by split_and!. }
  destruct Hgoal as (p' & ring' & frames' & Hrun & Hcalm' & Hok' & Hshort' & Hcarried & Hfull).
  exists p', ring', frames'. split_and!; try done.
  pose proof Hok' as (_ & _ & _ & (_ & Ha' & _) & _).
  apply (level_after ring ring' frames' kept); (done || lia).
Qed.

(** [process_frame] on one input frame. *)
Lemma repacketize_frame frame p state ring frames :
  let produced := tempo_put state (tempo_input C frame) in
  let kept := if fits_ring C (available_ ring) produced.2 then produced.2 else [] in
  calm C units (mkTouch state [] C) ring frames p →
  ring_ok C ring → available_ ring < 1536 * C →
  whole_chunk C produced.2 →
  ∃ result p' ring' frames',
    process_frame tempo_put filter_frames frame p = Some (result, p')
    ∧ calm C units (mkTouch produced.1 [] C) ring' (frames ++ frames') p'
    ∧ ring_ok C ring'
    ∧ available_ ring' < 1536 * C
    ∧ available_ ring' = (available_ ring + Z.of_nat (length kept)) mod (1536 * C)
    ∧ carried C frames' ++ contents ring' = contents ring ++ kept
    ∧ Forall (full_frame C) frames'.
Proof.
  intros produced kept Hcalm Hok Hshort Hchunk.
  pose proof (calm_note_input_pts (pts frame) p _ _ _ Hcalm) as Hnoted.
  pose proof Hcalm as (_ & _ & Hgraph & Hspeed & _).
  unfold process_frame, process_frame_with_speed. rewrite Hgraph, Hspeed. cbn [negb].
  set (p0 := note_input_pts (pts frame) p) in *.
  pose proof Hnoted as (Hchannels & _ & _ & _ & Hformat & _ & Htouch & Hring & _).
  rewrite Hformat, Z.eqb_refl, Hchannels.
  unfold process_samples_through_soundtouch_with_frame_pts.
  rewrite Htouch, Hring. cbn [fmap option_fmap option_map].
  unfold putSamples. cbn [tempo touch_channels fifo app].
  fold (tempo_input C frame). fold produced. subst kept.
  destruct produced as [state' chunk] eqn:Hproduced. cbn [fst snd] in *.
  set (p1 := update _ _ _ _ _ p0).
  assert (Hcalm1 : calm C units (mkTouch state' chunk C) ring frames p1)
    by (by apply calm_update with (touch := mkTouch state [] C) (ring := ring)).
  destruct (repacketize_chunk true (receive_fuel p1) p1 state' chunk ring frames
              Hcalm1 Hok Hshort Hchunk)
    as (p' & ring' & frames' & -> & Hcalm' & Hok' & Hshort' & Hlevel & Hcarried & Hfull).
  { unfold receive_fuel. subst p1. cbn. lia. }
  cbn [mbind option_bind]. by exists true, p', ring', frames'.
Qed.

(** [flush]: the last chunk of the tempo processor, and then what is left
    in the ring buffer, padded with silence to a whole frame. *)
Lemma repacketize_flush p state ring frames :
  let produced := tempo_flush state in
  let kept := if fits_ring C (available_ ring) produced.2 then produced.2 else [] in
  calm C units (mkTouch state [] C) ring frames p →
  ring_ok C ring → available_ ring < 1536 * C →
  whole_chunk C produced.2 →
  ∃ result p' frames' (pad : nat),
    flush tempo_flush filter_flush_frames p = Some (result, p')
    ∧ output_queue p'
      = ThreadSafeQueue.mk (units ++ (Some <$> frames ++ frames')) false
    ∧ carried C frames' = contents ring ++ kept ++ replicate pad 0%float
    ∧ Z.of_nat pad < 1536 * C
    ∧ Forall (full_frame C) frames'.
Proof.
  intros produced kept Hcalm Hok Hshort Hchunk.
  pose proof Hcalm as (_ & _ & Hgraph & Hspeed & _ & _ & Htouch & Hring & _).
  unfold flush. rewrite Hgraph, Hspeed, Htouch, Hring. cbn [negb].
  unfold flushTouch. cbn [tempo touch_channels fifo app]. fold produced. subst kept.
  destruct produced as [state' chunk] eqn:Hproduced. cbn [fst snd] in *.
  set (kept := if fits_ring C (available_ ring) chunk then chunk else []).
  set (p1 := update _ _ _ _ _ p).
  assert (Hcalm1 : calm C units (mkTouch state' chunk C) ring frames p1)
    by (by apply calm_update with (touch := mkTouch state [] C) (ring := ring)).
  destruct (repacketize_chunk false (receive_fuel p1) p1 state' chunk ring frames
              Hcalm1 Hok Hshort Hchunk)
    as (p2 & ring2 & frames2 & -> & Hcalm2 & Hok2 & Hshort2 & _ & Hcarried & Hfull).
  { unfold receive_fuel. subst p1. cbn. lia. }
  fold kept in Hcarried.
  cbn [mbind option_bind].
  pose proof Hcalm2 as (Hchannels2 & _ & _ & _ & _ & _ & _ & Hring2 & Hqueue2).
  pose proof Hok2 as (_ & Hrc & Hsize & (Hr & Ha & _) & Hwhole).
  rewrite Hring2. unfold available_samples. rewrite Hrc.
  assert (Hquot : available_ ring2 `quot` C * C = available_ ring2).
  { rewrite Z.quot_div_nonneg by lia.
    pose proof (Z.div_mod (available_ ring2) C). lia. }
  destruct (decide (available_ ring2 = 0)) as [Hnone|Hsome].
  - rewrite Hnone, Z.quot_0_l by lia. cbn [Z.ltb Z.compare andb].
    exists true, p2, frames2, 0%nat. split_and!; try done; [|lia].
    cbn [replicate]. rewrite app_nil_r, <- Hcarried.
    unfold contents at 1, contents_of. rewrite Hnone. cbn.
    by rewrite !app_nil_r.
  - assert (Hremaining : 0 < available_ ring2 `quot` C < 1536) by nia.
    assert (((0 <? available_ ring2 `quot` C) && (available_ ring2 `quot` C <? 1536))
            = true) as -> by lia.
    set (padded := padded_tail _ _ ring2).
    set (pad := Z.to_nat (1536 * C - available_ ring2)).
    assert (Hpadded : padded = contents ring2 ++ replicate pad 0%float).
    { subst padded pad. unfold padded_tail, contents, contents_of.
      rewrite Hchannels2, Hquot. f_equal.
      apply list_fmap_ext. intros k i Hi. apply lookup_seqZ in Hi as [-> Hk].
      by rewrite Z.rem_mod_nonneg by lia. }
    assert (Hlen : Z.of_nat (length padded) = 1536 * C).
    { rewrite Hpadded, length_app, length_replicate.
      pose proof (length_contents ring2). lia. }
    set (p3 := update _ _ (Some (clear ring2)) _ _ p2).
    assert (Hcalm3 : calm C units (mkTouch state' [] C) (clear ring2) (frames ++ frames2) p3).
    { subst p3. destruct Hcalm2 as (? & ? & ? & ? & ? & ? & Htouch2 & ? & ?).
      rewrite Htouch2. unfold calm. cbn. done. }
    destruct (emit_frame_calm padded p3 _ _ _ Hcalm3 Hlen) as (frame & Hcalm4 & Hframe & Hnb).
    exists true, (emit_frame padded 1536 p3), (frames2 ++ [frame]), pad.
    destruct Hcalm4 as (_ & _ & _ & _ & _ & _ & _ & _ & Hqueue4).
    split_and!; try done.
    + by rewrite Hqueue4, <- app_assoc.
    + rewrite carried_app. unfold carried at 2. cbn [fmap list_fmap mjoin list_join].
      rewrite app_nil_r, Hframe, Hpadded, app_assoc, Hcarried. by rewrite <- !app_assoc.
    + subst pad. lia.
    + apply Forall_app. split; [done|]. constructor; [|done].
      split; [done|]. by rewrite Hframe.
Qed.

(** The loop of the audio processor thread over a finished queue of
    frames. *)
Lemma repacketize_all : ∀ (inputs : list AVFrame) p state ring frames,
  let chunks := tempo_chunks tempo_put tempo_flush state (tempo_input C <$> inputs) in
  calm C units (mkTouch state [] C) ring frames p →
  ring_ok C ring → available_ ring < 1536 * C →
  Forall (whole_chunk C) chunks →
  ∃ p' frames' (pad : nat),
    process_loop tempo_put tempo_flush filter_frames filter_flush_frames
      (Some <$> inputs) true p = Some (Stage.Returned, p')
    ∧ output_queue p'
      = ThreadSafeQueue.mk (units ++ (Some <$> frames ++ frames')) true
    ∧ carried C frames'
      = contents ring ++ surviving C (available_ ring) chunks ++ replicate pad 0%float
    ∧ Z.of_nat pad < 1536 * C
    ∧ Forall (full_frame C) frames'.
Proof.
  induction inputs as [|frame inputs IH]; intros p state ring frames chunks
    Hcalm Hok Hshort Hchunks; subst chunks.
  - cbn [fmap list_fmap tempo_chunks process_loop surviving] in *.
    apply Forall_cons in Hchunks as [Hchunk _].
    destruct (repacketize_flush p state ring frames Hcalm Hok Hshort Hchunk)
      as (result & p' & frames' & pad & -> & Hqueue & Hcarried & Hpad & Hfull).
    cbn [mbind option_bind]. eexists _, frames', pad. split; [reflexivity|].
    cbn. rewrite Hqueue. cbn [ThreadSafeQueue.finish ThreadSafeQueue.queue_].
    split_and!; try done.
    rewrite Hcarried. by destruct (fits_ring _ _ _); rewrite ?app_nil_r.
  - cbn [fmap list_fmap tempo_chunks process_loop] in *.
    destruct (tempo_put state (tempo_input C frame)) as [state' chunk] eqn:Hput.
    apply Forall_cons in Hchunks as [Hchunk Hchunks].
    pose proof (repacketize_frame frame p state ring frames Hcalm Hok Hshort) as Hstep.
    cbn zeta in Hstep. rewrite Hput in Hstep.
    destruct (Hstep Hchunk)
      as (result & p1 & ring1 & frames1 & -> & Hcalm1 & Hok1 & Hshort1 & Hlevel1
          & Hcarried1 & Hfull1).
    cbn [mbind option_bind fst snd] in *.
    destruct (IH p1 state' ring1 (frames ++ frames1) Hcalm1 Hok1 Hshort1 Hchunks)
      as (p' & frames' & pad & Hrun & Hqueue & Hcarried & Hpad & Hfull).
    exists p', (frames1 ++ frames'), pad.
    split_and!; try done.
    + by rewrite Hqueue, <- app_assoc.
    + rewrite carried_app, Hcarried, app_assoc, Hcarried1, Hlevel1.
      cbn [surviving].
      pose proof Hok as (_ & _ & _ & (_ & Ha & _) & _).
      destruct (fits_ring C (available_ ring) chunk).
      * by rewrite <- !app_assoc.
      * cbn [length Z.of_nat]. rewrite Z.add_0_r, Z.mod_small by lia.
        by rewrite app_nil_r.
    + by apply Forall_app.
Qed.

(** Chunks of at most [3 * 1536] samples per channel always fit. *)
Lemma surviving_fitting : ∀ (chunks : list (list float)) level,
  0 ≤ level < 1536 * C →
  Forall (fitting_chunk C) chunks →
  surviving C level chunks = mjoin chunks.
Proof.
  induction chunks as [|chunk chunks IH]; intros level Hlevel Hchunks; [done|].
  apply Forall_cons in Hchunks as [[Hsmall _] Hchunks].
  cbn [surviving]. unfold fits_ring.
  assert ((level + Z.of_nat (length chunk) <=? 1536 * C * 4) = true) as -> by lia.
  rewrite IH; [done| |done].
  apply Z.mod_pos_bound. lia.
Qed.

Lemma fitting_chunk_whole (chunk : list float) :
  fitting_chunk C chunk → whole_chunk C chunk.
Proof. intros [Hsmall Hwhole]. split; [lia|done]. Qed.

End Conservation.

(** X21: the audio processor conserves the samples of the tempo
    processor.  With speed change enabled for mono or stereo planar float
    input, every allocation succeeding, a finished input queue, and a
    tempo processor whose every output chunk (one per input frame and one
    for the flush) consists of whole multi-channel samples and has at most
    [3 * 1536] samples per channel, the thread returns with its output
    queue finished, and the frames it pushed carry, channel-interleaved
    and in order, exactly the samples that the tempo processor produced,
    followed by the silence that pads the last frame: nothing is lost,
    repeated or reordered on the way through the ring buffer.  Each frame
    has 1536 samples per channel. *)
Theorem audio_processor_conserves_samples {Tempo : Type}
    (tempo_init : Z → Z → float → Tempo)
    (tempo_put : Tempo → list float → Tempo * list float)
    (tempo_flush : Tempo → Tempo * list float)
    (filter_frames : AudioProcessor.AVFrame → list AudioProcessor.AVFrame)
    (filter_flush_frames : list AudioProcessor.AVFrame)
    (inputs : list AudioProcessor.AVFrame)
    (units : list (option AudioProcessor.AVFrame))
    (params : AudioProcessor.AudioProcessParams) (sample_rate channels : Z) :
  AudioProcessor.enable_speed_change params = true →
  (channels = 1 ∨ channels = 2)%Z →
  let chunks :=
    AudioProcessor.tempo_chunks tempo_put tempo_flush
      (tempo_init sample_rate channels (AudioProcessor.speed_factor params))
      (AudioProcessor.tempo_input channels <$> inputs) in
  Forall (AudioProcessor.fitting_chunk channels) chunks →
  ∃ p frames,
    AudioProcessor.audio_process_thread_func tempo_init tempo_put tempo_flush
      filter_frames filter_flush_frames
      (ThreadSafeQueue.mk (Some <$> inputs) true) (ThreadSafeQueue.mk units false)
      params sample_rate channels AudioProcessor.AV_SAMPLE_FMT_FLTP []
    = Some (Stage.Returned, p)
    ∧ AudioProcessor.output_queue p = ThreadSafeQueue.mk (units ++ (Some <$> frames)) true
    ∧ AudioProcessor.carried channels frames
      = mjoin chunks
        ++ replicate (Z.to_nat ((- Z.of_nat (length (mjoin chunks))) mod (1536 * channels)))
                     0%float
    ∧ Forall (λ frame, AudioProcessor.nb_samples frame = 1536%Z) frames.
Proof.
  intros Hspeed Hchannels chunks Hchunks.
  unfold AudioProcessor.audio_process_thread_func, AudioProcessor.initialize.
  rewrite Hspeed.
  cbn [AudioProcessor.new AudioProcessor.script Script.next negb
       ThreadSafeQueue.queue_ ThreadSafeQueue.finished_].
  set (ring := AudioProcessor.new_ring 1536 channels sample_rate).
  assert (Hok : AudioProcessor.ring_ok channels ring).
  { subst ring. by destruct Hchannels as [-> | ->]. }
  match goal with
  | |- context [AudioProcessor.process_loop _ _ _ _ _ _ ?configured] =>
      set (p0 := configured)
  end.
  assert (Hcalm : AudioProcessor.calm channels units
                    (AudioProcessor.mkTouch
                       (tempo_init sample_rate channels (AudioProcessor.speed_factor params))
                       [] channels)
                    ring [] p0).
  { unfold AudioProcessor.calm. subst p0. cbn. by rewrite app_nil_r. }
  destruct (repacketize_all tempo_put tempo_flush channels Hchannels units filter_frames
              filter_flush_frames inputs p0 _ ring [] Hcalm Hok)
    as (p & frames & pad & Hrun & Hqueue & Hcarried & Hpad & Hfull).
  { subst ring. cbn. lia. }
  { eapply Forall_impl; [exact Hchunks|]. apply (fitting_chunk_whole channels Hchannels). }
  exists p, frames. split; [exact Hrun|]. split; [exact Hqueue|].
  fold chunks in Hcarried. cbn [app] in Hcarried.
  assert (Hempty : AudioProcessor.contents ring = []) by done.
  rewrite Hempty in Hcarried. cbn [app] in Hcarried.
  rewrite (surviving_fitting channels Hchannels) in Hcarried
    by (done || (subst ring; cbn; lia)).
  split.
  - rewrite Hcarried. do 2 f_equal.
    pose proof (length_carried channels frames Hfull) as Hlen.
    rewrite Hcarried, length_app, length_replicate in Hlen.
    replace (- Z.of_nat (length (mjoin chunks)))%Z
      with (Z.of_nat pad + (- Z.of_nat (length frames)) * (1536 * channels))%Z by lia.
    rewrite Z_mod_plus_full, Z.mod_small by lia. lia.
  - eapply Forall_impl; [exact Hfull|]. by intros frame [Hnb _].
Qed.

Lemma audio_processor_conserves_samples_witness :
  ∃ p frames,
    AudioProcessor.audio_process_thread_func (λ _ _ _, ())
      Scenario.pass_through_put Scenario.pass_through_flush (λ _, []) []
      (ThreadSafeQueue.mk (Some <$> [Scenario.mono_frame 2000 777]) true)
      (ThreadSafeQueue.mk [] false) Scenario.speed_change 44100 1
      AudioProcessor.AV_SAMPLE_FMT_FLTP []
    = Some (Stage.Returned, p)
    ∧ AudioProcessor.output_queue p = ThreadSafeQueue.mk ([] ++ (Some <$> frames)) true
    ∧ AudioProcessor.carried 1 frames
      = replicate 2000 0.5%float ++ replicate 1072 0%float
    ∧ Forall (λ frame, AudioProcessor.nb_samples frame = 1536%Z) frames.
Proof.
  destruct (audio_processor_conserves_samples (λ _ _ _, ())
              Scenario.pass_through_put Scenario.pass_through_flush (λ _, []) []
              [Scenario.mono_frame 2000 777] [] Scenario.speed_change 44100 1
              eq_refl (or_introl eq_refl))
    as (p & frames & Hrun & Hqueue & Hcarried & Hfull).
  - repeat constructor; vm_compute; (discriminate || reflexivity).
  - exists p, frames. split_and!; [exact Hrun|exact Hqueue| |exact Hfull].
    rewrite Hcarried. vm_compute. reflexivity.
Defined.

(** X22: what the audio processor loses.  Under the conditions of X21 but
    with output chunks of up to 8192 samples per channel (what one
    [receiveSamples] call takes), the frames pushed carry exactly the
    chunks that fitted into the ring buffer when they arrived: a chunk
    that, together with the incomplete frame waiting there, exceeds the
    capacity of [4 * 1536] samples per channel is taken out of the tempo
    processor, refused by [write_samples] and discarded whole, while the
    thread carries on and still reports success.  The surviving chunks
    arrive in order, followed by the padding of the last frame. *)
Theorem audio_processor_drops_chunks_that_overflow {Tempo : Type}
    (tempo_init : Z → Z → float → Tempo)
    (tempo_put : Tempo → list float → Tempo * list float)
    (tempo_flush : Tempo → Tempo * list float)
    (filter_frames : AudioProcessor.AVFrame → list AudioProcessor.AVFrame)
    (filter_flush_frames : list AudioProcessor.AVFrame)
    (inputs : list AudioProcessor.AVFrame)
    (units : list (option AudioProcessor.AVFrame))
    (params : AudioProcessor.AudioProcessParams) (sample_rate channels : Z) :
  AudioProcessor.enable_speed_change params = true →
  (channels = 1 ∨ channels = 2)%Z →
  let chunks :=
    AudioProcessor.tempo_chunks tempo_put tempo_flush
      (tempo_init sample_rate channels (AudioProcessor.speed_factor params))
      (AudioProcessor.tempo_input channels <$> inputs) in
  let survivors := AudioProcessor.surviving channels 0 chunks in
  Forall (AudioProcessor.whole_chunk channels) chunks →
  ∃ p frames,
    AudioProcessor.audio_process_thread_func tempo_init tempo_put tempo_flush
      filter_frames filter_flush_frames
      (ThreadSafeQueue.mk (Some <$> inputs) true) (ThreadSafeQueue.mk units false)
      params sample_rate channels AudioProcessor.AV_SAMPLE_FMT_FLTP []
    = Some (Stage.Returned, p)
    ∧ AudioProcessor.output_queue p = ThreadSafeQueue.mk (units ++ (Some <$> frames)) true
    ∧ AudioProcessor.carried channels frames
      = survivors
        ++ replicate (Z.to_nat ((- Z.of_nat (length survivors)) mod (1536 * channels)))
                     0%float
    ∧ Forall (AudioProcessor.full_frame channels) frames.
Proof.
  intros Hspeed Hchannels chunks survivors Hchunks.
  unfold AudioProcessor.audio_process_thread_func, AudioProcessor.initialize.
  rewrite Hspeed.
  cbn [AudioProcessor.new AudioProcessor.script Script.next negb
       ThreadSafeQueue.queue_ ThreadSafeQueue.finished_].
  set (ring := AudioProcessor.new_ring 1536 channels sample_rate).
  assert (Hok : AudioProcessor.ring_ok channels ring).
  { subst ring. by destruct Hchannels as [-> | ->]. }
  match goal with
  | |- context [AudioProcessor.process_loop _ _ _ _ _ _ ?configured] =>
      set (p0 := configured)
  end.
  assert (Hcalm : AudioProcessor.calm channels units
                    (AudioProcessor.mkTouch
                       (tempo_init sample_rate channels (AudioProcessor.speed_factor params))
                       [] channels)
                    ring [] p0).
  { unfold AudioProcessor.calm. subst p0. cbn. by rewrite app_nil_r. }
  destruct (repacketize_all tempo_put tempo_flush channels Hchannels units filter_frames
              filter_flush_frames inputs p0 _ ring [] Hcalm Hok)
    as (p & frames & pad & Hrun & Hqueue & Hcarried & Hpad & Hfull);
    [subst ring; cbn; lia | exact Hchunks |].
  exists p, frames. split; [exact Hrun|]. split; [exact Hqueue|].
  assert (Hempty : AudioProcessor.contents ring = []) by done.
  rewrite Hempty in Hcarried.
  change (AudioProcessor.available_ ring) with 0%Z in Hcarried.
  fold chunks in Hcarried. fold survivors in Hcarried. cbn [app] in Hcarried.
  split; [|exact Hfull].
  rewrite Hcarried. do 2 f_equal.
  pose proof (length_carried channels frames Hfull) as Hlen.
  rewrite Hcarried, length_app, length_replicate in Hlen.
  replace (- Z.of_nat (length survivors))%Z
    with (Z.of_nat pad + (- Z.of_nat (length frames)) * (1536 * channels))%Z by lia.
  rewrite Z_mod_plus_full, Z.mod_small by lia. lia.
Qed.

Lemma audio_processor_drops_chunks_that_overflow_witness :
  ∃ p,
    AudioProcessor.audio_process_thread_func (λ _ _ _, ())
      Scenario.fourfold_put Scenario.pass_through_flush (λ _, []) []
      (ThreadSafeQueue.mk (Some <$> [Scenario.mono_frame 2000 777]) true)
      (ThreadSafeQueue.mk [] false) Scenario.speed_change 44100 1
      AudioProcessor.AV_SAMPLE_FMT_FLTP []
    = Some (Stage.Returned, p)
    ∧ AudioProcessor.output_queue p = ThreadSafeQueue.mk [] true.
Proof.
  destruct (audio_processor_drops_chunks_that_overflow (λ _ _ _, ())
              Scenario.fourfold_put Scenario.pass_through_flush (λ _, []) []
              [Scenario.mono_frame 2000 777] [] Scenario.speed_change 44100 1
              eq_refl (or_introl eq_refl))
    as (p & frames & Hrun & Hqueue & Hcarried & Hfull).
  - repeat constructor; vm_compute; (discriminate || reflexivity).
  - exists p. split; [exact Hrun|].
    rewrite Hqueue. destruct Hfull as [|frame frames [_ Hframe] _]; [reflexivity|].
    match type of Hcarried with
    | _ = ?survivors =>
        assert (Hnone : length survivors = 0%nat) by (vm_compute; reflexivity)
    end.
    apply (f_equal length) in Hcarried. rewrite Hnone in Hcarried.
    change (AudioProcessor.carried 1 (frame :: frames))
      with (AudioProcessor.interleaved 1 frame ++ AudioProcessor.carried 1 frames)
      in Hcarried.
    rewrite length_app in Hcarried. lia.
Defined.

(** ** The filter graph in speed mode (audio_processor.cpp) *)

Section FilterGraph.
Import AudioProcessor.
Context {Tempo : Type}.
Variable tempo_put : Tempo → list float → Tempo * list float.
Variable tempo_flush : Tempo → Tempo * list float.
Variable C : Z.
Hypothesis C_pos : (0 < C)%Z.
Variables filter_frames filter_frames' : AVFrame → list AVFrame.
Variables filter_flush_frames filter_flush_frames' : list AVFrame.
Implicit Types (p : t Tempo).

Lemma process_frame_bypasses_filter frame p :
  repacketizer_invariant C p →
  process_frame tempo_put filter_frames frame p
  = process_frame tempo_put filter_frames' frame p.
Proof.
  intros (_ & _ & Hspeed & _). unfold process_frame. by rewrite Hspeed.
Qed.

Lemma flush_bypasses_filter p :
  repacketizer_invariant C p →
  flush tempo_flush filter_flush_frames p = flush tempo_flush filter_flush_frames' p.
Proof.
  intros (_ & _ & Hspeed & (touch & Htouch & _) & _). unfold flush.
  by rewrite Hspeed, Htouch.
Qed.

Lemma process_loop_bypasses_filter input_finished : ∀ pending p,
  repacketizer_invariant C p →
  process_loop tempo_put tempo_flush filter_frames filter_flush_frames
    pending input_finished p
  = process_loop tempo_put tempo_flush filter_frames' filter_flush_frames'
      pending input_finished p.
Proof.
  induction pending as [|[frame|] pending IH]; intros p Hinv; cbn [process_loop].
  - by rewrite (flush_bypasses_filter p Hinv).
  - rewrite <- (process_frame_bypasses_filter frame p Hinv).
    destruct (process_frame_total tempo_put C C_pos filter_frames frame p Hinv)
      as (result & p' & -> & Hinv').
    cbn [mbind option_bind]. by apply IH.
  - by rewrite (flush_bypasses_filter p Hinv).
Qed.

End FilterGraph.

(** X23: in speed mode the audio never passes through the filter graph.
    With [enable_speed_change] set (as [main] always sets it), whatever
    the outcomes of the allocations, the result of the audio processor
    thread does not depend on what the filter graph would deliver for a
    frame or at the end of the stream: [process_frame] and [flush] take
    the SoundTouch path only, so the filters of
    [build_filter_description] (volume, low-pass, high-pass, compressor,
    resampling) are set up but never applied. *)
Theorem speed_mode_bypasses_filter_graph {Tempo : Type}
    (tempo_init : Z → Z → float → Tempo)
    (tempo_put : Tempo → list float → Tempo * list float)
    (tempo_flush : Tempo → Tempo * list float)
    (filter_frames filter_frames' : AudioProcessor.AVFrame → list AudioProcessor.AVFrame)
    (filter_flush_frames filter_flush_frames' : list AudioProcessor.AVFrame)
    (input_queue : ThreadSafeQueue.t (option AudioProcessor.AVFrame))
    (params : AudioProcessor.AudioProcessParams)
    (sample_rate channels format : Z) (script : Script.t) :
  AudioProcessor.enable_speed_change params = true →
  (0 < channels)%Z →
  AudioProcessor.audio_process_thread_func tempo_init tempo_put tempo_flush
    filter_frames filter_flush_frames input_queue ThreadSafeQueue.new
    params sample_rate channels format script
  = AudioProcessor.audio_process_thread_func tempo_init tempo_put tempo_flush
      filter_frames' filter_flush_frames' input_queue ThreadSafeQueue.new
      params sample_rate channels format script.
Proof.
  intros Hspeed Hchannels.
  unfold AudioProcessor.audio_process_thread_func, AudioProcessor.initialize.
  rewrite Hspeed. cbn [AudioProcessor.new AudioProcessor.script].
  destruct (Script.next script) as [[] script1]; cbn [negb]; [|done].
  destruct (Script.next script1) as [[] script2]; cbn [negb]; [|done].
  destruct (Script.next script2) as [[] script3]; cbn [negb]; [|done].
  apply (process_loop_bypasses_filter tempo_put tempo_flush channels Hchannels).
  unfold AudioProcessor.repacketizer_invariant. cbn.
  split_and!; eauto. by intros i unit Hi.
Qed.

Lemma speed_mode_bypasses_filter_graph_witness :
  AudioProcessor.audio_process_thread_func (λ _ _ _, ())
    Scenario.pass_through_put Scenario.pass_through_flush
    (λ frame, [frame; frame]) [Scenario.mono_frame 1536 0]
    (ThreadSafeQueue.mk [Some (Scenario.mono_frame 2000 777)] true)
    ThreadSafeQueue.new Scenario.speed_change 44100 1
    AudioProcessor.AV_SAMPLE_FMT_FLTP []
  = AudioProcessor.audio_process_thread_func (λ _ _ _, ())
      Scenario.pass_through_put Scenario.pass_through_flush (λ _, []) []
      (ThreadSafeQueue.mk [Some (Scenario.mono_frame 2000 777)] true)
      ThreadSafeQueue.new Scenario.speed_change 44100 1
      AudioProcessor.AV_SAMPLE_FMT_FLTP [].
Proof.
  apply (speed_mode_bypasses_filter_graph (λ _ _ _, ())
           Scenario.pass_through_put Scenario.pass_through_flush);
    [reflexivity | lia].
Defined.
